(** * Longitudinal segmentation metrics: a shallow embedding

    The development follows the two command-line tools of the repository,

    - [src/segmentation/synthseg/calculate_session_metrics.py]
      (all session pairs, chunked incremental CSV writer), and
    - [src/segmentation/synthseg/compute_consecutive_metrics.py]
      (consecutive session pairs, one CSV written at the end).

    Python values are embedded as follows.  A [str] is a [string]; the
    lexicographic order of Python strings is the order of [String.compare].
    A [pathlib.Path] is the list of its [parts].  A [dict] is an association
    list in insertion order, as the iteration order of a Python dict is.
    A numpy array of a label image is a shape together with its element
    at each index, read inside the shape only and listed in C order.  An
    integer is a [Z]: the voxel counts of an array stay far below the range
    of numpy's integers.  A Python float is an exact rational: the
    development proves nothing about rounding.  An exception is a value of
    the type [exn], and a function that can raise returns a [result].

    Part I is the embedding, in the order of the sources; Part II states
    and proves the properties. *)

From Stdlib Require Import List Bool Arith ZArith QArith Lia.
From Stdlib Require Import Ascii String.
From Stdlib Require Import Permutation Sorted.
Import ListNotations.

Set Implicit Arguments.

Local Open Scope list_scope.

(* ====================================================================== *)
(** * Part I.  The embedding                                              *)
(* ====================================================================== *)

(** ** Strings *)

Module PyStr.

(** [s.startswith(p)] *)
Definition startswith (p s : string) : bool := String.prefix p s.

(** [s[n:]] *)
Fixpoint drop (n : nat) (s : string) : string :=
  match n, s with
  | O, _ => s
  | S _, EmptyString => EmptyString
  | S n', String _ s' => drop n' s'
  end.

(** [s.endswith(p)] *)
Definition endswith (p s : string) : bool :=
  (String.length p <=? String.length s)%nat
  && String.eqb (drop (String.length s - String.length p) s) p.

(** [s.split(sep)[0]] for a non-empty separator: the text in front of
    the first occurrence of [sep], the whole of [s] when there is none. *)
Fixpoint split_head (sep s : string) : string :=
  match s with
  | EmptyString => EmptyString
  | String c s' =>
      if String.prefix sep s then EmptyString
      else String c (split_head sep s')
  end.

(** [sep in s] *)
Fixpoint contains (sep s : string) : bool :=
  String.prefix sep s
  || match s with
     | EmptyString => false
     | String _ s' => contains sep s'
     end.

(** [x in xs] for a list of strings. *)
Definition mem (x : string) (xs : list string) : bool :=
  existsb (String.eqb x) xs.

(** The ASCII digits, the class [[0-9]] of a [str] pattern. *)
Definition is_digit (c : ascii) : bool :=
  let n := nat_of_ascii c in ((48 <=? n) && (n <=? 57))%nat.

(** The longest prefix whose characters satisfy [p], and the rest. *)
Fixpoint span (p : ascii -> bool) (s : string) : string * string :=
  match s with
  | EmptyString => (EmptyString, EmptyString)
  | String c s' =>
      if p c then let (a, r) := span p s' in (String c a, r)
      else (EmptyString, s)
  end.

(** [int(d)] on a string of ASCII digits, most significant digit first. *)
Fixpoint int_digits (acc : Z) (d : string) : Z :=
  match d with
  | EmptyString => acc
  | String c d' => int_digits (10 * acc + Z.of_nat (nat_of_ascii c - 48)) d'
  end.

Definition int_of (d : string) : Z := int_digits 0 d.

End PyStr.

(** ** Paths *)

Module PyPath.

(** A [Path] is the list of its [parts]; an absolute path has the root
    ["/"] as its first part. *)
Definition path := list string.

Definition root : string := "/".

(** [p.name]: the last part, the empty string for the root and for [.] *)
Definition name (p : path) : string :=
  match p with
  | [] => EmptyString
  | [r] => if String.eqb r root then EmptyString else r
  | _ => last p EmptyString
  end.

(** [p.parent]: the root and [.] are their own parents. *)
Definition parent (p : path) : path :=
  match p with
  | [] => []
  | [r] => if String.eqb r root then [r] else []
  | _ => removelast p
  end.

(** [Path(d) / f] for a file name [f] without separators. *)
Definition join (d : path) (f : string) : path := d ++ [f].

Definition path_eqb (p q : path) : bool :=
  if list_eq_dec string_dec p q then true else false.

End PyPath.

Import PyPath.

(** ** Dictionaries

    A Python [dict] keeps its keys in insertion order; assigning to a key
    that is present replaces the value and leaves the key where it is. *)

Module PyDict.
Section Dict.
Variable V : Type.

Definition dict := list (string * V).

(** [d.get(k)] *)
Fixpoint get (d : dict) (k : string) : option V :=
  match d with
  | [] => None
  | (k', v) :: d' => if String.eqb k k' then Some v else get d' k
  end.

(** [d[k] = v] *)
Fixpoint set (d : dict) (k : string) (v : V) : dict :=
  match d with
  | [] => [(k, v)]
  | (k', v') :: d' =>
      if String.eqb k k' then (k', v) :: d' else (k', v') :: set d' k v
  end.

(** [d.keys()] *)
Definition keys (d : dict) : list string := map fst d.

End Dict.

(** [d.setdefault(k, {})[k2] = v] on a dict of dicts: the inner dict is
    the one stored under [k] (a fresh one when [k] is new), and the
    assignment is seen through the outer dict. *)
Definition set2 (V : Type) (d : dict (dict V)) (k k2 : string) (v : V)
  : dict (dict V) :=
  match get d k with
  | Some inner => set d k (set inner k2 v)
  | None => set d k (set [] k2 v)
  end.

Definition get2 (V : Type) (d : dict (dict V)) (k k2 : string) : option V :=
  match get d k with
  | Some inner => get inner k2
  | None => None
  end.

End PyDict.

(** ** Identity resolver *)

(** *** calculate_session_metrics.py *)

Definition FREESURFER_APARC_FILE : string := "aparc.DKTatlas+aseg.mgz".

(** [is_long_path]: the third part from the end names the run. *)
Definition is_long_path (p : path) : bool :=
  if (List.length p <? 3)%nat then false
  else PyStr.contains ".long." (nth (List.length p - 3) p EmptyString).

Definition parse_subject_session (run_dir : string) : string * string :=
  if PyStr.startswith "sub-" run_dir then
    (PyStr.split_head "_" run_dir, run_dir)
  else if PyStr.startswith "ses-" run_dir then
    ("simon"%string, run_dir)
  else
    (PyStr.split_head ".long." run_dir, run_dir).

(** A value that argparse leaves as [None] or fills with a list is true
    when it is a non-empty list. *)
Definition truthy (A : Type) (o : option (list A)) : bool :=
  match o with
  | Some (_ :: _) => true
  | _ => false
  end.

(** [subject_filter and subject not in subject_filter] *)
Definition filtered_out (subjects : option (list string)) (subject : string)
  : bool :=
  match subjects with
  | Some l => truthy subjects && negb (PyStr.mem subject l)
  | None => false
  end.

(** The indexing loop of [calculate_session_metrics] (lines 204-210) over
    the files [dkt_files] that the walk collected, in the order in which
    it collected them. *)
Definition index_step (subjects : option (list string))
    (subject_files : PyDict.dict (PyDict.dict path)) (dkt_file : path)
  : PyDict.dict (PyDict.dict path) :=
  let run_dir := name (parent (parent dkt_file)) in
  let (subject, session) := parse_subject_session run_dir in
  if filtered_out subjects subject then subject_files
  else PyDict.set2 subject_files subject session dkt_file.

Definition index_files (subjects : option (list string))
    (dkt_files : list path) : PyDict.dict (PyDict.dict path) :=
  fold_left (index_step subjects) dkt_files [].

(** *** compute_consecutive_metrics.py *)

Definition not_underscore (c : ascii) : bool := negb (Ascii.eqb c "_").

(** [re.match(r"(sub-[^_]+)_(ses-[^_]+)_aparcDKT\+aseg\.mgz", name)].
    The match is anchored at the start only.  Each group is a maximal run
    of characters other than [_]: the run must be followed by [_], so no
    shorter run can match and the search needs no backtracking. *)
Definition match_flat (fname : string) : option (string * string) :=
  if PyStr.startswith "sub-" fname then
    let (a, r1) := PyStr.span not_underscore (PyStr.drop 4 fname) in
    match a with
    | EmptyString => None
    | _ =>
        if PyStr.startswith "_ses-" r1 then
          let (b, r2) := PyStr.span not_underscore (PyStr.drop 5 r1) in
          match b with
          | EmptyString => None
          | _ =>
              if PyStr.startswith "_aparcDKT+aseg.mgz" r2
              then Some (("sub-" ++ a)%string, ("ses-" ++ b)%string)
              else None
          end
        else None
    end
  else None.

(** Lines 73-86 of [find_segmentations]: the identity of one matched file. *)
Definition resolve_segmentation (full : path) : string * string :=
  let run_dir := name (parent (parent full)) in
  let parent_dir :=
    if (4 <=? List.length full)%nat then name (parent (parent (parent full)))
    else EmptyString in
  let session := run_dir in
  let subject :=
    if PyStr.startswith "ses-" run_dir then "long.simonBase_all_2025"%string
    else if PyStr.startswith "sub-" run_dir then PyStr.split_head "_ses-" run_dir
    else parent_dir in
  match match_flat (name full) with
  | Some (subj, sess) => (subj, sess)
  | None => (subject, session)
  end.

(** [f in aparc_names or f.endswith("_aparcDKT+aseg.mgz")] *)
Definition is_segmentation_name (aparc_names : list string) (f : string)
  : bool :=
  PyStr.mem f aparc_names || PyStr.endswith "_aparcDKT+aseg.mgz" f.

(** [find_segmentations] over the directories [(dirpath, files)] that
    [os.walk] yields (the depth cut-off prunes the walk itself). *)
Definition find_in_dir (aparc_names : list string)
    (subject_filter : option (list string)) (dir : path * list string)
  : list (string * string * path) :=
  let (dirpath, files) := dir in
  flat_map
    (fun f =>
       if is_segmentation_name aparc_names f then
         let full := join dirpath f in
         let (subject, session) := resolve_segmentation full in
         if filtered_out subject_filter subject then []
         else [(subject, session, full)]
       else [])
    files.

Definition find_segmentations (walk : list (path * list string))
    (aparc_names : list string) (subject_filter : option (list string))
  : list (string * string * path) :=
  flat_map (find_in_dir aparc_names subject_filter) walk.

(** Lines 139-141 of [main]. *)
Definition group_by_subject (segs : list (string * string * path))
  : PyDict.dict (PyDict.dict path) :=
  fold_left
    (fun by_subj '(subj, sess, p) => PyDict.set2 by_subj subj sess p)
    segs [].

(** ** Pair selector *)

(** [sorted(xs)] and [sorted(xs, key=...)] are stable and compare with [<]
    only.  A stable sort has one possible result, the one that insertion
    from the right computes: an element goes in front of the first element
    of the sorted tail that is not smaller than it. *)
Section Sorted.
Variable A : Type.
Variable ltb : A -> A -> bool.

Fixpoint insert_sorted (x : A) (l : list A) : list A :=
  match l with
  | [] => [x]
  | y :: l' => if ltb y x then y :: insert_sorted x l' else x :: l
  end.

Fixpoint py_sorted (l : list A) : list A :=
  match l with
  | [] => []
  | x :: l' => insert_sorted x (py_sorted l')
  end.
End Sorted.

(** [itertools.combinations(l, 2)] *)
Fixpoint combinations2 (A : Type) (l : list A) : list (A * A) :=
  match l with
  | [] => []
  | x :: l' => map (pair x) l' ++ combinations2 l'
  end.

(** [itertools.pairwise(l)] *)
Fixpoint pairwise (A : Type) (l : list A) : list (A * A) :=
  match l with
  | x :: (y :: _) as l' => (x, y) :: pairwise l'
  | _ => []
  end.

(** The tuples that [session_sort_key] returns: [(0, n)] and [(1, s)]. *)
Inductive sort_key : Type :=
| KeyNum (n : Z)
| KeyStr (s : string).

(** Python compares tuples lexicographically: the tags first, the payloads
    when the tags agree. *)
Definition key_ltb (a b : sort_key) : bool :=
  match a, b with
  | KeyNum n, KeyNum m => (n <? m)%Z
  | KeyNum _, KeyStr _ => true
  | KeyStr _, KeyNum _ => false
  | KeyStr s, KeyStr t => String.ltb s t
  end.

Definition key_leb (a b : sort_key) : bool := negb (key_ltb b a).

(** The pattern [ses-([0-9]+)] tried at the start of [s]: the group is the
    longest run of digits, which must not be empty. *)
Definition match_ses_here (s : string) : option string :=
  if PyStr.startswith "ses-" s then
    match fst (PyStr.span PyStr.is_digit (PyStr.drop 4 s)) with
    | EmptyString => None
    | d => Some d
    end
  else None.

(** [re.search(r"ses-([0-9]+)", s)]: the leftmost position that matches. *)
Fixpoint search_ses (s : string) : option string :=
  match match_ses_here s with
  | Some d => Some d
  | None =>
      match s with
      | EmptyString => None
      | String _ s' => search_ses s'
      end
  end.

(** [session_sort_key].  The group holds ASCII digits only, on which [int]
    is the decimal value, so the [ValueError] handler has nothing to
    catch: the interpreter's bound on the length of a digit string (4300
    digits by default) is far above the length of a file name, from which
    every session identifier is taken. *)
Definition session_sort_key (session : string) : sort_key :=
  match search_ses session with
  | Some d => KeyNum (PyStr.int_of d)
  | None => KeyStr session
  end.

Definition session_ltb (s t : string) : bool :=
  key_ltb (session_sort_key s) (session_sort_key t).

(** Line 160-161 of [process_subject]: all pairs of the sorted sessions. *)
Definition all_pairs (A : Type) (sessions : PyDict.dict A)
  : list (string * string) :=
  combinations2 (py_sorted String.ltb (PyDict.keys sessions)).

(** Lines 145-146 of [main]: the consecutive pairs of the sessions sorted
    by [session_sort_key]. *)
Definition consecutive_pairs (A : Type) (sessions : PyDict.dict A)
  : list (string * string) :=
  pairwise (py_sorted session_ltb (PyDict.keys sessions)).

(** ** Exceptions *)

Inductive exn : Type :=
| ValueError
| KeyError
| FileNotFoundError
| SystemExit (msg : string).

Inductive result (A : Type) : Type :=
| Ok (a : A)
| Raise (e : exn).

Arguments Ok {A} a.
Arguments Raise {A} e.

Definition bind (A B : Type) (c : result A) (k : A -> result B) : result B :=
  match c with
  | Ok a => k a
  | Raise e => Raise e
  end.

Notation "x <- c ;; k" := (bind c (fun x => k))
  (at level 61, c at next level, right associativity).

Fixpoint mapM (A B : Type) (f : A -> result B) (l : list A)
  : result (list B) :=
  match l with
  | [] => Ok []
  | x :: l' => y <- f x ;; ys <- mapM f l' ;; Ok (y :: ys)
  end.

(** ** Label volumes *)

(** A three-dimensional array: its shape and its element at each index.
    Only the elements inside the shape are ever read. *)
Record ndarray (A : Type) : Type := mk_ndarray {
  shape : nat * nat * nat;
  at_index : nat * nat * nat -> A
}.

(** The indices of an array in C order (last axis fastest). *)
Definition indices (sh : nat * nat * nat) : list (nat * nat * nat) :=
  let '(nx, ny, nz) := sh in
  flat_map
    (fun i => flat_map (fun j => map (fun k => (i, j, k)) (seq 0 nz))
                       (seq 0 ny))
    (seq 0 nx).

(** [a.ravel()]: the elements in C order. *)
Definition ravel (A : Type) (a : ndarray A) : list A :=
  map (at_index a) (indices (shape a)).

Definition shape_eqb (s t : nat * nat * nat) : bool :=
  let '(a, b, c) := s in
  let '(x, y, z) := t in
  (a =? x)%nat && (b =? y)%nat && (c =? z)%nat.

(** An array given by nested lists, [d] filling ragged rows. *)
Definition of_nested (A : Type) (d : A) (l : list (list (list A)))
  : ndarray A :=
  {| shape := (List.length l,
               List.length (hd [] l),
               List.length (hd [] (hd [] l)));
     at_index := fun '(i, j, k) => nth k (nth j (nth i l []) []) d |}.

(** [data == lbl] *)
Definition np_eq (a : ndarray Z) (lbl : Z) : ndarray bool :=
  {| shape := shape a; at_index := fun p => (at_index a p =? lbl)%Z |}.

(** [mask.sum()] and [np.sum(mask)]: the number of [True] elements. *)
Definition np_sum (m : ndarray bool) : Z :=
  Z.of_nat (List.length (filter (fun b => b) (ravel m))).

(** numpy broadcasts two axes when they agree or when one of them is 1. *)
Definition broadcast_dim (a b : nat) : option nat :=
  if (a =? b)%nat then Some a
  else if (a =? 1)%nat then Some b
  else if (b =? 1)%nat then Some a
  else None.

Definition broadcast_shape (s t : nat * nat * nat)
  : option (nat * nat * nat) :=
  let '(a, b, c) := s in
  let '(x, y, z) := t in
  match broadcast_dim a x, broadcast_dim b y, broadcast_dim c z with
  | Some nx, Some ny, Some nz => Some (nx, ny, nz)
  | _, _, _ => None
  end.

(** The index into an operand whose axis of extent 1 is stretched. *)
Definition stretch (sh : nat * nat * nat) (p : nat * nat * nat)
  : nat * nat * nat :=
  let '(nx, ny, nz) := sh in
  let '(i, j, k) := p in
  (if (nx =? 1)%nat then 0 else i,
   if (ny =? 1)%nat then 0 else j,
   if (nz =? 1)%nat then 0 else k)%nat.

(** [m1 & m2]: [ValueError] when the shapes cannot be broadcast. *)
Definition np_and (m1 m2 : ndarray bool) : result (ndarray bool) :=
  match broadcast_shape (shape m1) (shape m2) with
  | None => Raise ValueError
  | Some sh =>
      Ok {| shape := sh;
            at_index := fun p =>
              at_index m1 (stretch (shape m1) p)
              && at_index m2 (stretch (shape m2) p) |}
  end.

(** [np.unique]: the distinct values in increasing order. *)
Fixpoint insert_unique (x : Z) (l : list Z) : list Z :=
  match l with
  | [] => [x]
  | y :: l' =>
      if (x <? y)%Z then x :: l
      else if (x =? y)%Z then l
      else y :: insert_unique x l'
  end.

Definition np_unique (l : list Z) : list Z := fold_right insert_unique [] l.

(** [np.unique(np.concatenate([data1, data2]))]: joining along the first
    axis needs the other two axes to agree. *)
Definition unique_of_concatenate (d1 d2 : ndarray Z) : result (list Z) :=
  let '(_, ny1, nz1) := shape d1 in
  let '(_, ny2, nz2) := shape d2 in
  if (ny1 =? ny2)%nat && (nz1 =? nz2)%nat
  then Ok (np_unique (ravel d1 ++ ravel d2))
  else Raise ValueError.

(** What [nibabel.load] gives: the voxel data and the header's zooms. *)
Record image : Type := mk_image {
  get_fdata : ndarray Z;
  get_zooms : Q * Q * Q
}.

(** [np.prod(spacing)] *)
Definition np_prod (spacing : Q * Q * Q) : Q :=
  let '(sx, sy, sz) := spacing in sx * sy * sz.

(** A float that may be [nan]. *)
Inductive pyfloat : Type :=
| NaN
| Fin (q : Q).

(** ** Surface distances

    A distance is the square root of a non-negative rational, and is kept
    as that rational: the square root is increasing, so comparisons,
    minima and order statistics of distances are those of the squares. *)
Record dist : Type := Sqrt { sq : Q }.

Definition dist_ltb (a b : dist) : bool := negb (Qle_bool (sq b) (sq a)).

Definition dist_min (a b : dist) : dist := if dist_ltb b a then b else a.

Definition dist_max (a b : dist) : dist := if dist_ltb a b then b else a.

(** [d <= t] for a distance [d] and a float [t]. *)
Definition dist_le_float (d : dist) (t : Q) : bool :=
  Qle_bool 0 t && Qle_bool (sq d) (t * t).

(** [np.min] of a row of the distance matrix. *)
Definition np_min (l : list dist) : dist :=
  match l with
  | [] => Sqrt 0
  | d :: l' => fold_left dist_min l' d
  end.

Definition inside (sh : nat * nat * nat) (x y z : Z) : bool :=
  let '(nx, ny, nz) := sh in
  ((0 <=? x) && (x <? Z.of_nat nx)
   && (0 <=? y) && (y <? Z.of_nat ny)
   && (0 <=? z) && (z <? Z.of_nat nz))%Z.

(** The mask read at any integer position; outside the array it is the
    border value 0 of [binary_erosion]. *)
Definition mask_at (m : ndarray bool) (x y z : Z) : bool :=
  inside (shape m) x y z
  && at_index m (Z.to_nat x, Z.to_nat y, Z.to_nat z).

(** [ndimage.binary_erosion(mask)] with its defaults: one iteration of the
    structuring element of connectivity 1, the voxel and its six face
    neighbours. *)
Definition binary_erosion (m : ndarray bool) : ndarray bool :=
  {| shape := shape m;
     at_index := fun '(i, j, k) =>
       let x := Z.of_nat i in
       let y := Z.of_nat j in
       let z := Z.of_nat k in
       (mask_at m x y z
        && mask_at m (x - 1) y z && mask_at m (x + 1) y z
        && mask_at m x (y - 1) z && mask_at m x (y + 1) z
        && mask_at m x y (z - 1) && mask_at m x y (z + 1))%Z |}.

(** [a != b] on two boolean arrays of one shape. *)
Definition np_ne (a b : ndarray bool) : ndarray bool :=
  {| shape := shape a;
     at_index := fun p => xorb (at_index a p) (at_index b p) |}.

(** [np.array(np.where(m)).T]: the indices of the [True] elements. *)
Definition np_where (m : ndarray bool) : list (nat * nat * nat) :=
  filter (at_index m) (indices (shape m)).

(** [points * np.array(spacing)] *)
Definition scale (spacing : Q * Q * Q) (p : nat * nat * nat) : Q * Q * Q :=
  let '(sx, sy, sz) := spacing in
  let '(i, j, k) := p in
  (inject_Z (Z.of_nat i) * sx,
   inject_Z (Z.of_nat j) * sy,
   inject_Z (Z.of_nat k) * sz).

(** One entry of [distances_matrix]. *)
Definition distance (p q : Q * Q * Q) : dist :=
  let '(px, py, pz) := p in
  let '(qx, qy, qz) := q in
  Sqrt ((px - qx) * (px - qx) + (py - qy) * (py - qy)
        + (pz - qz) * (pz - qz)).

Record surface_distances : Type := mk_surface_distances {
  distances_gt_to_pred : list dist;
  distances_pred_to_gt : list dist;
  surfel_areas_gt : list Q;
  surfel_areas_pred : list Q
}.

(** [compute_surface_distances] (lines 48-81). *)
Definition compute_surface_distances (mask_gt mask_pred : ndarray bool)
    (spacing : Q * Q * Q) : option surface_distances :=
  let surface_gt := np_ne (binary_erosion mask_gt) mask_gt in
  let surface_pred := np_ne (binary_erosion mask_pred) mask_pred in
  let gt_points := np_where surface_gt in
  let pred_points := np_where surface_pred in
  match gt_points, pred_points with
  | [], _ | _, [] => None
  | _, _ =>
      let gt_points := map (scale spacing) gt_points in
      let pred_points := map (scale spacing) pred_points in
      let gt_to_pred :=
        map (fun g => np_min (map (fun p => distance g p) pred_points))
            gt_points in
      let pred_to_gt :=
        map (fun p => np_min (map (fun g => distance g p) gt_points))
            pred_points in
      Some {| distances_gt_to_pred := gt_to_pred;
              distances_pred_to_gt := pred_to_gt;
              surfel_areas_gt := repeat 1 (List.length gt_to_pred);
              surfel_areas_pred := repeat 1 (List.length pred_to_gt) |}
  end.

(** [np.sum] of a list of floats. *)
Definition sumQ (l : list Q) : Q := fold_right Qplus 0 l.

(** [np.sum(areas[distances <= tolerance_mm])] *)
Definition overlap (areas : list Q) (distances : list dist) (tolerance_mm : Q)
  : Q :=
  sumQ (map fst
          (filter (fun ad => dist_le_float (snd ad) tolerance_mm)
                  (combine areas distances))).

(** [compute_surface_dice] (lines 83-97). *)
Definition compute_surface_dice (sd : option surface_distances)
    (tolerance_mm : Q) : Q :=
  match sd with
  | None => 0
  | Some sd =>
      let overlap_gt :=
        overlap (surfel_areas_gt sd) (distances_gt_to_pred sd) tolerance_mm in
      let overlap_pred :=
        overlap (surfel_areas_pred sd) (distances_pred_to_gt sd) tolerance_mm in
      (overlap_gt + overlap_pred)
      / (sumQ (surfel_areas_gt sd) + sumQ (surfel_areas_pred sd))
  end.

(** The package [surface_distance], which both tools import as
    [surfdist], is not among the sources.  Section 4.4 of the
    specification describes its three functions on voxel surfaces:
    surface voxels by erosion, minimal Euclidean distances in scaled
    coordinates, unit area per surface voxel, a zero sentinel when a mask
    has no surface voxel, and the 95th percentile of the distances. *)
Module surfdist.

(** Modelled from the spec: [surfdist.compute_surface_distances], absent
    from the sources, as the surface extraction and the surface distances
    of section 4.4, which the repository's own
    [compute_surface_distances] computes. *)
Definition compute_surface_distances := compute_surface_distances.

(** Modelled from the spec: [surfdist.compute_surface_dice_at_tolerance],
    absent from the sources, as the surface Dice of section 4.4 with unit
    areas and the sentinel 0, which the repository's own
    [compute_surface_dice] computes. *)
Definition compute_surface_dice_at_tolerance := compute_surface_dice.

(** Modelled from the spec: the rank of the [percent]-th percentile among
    [n] values in increasing order (nearest rank); the specification says
    no more than "the 95th percentile". *)
Definition percentile_rank (percent n : nat) : nat :=
  Nat.min (n - 1) ((percent * n + 99) / 100 - 1).

(** Modelled from the spec: the percentile of a list of distances. *)
Definition percentile (percent : nat) (l : list dist) : dist :=
  nth (percentile_rank percent (List.length l)) (py_sorted dist_ltb l)
      (Sqrt 0).

(** Modelled from the spec: [surfdist.compute_robust_hausdorff], absent
    from the sources, as the robust Hausdorff distance of section 4.4:
    the larger of the percentiles of the two directed distance lists, and
    the sentinel 0 when a mask has no surface voxel. *)
Definition compute_robust_hausdorff (sd : option surface_distances)
    (percent : nat) : dist :=
  match sd with
  | None => Sqrt 0
  | Some sd =>
      dist_max (percentile percent (distances_gt_to_pred sd))
               (percentile percent (distances_pred_to_gt sd))
  end.

End surfdist.

(** ** Per-label metrics *)

Record MetricRow : Type := mk_row {
  subject : option string;
  session1 : option string;
  session2 : option string;
  label : Z;
  label_name : option string;
  structure : option string;
  region_category : option string;
  volume1 : Q;
  volume2 : Q;
  volume_diff : Q;
  dice : pyfloat;
  surface_dice : Q;
  hd95 : dist
}.

(** [compute_dice_coefficient] (lines 99-105). *)
Definition compute_dice_coefficient (mask_gt mask_pred : ndarray bool)
  : result pyfloat :=
  let volume_sum := (np_sum mask_gt + np_sum mask_pred)%Z in
  if (volume_sum =? 0)%Z then Ok NaN
  else
    both <- np_and mask_gt mask_pred ;;
    let volume_intersect := np_sum both in
    Ok (Fin (inject_Z (2 * volume_intersect) / inject_Z volume_sum)).

(** The file system as [nibabel.load] sees it. *)
Definition disk : Type := path -> option image.

Definition load (fs : disk) (p : path) : result image :=
  match fs p with
  | Some img => Ok img
  | None => Raise FileNotFoundError
  end.

(** [d[k]] *)
Definition subscript (V : Type) (d : PyDict.dict V) (k : string) : result V :=
  match PyDict.get d k with
  | Some v => Ok v
  | None => Raise KeyError
  end.

(** The body of the loop of [process_session_pair] (lines 125-154). *)
Definition session_pair_row (data1 data2 : ndarray Z) (spacing : Q * Q * Q)
    (ses1 ses2 : string) (lbl : Z) : result MetricRow :=
  let mask1 := np_eq data1 lbl in
  let mask2 := np_eq data2 lbl in
  let vol1 := inject_Z (np_sum mask1) * np_prod spacing in
  let vol2 := inject_Z (np_sum mask2) * np_prod spacing in
  let vol_diff := vol2 - vol1 in
  d <- compute_dice_coefficient mask1 mask2 ;;
  let surface_distances :=
    surfdist.compute_surface_distances mask1 mask2 spacing in
  let sdice :=
    surfdist.compute_surface_dice_at_tolerance surface_distances 1 in
  let hd := surfdist.compute_robust_hausdorff surface_distances 95 in
  Ok {| subject := None;
        session1 := Some ses1;
        session2 := Some ses2;
        label := lbl;
        label_name := None;
        structure := None;
        region_category := None;
        volume1 := vol1;
        volume2 := vol2;
        volume_diff := vol_diff;
        dice := d;
        surface_dice := sdice;
        hd95 := hd |}.

(** [process_session_pair] (lines 107-156). *)
Definition process_session_pair (fs : disk) (sessions_data : PyDict.dict path)
    (ses1 ses2 : string) : result (list MetricRow) :=
  p1 <- subscript sessions_data ses1 ;;
  img1 <- load fs p1 ;;
  p2 <- subscript sessions_data ses2 ;;
  img2 <- load fs p2 ;;
  let data1 := get_fdata img1 in
  let data2 := get_fdata img2 in
  let spacing := get_zooms img1 in
  unique_labels <- unique_of_concatenate data1 data2 ;;
  let unique_labels := filter (fun l => negb (l =? 0)%Z) unique_labels in
  mapM (session_pair_row data1 data2 spacing ses1 ses2) unique_labels.

(** The value of the key ["dice"] in [compute_metrics] (line 123). *)
Definition consecutive_dice (m1 m2 : ndarray bool) : result pyfloat :=
  if negb (np_sum m1 + np_sum m2 =? 0)%Z then
    both <- np_and m1 m2 ;;
    Ok (Fin (inject_Z (2 * np_sum both) / inject_Z (np_sum m1 + np_sum m2)))
  else Ok NaN.

(** The body of the loop of [compute_metrics] (lines 113-126). *)
Definition consecutive_row (d1 d2 : ndarray Z) (spacing : Q * Q * Q) (lbl : Z)
  : result MetricRow :=
  let m1 := np_eq d1 lbl in
  let m2 := np_eq d2 lbl in
  let vol1 := inject_Z (np_sum m1) * np_prod spacing in
  let vol2 := inject_Z (np_sum m2) * np_prod spacing in
  let sd := surfdist.compute_surface_distances m1 m2 spacing in
  d <- consecutive_dice m1 m2 ;;
  Ok {| subject := None;
        session1 := None;
        session2 := None;
        label := lbl;
        label_name := None;
        structure := None;
        region_category := None;
        volume1 := vol1;
        volume2 := vol2;
        volume_diff := vol2 - vol1;
        dice := d;
        surface_dice := surfdist.compute_surface_dice_at_tolerance sd 1;
        hd95 := surfdist.compute_robust_hausdorff sd 95 |}.

(** [compute_metrics] (lines 105-127): [None] skips a pair of volumes of
    different shapes. *)
Definition compute_metrics (fs : disk) (path1 path2 : path) (labels : list Z)
  : result (option (list MetricRow)) :=
  img1 <- load fs path1 ;;
  img2 <- load fs path2 ;;
  let d1 := get_fdata img1 in
  let d2 := get_fdata img2 in
  if negb (shape_eqb (shape d1) (shape d2)) then Ok None
  else
    let spacing := get_zooms img1 in
    rows <- mapM (consecutive_row d1 d2 spacing) labels ;;
    Ok (Some rows).

(** ** Incremental result writer *)

(** The lines of the CSV file. *)
Inductive csv_line : Type :=
| Header (columns : list string)
| Data (row : MetricRow).

(** The columns of [pd.DataFrame(rows)]: the keys of the row dicts of
    [process_session_pair], and [subject], which [process_subject] adds. *)
Definition columns_of_rows : list string :=
  ["session1"; "session2"; "label"; "volume1"; "volume2"; "volume_diff";
   "dice"; "surface_dice"; "hd95"; "subject"]%string.

(** The destination ([None] while the file does not exist) and the flag
    that the closure [writer] shares with its caller. *)
Record writer_state : Type := mk_writer {
  destination : option (list csv_line);
  header_written : bool
}.

(** Line 218: [header_written = results_path.exists()]. *)
Definition open_writer (file : option (list csv_line)) : writer_state :=
  {| destination := file;
     header_written := match file with Some _ => true | None => false end |}.

(** [df.to_csv(path, mode="a", header=h, index=False)] *)
Definition to_csv_append (file : option (list csv_line)) (h : bool)
    (rows : list MetricRow) : option (list csv_line) :=
  let old := match file with Some l => l | None => [] end in
  Some (old ++ (if h then [Header columns_of_rows] else []) ++ map Data rows).

(** [writer] (lines 220-226). *)
Definition writer (st : writer_state) (rows : list MetricRow)
  : writer_state :=
  match rows with
  | [] => st
  | _ :: _ =>
      {| destination :=
           to_csv_append (destination st) (negb (header_written st)) rows;
         header_written := true |}
  end.

(** ** Chunked processing of one subject *)

Record loop_state : Type := mk_loop {
  buffer : list MetricRow;
  out : writer_state
}.

(** How a loop ends: normally, or with an exception that leaves the loop
    in the state it had reached. *)
Inductive outcome : Type :=
| Done (st : loop_state)
| Aborted (e : exn) (st : loop_state).

(** [result['subject'] = subject] *)
Definition set_subject (subj : string) (r : MetricRow) : MetricRow :=
  {| subject := Some subj;
     session1 := session1 r;
     session2 := session2 r;
     label := label r;
     label_name := label_name r;
     structure := structure r;
     region_category := region_category r;
     volume1 := volume1 r;
     volume2 := volume2 r;
     volume_diff := volume_diff r;
     dice := dice r;
     surface_dice := surface_dice r;
     hd95 := hd95 r |}.

(** Lines 167-169: [buffer.extend(session_results)]. *)
Definition extend_buffer (subj : string) (st : loop_state)
    (session_results : list MetricRow) : loop_state :=
  {| buffer := buffer st ++ map (set_subject subj) session_results;
     out := out st |}.

(** Lines 171-174: flush when the buffer has reached the chunk size. *)
Definition flush_if_full (chunk_size : Z) (st : loop_state) : loop_state :=
  if (chunk_size <=? Z.of_nat (List.length (buffer st)))%Z then
    {| buffer := []; out := writer (out st) (buffer st) |}
  else st.

(** Lines 176-178: the last, possibly short, chunk. *)
Definition flush_rest (st : loop_state) : loop_state :=
  match buffer st with
  | [] => st
  | _ :: _ => {| buffer := buffer st; out := writer (out st) (buffer st) |}
  end.

(** The loop of [process_subject] (lines 165-174). *)
Fixpoint process_pairs (fs : disk) (subj : string)
    (sessions : PyDict.dict path) (chunk_size : Z)
    (session_pairs : list (string * string)) (st : loop_state) : outcome :=
  match session_pairs with
  | [] => Done st
  | (ses1, ses2) :: rest =>
      match process_session_pair fs sessions ses1 ses2 with
      | Raise e => Aborted e st
      | Ok session_results =>
          process_pairs fs subj sessions chunk_size rest
            (flush_if_full chunk_size (extend_buffer subj st session_results))
      end
  end.

(** [process_subject] (lines 158-178), from the state [w] of the writer. *)
Definition process_subject (fs : disk) (subj : string)
    (sessions : PyDict.dict path) (w : writer_state) (chunk_size : Z)
  : outcome :=
  match process_pairs fs subj sessions chunk_size (all_pairs sessions)
          {| buffer := []; out := w |} with
  | Done st => Done (flush_rest st)
  | Aborted e st => Aborted e st
  end.

(** Lines 228-231: the subjects one after the other; an exception ends
    the run. *)
Fixpoint process_subjects (fs : disk)
    (subject_files : PyDict.dict (PyDict.dict path)) (chunk_size : Z)
    (w : writer_state) : result writer_state * writer_state :=
  match subject_files with
  | [] => (Ok w, w)
  | (subj, sessions) :: rest =>
      match sessions with
      | [] => process_subjects fs rest chunk_size w
      | _ :: _ =>
          match process_subject fs subj sessions w chunk_size with
          | Done st => process_subjects fs rest chunk_size (out st)
          | Aborted e st => (Raise e, out st)
          end
      end
  end.

(** ** The consecutive tool *)

(** One line of the optional look-up table. *)
Record label_meta : Type := mk_meta {
  meta_label_name : option string;
  meta_structure : option string;
  meta_region_category : option string
}.

Definition lut_get (lut : list (Z * label_meta)) (lbl : Z) : label_meta :=
  match find (fun e => (fst e =? lbl)%Z) (rev lut) with
  | Some e => snd e
  | None => mk_meta None None None
  end.

(** Lines 152-156: the identity and the metadata of a row. *)
Definition annotate (lut : list (Z * label_meta)) (subj s1 s2 : string)
    (r : MetricRow) : MetricRow :=
  let meta := lut_get lut (label r) in
  {| subject := Some subj;
     session1 := Some s1;
     session2 := Some s2;
     label := label r;
     label_name := meta_label_name meta;
     structure := meta_structure meta;
     region_category := meta_region_category meta;
     volume1 := volume1 r;
     volume2 := volume2 r;
     volume_diff := volume_diff r;
     dice := dice r;
     surface_dice := surface_dice r;
     hd95 := hd95 r |}.

(** What [main] has produced so far: the rows, and the pairs for which it
    printed [Skipping s1 vs s2 (shape mismatch)]. *)
Record main_state : Type := mk_main {
  rows : list MetricRow;
  skipped : list (string * string)
}.

(** The inner loop of [main] (lines 146-157). *)
Fixpoint consecutive_loop (fs : disk) (lut : list (Z * label_meta))
    (labels : list Z) (subj : string) (sessions : PyDict.dict path)
    (pairs : list (string * string)) (st : main_state) : result main_state :=
  match pairs with
  | [] => Ok st
  | (s1, s2) :: rest =>
      p1 <- subscript sessions s1 ;;
      p2 <- subscript sessions s2 ;;
      res <- compute_metrics fs p1 p2 labels ;;
      match res with
      | None =>
          consecutive_loop fs lut labels subj sessions rest
            {| rows := rows st; skipped := skipped st ++ [(s1, s2)] |}
      | Some rs =>
          consecutive_loop fs lut labels subj sessions rest
            {| rows := rows st ++ map (annotate lut subj s1 s2) rs;
               skipped := skipped st |}
      end
  end.

(** The outer loop of [main] (lines 144-158). *)
Fixpoint consecutive_subjects (fs : disk) (lut : list (Z * label_meta))
    (labels : list Z) (by_subj : PyDict.dict (PyDict.dict path))
    (st : main_state) : result main_state :=
  match by_subj with
  | [] => Ok st
  | (subj, sessions) :: rest =>
      st' <- consecutive_loop fs lut labels subj sessions
               (consecutive_pairs sessions) st ;;
      consecutive_subjects fs lut labels rest st'
  end.


(** ** Observations used in the statements *)

Definition is_header (l : csv_line) : bool :=
  match l with
  | Header _ => true
  | Data _ => false
  end.

(** The number of header lines of a file. *)
Definition header_lines (f : list csv_line) : nat :=
  List.length (filter is_header f).

(** The data rows of a file, in order. *)
Definition data_rows (f : list csv_line) : list MetricRow :=
  flat_map (fun l => match l with Data r => [r] | Header _ => [] end) f.

Definition lines_of (file : option (list csv_line)) : list csv_line :=
  match file with
  | Some l => l
  | None => []
  end.

(** The writer called on one batch after the other. *)
Definition write_all (st : writer_state) (batches : list (list MetricRow))
  : writer_state :=
  fold_left writer batches st.

(** The first and the last element of a list that satisfy a test. *)
Definition first_such (A : Type) (p : A -> bool) (l : list A) : option A :=
  find p l.

Definition last_such (A : Type) (p : A -> bool) (l : list A) : option A :=
  find p (rev l).

(** The file [f] is indexed by [calculate_session_metrics] under the
    subject [subj] and the session [sess]. *)
Definition indexed_as (subjects : option (list string)) (subj sess : string)
    (f : path) : bool :=
  let (s, e) := parse_subject_session (name (parent (parent f))) in
  negb (filtered_out subjects s) && String.eqb subj s && String.eqb sess e.

(** The record [seg] of [find_segmentations] is one of the subject [subj]
    and the session [sess]. *)
Definition found_as (subj sess : string) (seg : string * string * path)
  : bool :=
  let '(s, e, _) := seg in String.eqb subj s && String.eqb sess e.

(** The two sessions are compared, in one order or the other. *)
Definition evaluates (pairs : list (string * string)) (s t : string) : bool :=
  existsb
    (fun p =>
       (String.eqb (fst p) s && String.eqb (snd p) t)
       || (String.eqb (fst p) t && String.eqb (snd p) s))
    pairs.

(** A numeric token: a non-empty run of digits that follows [ses-]
    somewhere in the identifier. *)
Fixpoint all_digits (d : string) : bool :=
  match d with
  | EmptyString => true
  | String c d' => PyStr.is_digit c && all_digits d'
  end.

Definition starts_with_digit (s : string) : bool :=
  match s with
  | EmptyString => false
  | String c _ => PyStr.is_digit c
  end.

Definition has_numeric_token (s : string) : Prop :=
  exists pre d post,
    s = (pre ++ "ses-" ++ d ++ post)%string
    /\ d <> EmptyString /\ all_digits d = true.

(** The number of voxels of a mask, and of the intersection of two masks
    on one grid. *)
Definition card (m : ndarray bool) : Z :=
  Z.of_nat (List.length (filter (at_index m) (indices (shape m)))).

Definition card_inter (m1 m2 : ndarray bool) : Z :=
  Z.of_nat
    (List.length
       (filter (fun p => at_index m1 p && at_index m2 p)
               (indices (shape m1)))).

(** A row that reports complete agreement of the two volumes. *)
Definition perfect_agreement (r : MetricRow) : Prop :=
  (exists q, dice r = Fin q /\ q == 1)
  /\ surface_dice r == 1
  /\ sq (hd95 r) == 0
  /\ volume_diff r == 0
  /\ volume1 r = volume2 r.

(** The buffer of [process_subject] holds fewer rows than the chunk size
    (no row when the chunk size is not positive). *)
Definition below_chunk (chunk_size : Z) (st : loop_state) : Prop :=
  (Z.of_nat (List.length (buffer st)) <= Z.max 0 (chunk_size - 1))%Z.

(** ** Concrete inputs *)

Definition aparc_path (run_dir : string) : path :=
  ["/"; "fs"; run_dir; "mri"; "aparc.DKTatlas+aseg.mgz"]%string.

(** A tree of three sessions whose files hold the images [a], [b], [c]. *)
Definition three_sessions : PyDict.dict path :=
  [("ses-1", aparc_path "ses-1"); ("ses-2", aparc_path "ses-2");
   ("ses-3", aparc_path "ses-3")]%string.

Definition disk_of (a b c : image) : disk :=
  fun p =>
    if path_eqb p (aparc_path "ses-1") then Some a
    else if path_eqb p (aparc_path "ses-2") then Some b
    else if path_eqb p (aparc_path "ses-3") then Some c
    else None.

(** A volume of 10 x 10 x 10 voxels of 1 mm whose voxels [2:5, 2:5, 2:5]
    have the label 17. *)
Definition cube_volume : ndarray Z :=
  {| shape := (10, 10, 10)%nat;
     at_index := fun '(i, j, k) =>
       if ((2 <=? i) && (i <? 5) && (2 <=? j) && (j <? 5)
           && (2 <=? k) && (k <? 5))%nat
       then 17%Z else 0%Z |}.

Definition cube_image : image := mk_image cube_volume (1, 1, 1).

(** Two volumes of different shapes, 1 x 1 x 2 and 1 x 1 x 3. *)
Definition short_image : image :=
  mk_image (of_nested 0%Z [[[17; 17]]]%Z) (1, 1, 1).

Definition long_image : image :=
  mk_image (of_nested 0%Z [[[17; 17; 0]]]%Z) (1, 1, 1).

(** A volume of six voxels with six labels. *)
Definition six_labels_image : image :=
  mk_image (of_nested 0%Z [[[1; 2; 3; 4; 5; 6]]]%Z) (1, 1, 1).

(** The rows of the first pair of sessions when every file holds the
    volume of six labels. *)
Definition six_rows : list MetricRow :=
  match process_session_pair
          (disk_of six_labels_image six_labels_image six_labels_image)
          three_sessions "ses-1" "ses-2" with
  | Ok session_results => session_results
  | Raise _ => []
  end.

(** ** The rest of the two tools *)

(** Lines 195-202 of [calculate_session_metrics]: the files named
    [FREESURFER_APARC_FILE] among those that [os.walk] yields, only the
    longitudinal ones under [--long-only]. *)
Definition collect_in_dir (long_only : bool) (dir : path * list string)
  : list path :=
  let (root_dir, files) := dir in
  flat_map
    (fun file =>
       if String.eqb file FREESURFER_APARC_FILE then
         let full := join root_dir file in
         if long_only && negb (is_long_path full) then [] else [full]
       else [])
    files.

Definition collect_dkt_files (walk : list (path * list string))
    (long_only : bool) : list path :=
  flat_map (collect_in_dir long_only) walk.

(** [calculate_session_metrics] (lines 180-236) from the walk of the tree,
    the parsed arguments, the images on disk and the output file as the run
    finds it: how the run ends, and the writer as it leaves it. *)
Definition calculate_session_metrics (walk : list (path * list string))
    (long_only : bool) (subjects : option (list string)) (chunk_size : Z)
    (fs : disk) (file : option (list csv_line))
  : result writer_state * writer_state :=
  let dkt_files := collect_dkt_files walk long_only in
  let subject_files := index_files subjects dkt_files in
  process_subjects fs subject_files chunk_size (open_writer file).

(** [main] of the consecutive tool (lines 130-169): the rows of the table
    it saves. *)
Definition main (freesurfer_dir : string) (walk : list (path * list string))
    (aparc_names : list string) (subjects : option (list string))
    (labels : list Z) (lut : list (Z * label_meta)) (fs : disk)
  : result (list MetricRow) :=
  if String.eqb freesurfer_dir EmptyString then
    Raise (SystemExit "Specify --freesurfer-dir or set FREESURFER_DIR")
  else
    match find_segmentations walk aparc_names subjects with
    | [] => Raise (SystemExit "No segmentation files found")
    | (_ :: _) as segs =>
        st <- consecutive_subjects fs lut labels (group_by_subject segs)
                {| rows := []; skipped := [] |} ;;
        match rows st with
        | [] => Raise (SystemExit "No rows computed")
        | (_ :: _) as rs => Ok rs
        end
    end.

(** ** More observations *)

(** Every character of a string passes a test. *)
Fixpoint all_chars (p : ascii -> bool) (s : string) : bool :=
  match s with
  | EmptyString => true
  | String c s' => p c && all_chars p s'
  end.

(** The data rows that a writer has put into its file. *)
Definition written (w : writer_state) : list MetricRow :=
  data_rows (lines_of (destination w)).

(** The flag of the writer says whether its file exists. *)
Definition flag_matches_file (w : writer_state) : Prop :=
  header_written w
  = match destination w with Some _ => true | None => false end.

(** The subjects of an index are distinct and each has a session; the
    sessions of a subject are distinct. *)
Definition well_formed_index (V : Type) (d : PyDict.dict (PyDict.dict V))
  : Prop :=
  NoDup (PyDict.keys d)
  /\ Forall (fun e => snd e <> [] /\ NoDup (PyDict.keys (snd e))) d.

(** [process_session_pair] on a pair of session names. *)
Definition pair_rows (fs : disk) (sessions : PyDict.dict path)
    (p : string * string) : result (list MetricRow) :=
  process_session_pair fs sessions (fst p) (snd p).

(** The output file of a run that found the file [file] and has written
    the rows [rs]: the old lines and the rows, behind a header when the
    run created the file; no file when there was none and no row came. *)
Definition run_file (file : option (list csv_line)) (rs : list MetricRow)
  : option (list csv_line) :=
  match file, rs with
  | Some old, _ => Some (old ++ map Data rs)
  | None, [] => None
  | None, _ :: _ => Some (Header columns_of_rows :: map Data rs)
  end.

(** The writer of a run that found the file [file]. *)
Definition file_of_run (file : option (list csv_line)) (w : writer_state)
  : Prop :=
  flag_matches_file w /\ exists rs, destination w = run_file file rs.

(** What one row of [compute_metrics] holds. *)
Definition consecutive_row_holds (d1 d2 : ndarray Z) (spacing : Q * Q * Q)
    (r : MetricRow) : Prop :=
  volume1 r = inject_Z (card (np_eq d1 (label r))) * np_prod spacing
  /\ volume2 r = inject_Z (card (np_eq d2 (label r))) * np_prod spacing
  /\ volume_diff r = volume2 r - volume1 r
  /\ (dice r = NaN
      <-> ~ In (label r) (ravel d1) /\ ~ In (label r) (ravel d2)).

(** A row of the table of the consecutive tool: it names a subject of the
    index, one of the subject's consecutive pairs and a requested label. *)
Definition row_of_run (by_subj : PyDict.dict (PyDict.dict path))
    (labels : list Z) (r : MetricRow) : Prop :=
  exists subj sessions s1 s2,
    In (subj, sessions) by_subj
    /\ In (s1, s2) (consecutive_pairs sessions)
    /\ subject r = Some subj
    /\ session1 r = Some s1 /\ session2 r = Some s2
    /\ In (label r) labels.

(** The two volumes of the pair load and have different shapes. *)
Definition shapes_differ (fs : disk) (sessions : PyDict.dict path)
    (p : string * string) : Prop :=
  exists path1 path2 img1 img2,
    PyDict.get sessions (fst p) = Some path1
    /\ PyDict.get sessions (snd p) = Some path2
    /\ fs path1 = Some img1 /\ fs path2 = Some img2
    /\ shape (get_fdata img1) <> shape (get_fdata img2).

(** All rows of a subject of the all-pairs tool, pair after pair. *)
Definition subject_rows (fs : disk) (e : string * PyDict.dict path)
  : result (list MetricRow) :=
  rowss <- mapM (pair_rows fs (snd e)) (all_pairs (snd e)) ;;
  Ok (map (set_subject (fst e)) (List.concat rowss)).

(* ====================================================================== *)
(** * Part II.  Properties                                                *)
(* ====================================================================== *)

Unset Implicit Arguments.

(** ** The incremental writer *)

Section Writer.

Lemma header_lines_app : forall f g,
  header_lines (f ++ g) = (header_lines f + header_lines g)%nat.
Proof.
  intros f g. unfold header_lines.
  now rewrite filter_app, length_app.
Qed.

Lemma header_lines_data : forall rs, header_lines (map Data rs) = 0%nat.
Proof.
  induction rs as [|r rs IH]; [reflexivity|exact IH].
Qed.

Lemma data_rows_app : forall f g, data_rows (f ++ g) = data_rows f ++ data_rows g.
Proof.
  intros f g. unfold data_rows. apply flat_map_app.
Qed.

Lemma data_rows_data : forall rs, data_rows (map Data rs) = rs.
Proof.
  induction rs as [|r rs IH]; [reflexivity|].
  simpl. f_equal. exact IH.
Qed.

(** A run of appends is one append of all the rows: the flag is read by
    the first batch that has a row, and is set from then on. *)
Lemma write_all_concat : forall batches st,
  write_all st batches =
    match List.concat batches with
    | [] => st
    | (_ :: _) as rs =>
        {| destination :=
             to_csv_append (destination st) (negb (header_written st)) rs;
           header_written := true |}
    end.
Proof.
  induction batches as [|b batches IH]; intros st; [reflexivity|].
  unfold write_all in *. simpl fold_left. rewrite IH. clear IH.
  destruct b as [|r b]; [reflexivity|].
  cbn [List.concat]. simpl writer.
  destruct (List.concat batches) as [|r' rs'] eqn:E.
  - now rewrite app_nil_r.
  - cbn [destination header_written negb]. f_equal.
    unfold to_csv_append. f_equal.
    destruct (destination st) as [old|];
      destruct (negb (header_written st)); cbn [app];
      rewrite ?map_app, <- ?app_assoc; cbn [map app]; try reflexivity;
      now rewrite ?map_app.
Qed.

End Writer.

(** C2.  Over a destination that does not exist when the run starts, the
    appended batches leave no file when none of them has a row, and
    otherwise a file that is one header line followed by the rows of all
    batches in order: the header is written by the first batch that has a
    row, and an append made once the flag is set adds data lines only.
    Three chunks of 2, 2 and 1 rows give one header line and the five
    rows.  A run that finds the file in place appends data lines only and
    leaves the number of header lines as it was. *)
Theorem writer_header_exactly_once :
  (forall batches,
      destination (write_all (open_writer None) batches) =
        match List.concat batches with
        | [] => None
        | (_ :: _) as rs => Some (Header columns_of_rows :: map Data rs)
        end)
  /\ (forall file r rows,
         destination (writer (open_writer None) (r :: rows))
           = Some (Header columns_of_rows :: map Data (r :: rows))
         /\ destination (writer (mk_writer file true) (r :: rows))
           = Some (lines_of file ++ map Data (r :: rows))
         /\ header_written (writer (mk_writer file false) (r :: rows)) = true)
  /\ (forall r1 r2 r3 r4 r5,
         let file :=
           lines_of (destination
                       (write_all (open_writer None)
                          [[r1; r2]; [r3; r4]; [r5]])) in
         header_lines file = 1%nat
         /\ data_rows file = [r1; r2; r3; r4; r5])
  /\ (forall old batches,
         let file :=
           lines_of (destination (write_all (open_writer (Some old)) batches)) in
         file = old ++ map Data (List.concat batches)
         /\ header_lines file = header_lines old).
Proof.
  split; [|split; [|split]].
  - intros batches. rewrite write_all_concat.
    destruct (List.concat batches); reflexivity.
  - intros file r rows. cbn. destruct file; repeat split.
  - intros r1 r2 r3 r4 r5. cbn. split; reflexivity.
  - intros old batches file.
    assert (E : file = old ++ map Data (List.concat batches)).
    { unfold file. rewrite write_all_concat.
      destruct (List.concat batches) as [|r rs]; cbn.
      - now rewrite app_nil_r.
      - reflexivity. }
    split; [exact E|].
    rewrite E, header_lines_app, header_lines_data. apply Nat.add_0_r.
Qed.

(** C10.  A call of the writer with no rows returns before it touches the
    file or the flag, so the call after it behaves as if the empty call
    had not been made: in particular it still writes the header of a
    fresh file. *)
Theorem writer_empty_batch_is_noop :
  forall st,
    writer st [] = st
    /\ destination (writer st []) = destination st
    /\ header_written (writer st []) = header_written st
    /\ (forall rows, writer (writer st []) rows = writer st rows)
    /\ (forall r rows,
           destination (write_all (open_writer None) [[]; r :: rows])
           = Some (Header columns_of_rows :: map Data (r :: rows))).
Proof.
  intros st. repeat split.
Qed.

(** ** The segmentation index *)

Lemma dict_get_set : forall (V : Type) (d : PyDict.dict V) k v k',
  PyDict.get (PyDict.set d k v) k'
  = if String.eqb k' k then Some v else PyDict.get d k'.
Proof.
  intros V d. induction d as [|[k0 v0] d IH]; intros k v k'; simpl.
  - reflexivity.
  - destruct (String.eqb_spec k k0) as [->|Hk]; simpl.
    + destruct (String.eqb k' k0); reflexivity.
    + rewrite IH. destruct (String.eqb_spec k' k0) as [->|Hk'].
      * destruct (String.eqb_spec k0 k); [congruence|reflexivity].
      * reflexivity.
Qed.

Lemma dict_get2_set2 :
  forall (V : Type) (d : PyDict.dict (PyDict.dict V)) k k2 v k' k2',
  PyDict.get2 (PyDict.set2 d k k2 v) k' k2'
  = if String.eqb k' k && String.eqb k2' k2 then Some v
    else PyDict.get2 d k' k2'.
Proof.
  intros V d k k2 v k' k2'. unfold PyDict.get2, PyDict.set2.
  destruct (PyDict.get d k) as [inner|] eqn:E; rewrite dict_get_set;
    destruct (String.eqb_spec k' k) as [->|Hk]; cbn [andb];
    try reflexivity; rewrite dict_get_set, E;
    destruct (String.eqb k2' k2); reflexivity.
Qed.

Lemma index_files_snoc : forall subjects files f,
  index_files subjects (files ++ [f])
  = index_step subjects (index_files subjects files) f.
Proof.
  intros. unfold index_files. now rewrite fold_left_app.
Qed.

Lemma index_files_last : forall subjects files subj sess,
  PyDict.get2 (index_files subjects files) subj sess
  = last_such (indexed_as subjects subj sess) files.
Proof.
  intros subjects files subj sess. unfold last_such.
  induction files as [|f files IH] using rev_ind; [reflexivity|].
  rewrite index_files_snoc, rev_app_distr. simpl rev. simpl app.
  cbn [find]. rewrite <- IH. clear IH.
  unfold index_step, indexed_as.
  destruct (parse_subject_session (name (parent (parent f)))) as [s e].
  destruct (filtered_out subjects s); simpl; [reflexivity|].
  now rewrite dict_get2_set2.
Qed.

Lemma group_by_subject_last : forall segs subj sess,
  PyDict.get2 (group_by_subject segs) subj sess
  = option_map snd (last_such (found_as subj sess) segs).
Proof.
  intros segs subj sess. unfold last_such, group_by_subject.
  induction segs as [|[[s e] f] segs IH] using rev_ind; [reflexivity|].
  rewrite fold_left_app, rev_app_distr. simpl rev. simpl app.
  cbn [find fold_left found_as]. rewrite dict_get2_set2, IH.
  destruct (String.eqb subj s && String.eqb sess e); reflexivity.
Qed.

(** C1 (as the code has it).  In both tools the entry of a subject and a
    session is the file discovered last among those that resolve to the
    pair: each later file replaces the earlier one. *)
Theorem index_keeps_last_discovered :
  (forall subjects dkt_files subj sess,
      PyDict.get2 (index_files subjects dkt_files) subj sess
      = last_such (indexed_as subjects subj sess) dkt_files)
  /\ (forall segs subj sess,
         PyDict.get2 (group_by_subject segs) subj sess
         = option_map snd (last_such (found_as subj sess) segs)).
Proof.
  split; [apply index_files_last | apply group_by_subject_last].
Qed.

(** C1, the claim as stated fails: two files of the run directory
    [sub-01_ses-A], found under [/fs] and then under [/fs/copy].  Both
    tools resolve them to one subject and session, and both keep the one
    found second. *)
Lemma first_discovered_is_replaced :
  let aparc := "aparc.DKTatlas+aseg.mgz"%string in
  let first := ["/"; "fs"; "sub-01_ses-A"; "mri"; aparc]%string in
  let second := ["/"; "fs"; "copy"; "sub-01_ses-A"; "mri"; aparc]%string in
  let walk := [(["/"; "fs"; "sub-01_ses-A"; "mri"], [aparc]);
               (["/"; "fs"; "copy"; "sub-01_ses-A"; "mri"], [aparc])]%string in
  first_such (indexed_as None "sub-01" "sub-01_ses-A") [first; second]
    = Some first
  /\ PyDict.get2 (index_files None [first; second]) "sub-01" "sub-01_ses-A"
    = Some second
  /\ find_segmentations walk [aparc] None
    = [("sub-01", "sub-01_ses-A", first);
       ("sub-01", "sub-01_ses-A", second)]%string
  /\ PyDict.get2 (group_by_subject (find_segmentations walk [aparc] None))
       "sub-01" "sub-01_ses-A"
    = Some second
  /\ path_eqb first second = false.
Proof.
  repeat split.
Qed.

(** ** The identity resolver *)

Lemma name_join : forall dir f,
  String.eqb f root = false -> name (join dir f) = f.
Proof.
  intros dir f Hf. unfold join.
  destruct dir as [|d dir]; simpl.
  - now rewrite Hf.
  - destruct (dir ++ [f]) as [|x l] eqn:E.
    + now destruct dir.
    + change (last (d :: x :: l) EmptyString = f).
      rewrite <- E. change (d :: dir ++ [f]) with ((d :: dir) ++ [f]).
      apply last_last.
Qed.

(** C6 (as the code has it).  A file with the flat name
    [sub-01_ses-siteATV_aparcDKT+aseg.mgz] is resolved by
    [find_segmentations], in whatever directory it lies, to the subject
    [sub-01] and the session [ses-siteATV].  A run directory whose name
    starts with [ses-] is pooled under a fixed subject with the directory
    name as the session: the subject is [simon] in
    [parse_subject_session] and [long.simonBase_all_2025] in
    [find_segmentations]. *)
Theorem identity_resolver_conventions :
  (forall dir,
      resolve_segmentation (join dir "sub-01_ses-siteATV_aparcDKT+aseg.mgz")
      = ("sub-01", "ses-siteATV")%string)
  /\ (forall run_dir,
         PyStr.startswith "ses-" run_dir = true ->
         parse_subject_session run_dir = ("simon"%string, run_dir))
  /\ parse_subject_session "ses-017.long.simonBase_all_2025"
     = ("simon", "ses-017.long.simonBase_all_2025")%string
  /\ (forall full,
         PyStr.startswith "ses-" (name (parent (parent full))) = true ->
         match_flat (name full) = None ->
         resolve_segmentation full
         = ("long.simonBase_all_2025"%string, name (parent (parent full)))).
Proof.
  split; [|split; [|split]].
  - intros dir. unfold resolve_segmentation.
    rewrite name_join by reflexivity. reflexivity.
  - intros run_dir H. unfold parse_subject_session.
    destruct (PyStr.startswith "sub-" run_dir) eqn:E.
    + exfalso. unfold PyStr.startswith in *.
      destruct run_dir as [|c [|c' r]]; cbn [String.prefix] in E, H;
        try discriminate.
      * destruct (ascii_dec "s" c); discriminate.
      * destruct (ascii_dec "s" c); [|discriminate].
        destruct (ascii_dec "u" c') as [<-|]; [|discriminate].
        destruct (ascii_dec "e" "u"); discriminate.
    + now rewrite H.
  - reflexivity.
  - intros full H1 H2. unfold resolve_segmentation.
    now rewrite H2, H1.
Qed.

(** C6, the claim as stated fails in [find_segmentations]: the run
    directory [ses-017.long.simonBase_all_2025] is not filed under
    [simon]. *)
Lemma consecutive_tool_pools_under_another_subject :
  let full := ["/"; "data"; "ses-017.long.simonBase_all_2025"; "mri";
               "aparc.DKTatlas+aseg.mgz"]%string in
  resolve_segmentation full
  = ("long.simonBase_all_2025", "ses-017.long.simonBase_all_2025")%string
  /\ String.eqb (fst (resolve_segmentation full)) "simon" = false
  /\ find_segmentations
       [(["/"; "data"; "ses-017.long.simonBase_all_2025"; "mri"],
         ["aparc.DKTatlas+aseg.mgz"])]%string
       ["aparc.DKTatlas+aseg.mgz"; "aparcDKT+aseg.mgz"]%string None
     = [("long.simonBase_all_2025", "ses-017.long.simonBase_all_2025",
         full)]%string.
Proof.
  repeat split.
Qed.

(** ** The stable sort *)

Section SortFacts.

Variable A : Type.
Variable ltb : A -> A -> bool.

(** [a] is not greater than [b]. *)
Definition not_gt (a b : A) : Prop := ltb b a = false.

Lemma insert_sorted_perm : forall x l,
  Permutation (x :: l) (insert_sorted ltb x l).
Proof.
  intros x l. induction l as [|y l IH]; simpl.
  - apply Permutation_refl.
  - destruct (ltb y x).
    + eapply perm_trans; [apply perm_swap|]. now apply perm_skip.
    + apply Permutation_refl.
Qed.

Lemma py_sorted_perm : forall l, Permutation l (py_sorted ltb l).
Proof.
  induction l as [|x l IH]; simpl.
  - apply perm_nil.
  - eapply perm_trans; [apply perm_skip, IH|]. apply insert_sorted_perm.
Qed.

Lemma insert_sorted_Forall : forall (P : A -> Prop) x l,
  P x -> Forall P l -> Forall P (insert_sorted ltb x l).
Proof.
  intros P x l Hx Hl.
  eapply Permutation_Forall; [apply insert_sorted_perm|].
  now constructor.
Qed.

Lemma py_sorted_Forall : forall (P : A -> Prop) l,
  Forall P l -> Forall P (py_sorted ltb l).
Proof.
  intros P l Hl. eapply Permutation_Forall; [apply py_sorted_perm|exact Hl].
Qed.

Hypothesis ltb_asym : forall a b, ltb a b = true -> ltb b a = false.
Hypothesis not_gt_trans : forall a b c, not_gt a b -> not_gt b c -> not_gt a c.

Lemma insert_sorted_sorted : forall x l,
  StronglySorted not_gt l -> StronglySorted not_gt (insert_sorted ltb x l).
Proof.
  intros x l Hl. induction Hl as [|y l Hl IH Hy]; simpl.
  - repeat constructor.
  - destruct (ltb y x) eqn:E.
    + constructor; [exact IH|].
      apply insert_sorted_Forall; [|exact Hy].
      now apply ltb_asym.
    + constructor; [now constructor|].
      constructor; [exact E|].
      eapply Forall_impl; [|exact Hy].
      intros z Hz. now apply not_gt_trans with y.
Qed.

Lemma py_sorted_sorted : forall l, StronglySorted not_gt (py_sorted ltb l).
Proof.
  induction l as [|x l IH]; simpl.
  - constructor.
  - now apply insert_sorted_sorted.
Qed.

Hypothesis not_gt_antisym : forall a b, not_gt a b -> not_gt b a -> a = b.

Lemma not_gt_refl : forall a, not_gt a a.
Proof.
  intros a. unfold not_gt. destruct (ltb a a) eqn:E; [|reflexivity].
  now rewrite (ltb_asym _ _ E) in E.
Qed.

(** A list has one sorted arrangement. *)
Lemma sorted_perm_eq : forall l1 l2,
  StronglySorted not_gt l1 -> StronglySorted not_gt l2 ->
  Permutation l1 l2 -> l1 = l2.
Proof.
  induction l1 as [|a l1 IH]; intros l2 H1 H2 HP.
  - now apply Permutation_nil in HP.
  - destruct l2 as [|b l2].
    + apply Permutation_sym, Permutation_nil in HP. discriminate.
    + inversion H1 as [|? ? S1 F1]; subst.
      inversion H2 as [|? ? S2 F2]; subst.
      assert (a = b) as ->.
      { apply not_gt_antisym.
        - assert (Hin : In b (a :: l1))
            by (eapply Permutation_in;
                [apply Permutation_sym, HP|now left]).
          destruct Hin as [->|Hin]; [apply not_gt_refl|].
          rewrite Forall_forall in F1. now apply F1.
        - assert (Hin : In a (b :: l2))
            by (eapply Permutation_in; [apply HP|now left]).
          destruct Hin as [->|Hin]; [apply not_gt_refl|].
          rewrite Forall_forall in F2. now apply F2. }
      f_equal. apply IH; try assumption.
      now apply Permutation_cons_inv with b.
Qed.

Lemma py_sorted_perm_eq : forall l1 l2,
  Permutation l1 l2 -> py_sorted ltb l1 = py_sorted ltb l2.
Proof.
  intros l1 l2 HP. apply sorted_perm_eq; try apply py_sorted_sorted.
  eapply perm_trans; [apply Permutation_sym, py_sorted_perm|].
  eapply perm_trans; [exact HP|apply py_sorted_perm].
Qed.

End SortFacts.

Arguments not_gt {A} ltb a b.

Lemma StronglySorted_weaken : forall (A : Type) (R R' : A -> A -> Prop),
  (forall a b, R a b -> R' a b) ->
  forall l, StronglySorted R l -> StronglySorted R' l.
Proof.
  intros A R R' HR l H. induction H as [|a l H IH Ha]; constructor.
  - exact IH.
  - eapply Forall_impl; [apply HR|exact Ha].
Qed.

(** Sorting by a key and then reading the keys is sorting the keys. *)
Lemma py_sorted_map : forall (A B : Type) (f : A -> B) (ltB : B -> B -> bool) l,
  map f (py_sorted (fun a b => ltB (f a) (f b)) l) = py_sorted ltB (map f l).
Proof.
  intros A B f ltB. induction l as [|x l IH]; simpl; [reflexivity|].
  rewrite <- IH. generalize (py_sorted (fun a b => ltB (f a) (f b)) l).
  intros s. induction s as [|y s IHs]; simpl; [reflexivity|].
  destruct (ltB (f y) (f x)); simpl; [now rewrite IHs|reflexivity].
Qed.

(** ** The order of strings and of sort keys *)

Lemma ascii_compare_refl : forall c, Ascii.compare c c = Eq.
Proof.
  intros c. unfold Ascii.compare. apply N.compare_refl.
Qed.

Lemma ascii_compare_lt_trans : forall a b c,
  Ascii.compare a b = Lt -> Ascii.compare b c = Lt -> Ascii.compare a c = Lt.
Proof.
  unfold Ascii.compare. intros a b c.
  rewrite !N.compare_lt_iff. apply N.lt_trans.
Qed.

Lemma string_compare_refl : forall s, String.compare s s = Eq.
Proof.
  induction s as [|c s IH]; simpl; [reflexivity|].
  now rewrite ascii_compare_refl.
Qed.

Lemma string_compare_lt_trans : forall a b c,
  String.compare a b = Lt -> String.compare b c = Lt ->
  String.compare a c = Lt.
Proof.
  induction a as [|x a IH]; intros [|y b] [|z c]; simpl;
    try discriminate; try reflexivity.
  destruct (Ascii.compare x y) eqn:Exy; try discriminate;
    destruct (Ascii.compare y z) eqn:Eyz; try discriminate; intros H1 H2.
  - apply Ascii.compare_eq_iff in Exy, Eyz. subst.
    rewrite ascii_compare_refl. now apply IH with b.
  - apply Ascii.compare_eq_iff in Exy. subst. now rewrite Eyz.
  - apply Ascii.compare_eq_iff in Eyz. subst. now rewrite Exy.
  - now rewrite (ascii_compare_lt_trans _ _ _ Exy Eyz).
Qed.

Lemma string_ltb_asym : forall a b,
  String.ltb a b = true -> String.ltb b a = false.
Proof.
  unfold String.ltb. intros a b. rewrite (String.compare_antisym b a).
  destruct (String.compare a b); simpl; congruence.
Qed.

Lemma string_not_gt_antisym : forall a b,
  not_gt String.ltb a b -> not_gt String.ltb b a -> a = b.
Proof.
  unfold not_gt, String.ltb. intros a b.
  rewrite (String.compare_antisym b a).
  destruct (String.compare a b) eqn:E; simpl; try discriminate.
  intros _ _. now apply String.compare_eq_iff.
Qed.

Lemma string_not_gt_trans : forall a b c,
  not_gt String.ltb a b -> not_gt String.ltb b c -> not_gt String.ltb a c.
Proof.
  unfold not_gt, String.ltb. intros a b c Hab Hbc.
  destruct (String.compare c a) eqn:Eca; try reflexivity. exfalso.
  destruct (String.compare b a) eqn:Eba; try discriminate.
  - apply String.compare_eq_iff in Eba. subst. now rewrite Eca in Hbc.
  - destruct (String.compare c b) eqn:Ecb; try discriminate.
    + apply String.compare_eq_iff in Ecb. subst. congruence.
    + rewrite String.compare_antisym in Eba, Ecb.
      destruct (String.compare a b) eqn:Eab; try discriminate.
      destruct (String.compare b c) eqn:Ebc; try discriminate.
      pose proof (string_compare_lt_trans _ _ _ Eab Ebc) as Hac.
      rewrite String.compare_antisym, Hac in Eca. discriminate.
Qed.

Lemma key_ltb_asym : forall a b, key_ltb a b = true -> key_ltb b a = false.
Proof.
  intros [n|s] [m|t]; simpl; try congruence.
  - intros H. apply Z.ltb_lt in H. apply Z.ltb_ge. lia.
  - apply string_ltb_asym.
Qed.

Lemma key_not_gt_trans : forall a b c,
  not_gt key_ltb a b -> not_gt key_ltb b c -> not_gt key_ltb a c.
Proof.
  unfold not_gt. intros [n|s] [m|t] [k|u]; simpl; try congruence.
  - rewrite !Z.ltb_ge. lia.
  - apply string_not_gt_trans.
Qed.

Lemma key_not_gt_antisym : forall a b,
  not_gt key_ltb a b -> not_gt key_ltb b a -> a = b.
Proof.
  unfold not_gt. intros [n|s] [m|t]; simpl; try congruence.
  - rewrite !Z.ltb_ge. intros. f_equal. lia.
  - intros H1 H2. f_equal. now apply string_not_gt_antisym.
Qed.

Lemma session_ltb_asym : forall a b,
  session_ltb a b = true -> session_ltb b a = false.
Proof.
  intros a b. apply key_ltb_asym.
Qed.

Lemma session_not_gt_trans : forall a b c,
  not_gt session_ltb a b -> not_gt session_ltb b c -> not_gt session_ltb a c.
Proof.
  intros a b c. apply key_not_gt_trans.
Qed.

(** ** The session sort key *)

Lemma prefix_drop : forall p s,
  String.prefix p s = true -> s = (p ++ PyStr.drop (String.length p) s)%string.
Proof.
  induction p as [|a p IH]; intros s H; [reflexivity|].
  destruct s as [|b s]; cbn [String.prefix] in H; [discriminate|].
  destruct (ascii_dec a b) as [->|]; [|discriminate].
  cbn [String.length PyStr.drop String.append]. f_equal. now apply IH.
Qed.

Lemma prefix_app : forall p s, String.prefix p (p ++ s) = true.
Proof.
  induction p as [|a p IH]; intros s; [now destruct s|].
  cbn [String.append String.prefix].
  destruct (ascii_dec a a); [apply IH|congruence].
Qed.

Lemma drop_app : forall p s, PyStr.drop (String.length p) (p ++ s) = s.
Proof.
  induction p as [|a p IH]; intros s; [reflexivity|]. apply IH.
Qed.

Lemma span_digits : forall s,
  s = (fst (PyStr.span PyStr.is_digit s)
       ++ snd (PyStr.span PyStr.is_digit s))%string
  /\ all_digits (fst (PyStr.span PyStr.is_digit s)) = true
  /\ starts_with_digit (snd (PyStr.span PyStr.is_digit s)) = false.
Proof.
  induction s as [|c s (IH1 & IH2 & IH3)]; [repeat split|].
  cbn [PyStr.span]. destruct (PyStr.is_digit c) eqn:E.
  - destruct (PyStr.span PyStr.is_digit s) as [a r]. cbn in *.
    rewrite E. repeat split; [now f_equal|exact IH2|exact IH3].
  - cbn. now rewrite E.
Qed.

Lemma span_digits_app : forall d post,
  all_digits d = true -> starts_with_digit post = false ->
  PyStr.span PyStr.is_digit (d ++ post) = (d, post).
Proof.
  induction d as [|c d IH]; intros post Hd Hp.
  - destruct post as [|c post]; [reflexivity|].
    cbn in *. now rewrite Hp.
  - cbn in Hd. apply andb_prop in Hd as [Hc Hd].
    cbn [String.append PyStr.span]. now rewrite Hc, IH.
Qed.

Lemma span_digits_nonempty : forall d post,
  d <> EmptyString -> all_digits d = true ->
  fst (PyStr.span PyStr.is_digit (d ++ post)) <> EmptyString.
Proof.
  intros [|c d] post Hne Hd; [congruence|].
  cbn in Hd. apply andb_prop in Hd as [Hc _].
  cbn [String.append PyStr.span]. rewrite Hc.
  destruct (PyStr.span PyStr.is_digit (d ++ post)). discriminate.
Qed.

Lemma match_ses_here_sound : forall s d,
  match_ses_here s = Some d ->
  exists post,
    s = ("ses-" ++ d ++ post)%string
    /\ d <> EmptyString /\ all_digits d = true
    /\ starts_with_digit post = false.
Proof.
  intros s d. unfold match_ses_here, PyStr.startswith.
  destruct (String.prefix "ses-" s) eqn:E; [|discriminate].
  apply prefix_drop in E. cbn [String.length] in E.
  destruct (span_digits (PyStr.drop 4 s)) as (H1 & H2 & H3).
  destruct (fst (PyStr.span PyStr.is_digit (PyStr.drop 4 s))) as [|c a] eqn:F;
    [discriminate|].
  intros [= <-].
  exists (snd (PyStr.span PyStr.is_digit (PyStr.drop 4 s))).
  repeat split; try assumption; [|discriminate].
  rewrite <- H1. exact E.
Qed.

Lemma match_ses_here_token : forall d post,
  d <> EmptyString -> all_digits d = true ->
  exists d', match_ses_here ("ses-" ++ d ++ post) = Some d'.
Proof.
  intros d post Hne Hd. unfold match_ses_here, PyStr.startswith.
  rewrite prefix_app.
  change 4%nat with (String.length "ses-"). rewrite drop_app.
  pose proof (span_digits_nonempty d post Hne Hd) as H.
  destruct (fst (PyStr.span PyStr.is_digit (d ++ post))) as [|c a];
    [congruence|eauto].
Qed.

Lemma search_ses_eq : forall s,
  search_ses s
  = match match_ses_here s with
    | Some d => Some d
    | None =>
        match s with
        | EmptyString => None
        | String _ s' => search_ses s'
        end
    end.
Proof.
  intros [|c s]; reflexivity.
Qed.

Lemma search_ses_sound : forall s d,
  search_ses s = Some d ->
  exists pre post,
    s = (pre ++ "ses-" ++ d ++ post)%string
    /\ d <> EmptyString /\ all_digits d = true
    /\ starts_with_digit post = false.
Proof.
  induction s as [|c s IH]; intros d H.
  - discriminate.
  - cbn [search_ses] in H.
    destruct (match_ses_here (String c s)) as [d'|] eqn:E.
    + injection H as ->. apply match_ses_here_sound in E as (post & E & R).
      exists EmptyString, post. split; [exact E|exact R].
    + apply IH in H as (pre & post & E' & R).
      exists (String c pre), post. split; [|exact R].
      cbn [String.append]. now f_equal.
Qed.

Lemma search_ses_complete : forall s,
  has_numeric_token s -> exists d, search_ses s = Some d.
Proof.
  intros s (pre & d & post & -> & Hne & Hd).
  induction pre as [|c pre IH].
  - destruct (match_ses_here_token d post Hne Hd) as [d' E].
    exists d'. rewrite search_ses_eq. cbn [String.append] in *.
    now rewrite E.
  - destruct IH as [d' E].
    change ((String c pre ++ "ses-" ++ d ++ post)%string)
      with (String c (pre ++ "ses-" ++ d ++ post)).
    rewrite search_ses_eq.
    destruct (match_ses_here (String c (pre ++ "ses-" ++ d ++ post)));
      [eauto|exists d'; exact E].
Qed.

Lemma session_sort_key_token : forall d post,
  d <> EmptyString -> all_digits d = true -> starts_with_digit post = false ->
  session_sort_key ("ses-" ++ d ++ post) = KeyNum (PyStr.int_of d).
Proof.
  intros d post Hne Hd Hp. unfold session_sort_key.
  assert (E : match_ses_here ("ses-" ++ d ++ post) = Some d).
  { unfold match_ses_here, PyStr.startswith. rewrite prefix_app.
    change 4%nat with (String.length "ses-").
    rewrite drop_app, span_digits_app by assumption.
    cbn [fst]. destruct d; [congruence|reflexivity]. }
  now rewrite search_ses_eq, E.
Qed.

(** C7.  An identifier that has a numeric token gets the key [(0, n)],
    where [n] is the value of a maximal run of digits that follows [ses-]
    in it (the run itself when the identifier starts with [ses-]); any
    other identifier [s] gets the key [(1, s)].  Keys of the first kind
    compare as integers and come before all keys of the second kind, which
    compare as strings.  [sorted] with this key returns the sessions in an
    order in which the keys never decrease, and sorts [ses-2], [ses-10],
    [ses-1] as [ses-1], [ses-2], [ses-10]. *)
Theorem session_sort_key_buckets :
  (forall s,
      has_numeric_token s ->
      exists pre d post,
        s = (pre ++ "ses-" ++ d ++ post)%string
        /\ d <> EmptyString /\ all_digits d = true
        /\ starts_with_digit post = false
        /\ session_sort_key s = KeyNum (PyStr.int_of d))
  /\ (forall s, ~ has_numeric_token s -> session_sort_key s = KeyStr s)
  /\ (forall d post,
         d <> EmptyString -> all_digits d = true ->
         starts_with_digit post = false ->
         session_sort_key ("ses-" ++ d ++ post) = KeyNum (PyStr.int_of d))
  /\ (forall n m s t,
         key_ltb (KeyNum n) (KeyNum m) = (n <? m)%Z
         /\ key_ltb (KeyNum n) (KeyStr t) = true
         /\ key_ltb (KeyStr s) (KeyNum m) = false
         /\ key_ltb (KeyStr s) (KeyStr t) = String.ltb s t)
  /\ (forall l,
         Permutation l (py_sorted session_ltb l)
         /\ StronglySorted
              (fun a b =>
                 key_leb (session_sort_key a) (session_sort_key b) = true)
              (py_sorted session_ltb l))
  /\ map session_sort_key ["ses-2"; "ses-10"; "ses-1"]%string
     = [KeyNum 2; KeyNum 10; KeyNum 1]
  /\ py_sorted session_ltb ["ses-2"; "ses-10"; "ses-1"]%string
     = ["ses-1"; "ses-2"; "ses-10"]%string.
Proof.
  split; [|split; [|split; [|split; [|split; [|split]]]]].
  - intros s H. destruct (search_ses_complete s H) as [d E].
    destruct (search_ses_sound s d E) as (pre & post & Hs & Hne & Hd & Hp).
    exists pre, d, post. repeat split; try assumption.
    unfold session_sort_key. now rewrite E.
  - intros s H. unfold session_sort_key.
    destruct (search_ses s) as [d|] eqn:E; [|reflexivity].
    exfalso. apply H.
    destruct (search_ses_sound s d E) as (pre & post & Hs & Hne & Hd & _).
    now exists pre, d, post.
  - apply session_sort_key_token.
  - intros. repeat split.
  - intros l. split; [apply py_sorted_perm|].
    pose proof (py_sorted_sorted _ session_ltb session_ltb_asym
                  session_not_gt_trans l) as H.
    eapply StronglySorted_weaken; [|exact H].
    intros a b Hab. unfold key_leb. unfold not_gt, session_ltb in Hab.
    now rewrite Hab.
  - reflexivity.
  - reflexivity.
Qed.

(** ** The pair selector *)

Lemma NoDup_map_inj : forall (A B : Type) (f : A -> B) l,
  NoDup (map f l) ->
  forall x y, In x l -> In y l -> f x = f y -> x = y.
Proof.
  intros A B f. induction l as [|a l IH]; intros Hnd x y Hx Hy E.
  - destruct Hx.
  - simpl in Hnd. inversion Hnd as [|? ? Hnin Hnd']; subst.
    destruct Hx as [->|Hx], Hy as [->|Hy].
    + reflexivity.
    + exfalso. apply Hnin. rewrite E. now apply in_map.
    + exfalso. apply Hnin. rewrite <- E. now apply in_map.
    + now apply IH.
Qed.

Lemma map_inj_on : forall (A B : Type) (f : A -> B) l1 l2,
  map f l1 = map f l2 ->
  (forall x y, In x l1 -> In y l2 -> f x = f y -> x = y) ->
  l1 = l2.
Proof.
  intros A B f. induction l1 as [|a l1 IH]; intros [|b l2] E Hinj;
    try discriminate; [reflexivity|].
  simpl in E. injection E as E1 E2. f_equal.
  - apply Hinj; simpl; auto.
  - apply IH; [exact E2|]. intros x y Hx Hy. apply Hinj; simpl; auto.
Qed.

Lemma sorted_strings_perm_eq : forall l1 l2,
  Permutation l1 l2 -> py_sorted String.ltb l1 = py_sorted String.ltb l2.
Proof.
  apply py_sorted_perm_eq.
  - apply string_ltb_asym.
  - apply string_not_gt_trans.
  - apply string_not_gt_antisym.
Qed.

Lemma sorted_sessions_perm_eq : forall l1 l2,
  Permutation l1 l2 -> NoDup (map session_sort_key l1) ->
  py_sorted session_ltb l1 = py_sorted session_ltb l2.
Proof.
  intros l1 l2 HP Hnd.
  apply map_inj_on with (f := session_sort_key).
  - unfold session_ltb. rewrite !py_sorted_map.
    apply py_sorted_perm_eq.
    + apply key_ltb_asym.
    + apply key_not_gt_trans.
    + apply key_not_gt_antisym.
    + now apply Permutation_map.
  - intros x y Hx Hy. apply (NoDup_map_inj _ _ _ l1 Hnd).
    + eapply Permutation_in; [apply Permutation_sym, py_sorted_perm|exact Hx].
    + eapply Permutation_in; [apply Permutation_sym, HP|].
      eapply Permutation_in; [apply Permutation_sym, py_sorted_perm|exact Hy].
Qed.

(** C9 (as the code has it).  Two runs that discover the same sessions of
    a subject, in whatever orders, evaluate the same list of pairs under
    the all-pairs policy; under the consecutive policy they do so when no
    two of the sessions have the same sort key. *)
Theorem pairs_independent_of_discovery_order :
  (forall (V : Type) (run1 run2 : PyDict.dict V),
      Permutation (PyDict.keys run1) (PyDict.keys run2) ->
      all_pairs run1 = all_pairs run2)
  /\ (forall (V : Type) (run1 run2 : PyDict.dict V),
         Permutation (PyDict.keys run1) (PyDict.keys run2) ->
         NoDup (map session_sort_key (PyDict.keys run1)) ->
         consecutive_pairs run1 = consecutive_pairs run2).
Proof.
  split; intros V run1 run2 HP.
  - unfold all_pairs. now rewrite (sorted_strings_perm_eq _ _ HP).
  - intros Hnd. unfold consecutive_pairs.
    now rewrite (sorted_sessions_perm_eq _ _ HP Hnd).
Qed.

(** C9, the claim as stated fails under the consecutive policy.  A
    longitudinal tree holds the run directories [ses-001],
    [ses-001.long.base] and [ses-002]; the first two have the sort key
    [(0, 1)], and the stable sort leaves them in the order in which the
    walk met them.  Two walks that differ in that order evaluate different
    pairs: only the second compares [ses-001] with [ses-002]. *)
Lemma consecutive_pairs_follow_discovery_order :
  let aparc := "aparc.DKTatlas+aseg.mgz"%string in
  let dir := fun s => (["/"; "fs"; s; "mri"]%string, [aparc]) in
  let walk1 := [dir "ses-001"; dir "ses-001.long.base"; dir "ses-002"]%string in
  let walk2 := [dir "ses-001.long.base"; dir "ses-001"; dir "ses-002"]%string in
  let sessions := fun walk =>
    match group_by_subject (find_segmentations walk [aparc] None) with
    | [(_, sessions)] => sessions
    | _ => []
    end in
  PyDict.keys (sessions walk1)
    = ["ses-001"; "ses-001.long.base"; "ses-002"]%string
  /\ PyDict.keys (sessions walk2)
    = ["ses-001.long.base"; "ses-001"; "ses-002"]%string
  /\ Permutation (PyDict.keys (sessions walk1)) (PyDict.keys (sessions walk2))
  /\ consecutive_pairs (sessions walk1)
    = [("ses-001", "ses-001.long.base");
       ("ses-001.long.base", "ses-002")]%string
  /\ consecutive_pairs (sessions walk2)
    = [("ses-001.long.base", "ses-001"); ("ses-001", "ses-002")]%string
  /\ evaluates (consecutive_pairs (sessions walk2)) "ses-001" "ses-002"
    = true
  /\ evaluates (consecutive_pairs (sessions walk1)) "ses-001" "ses-002"
    = false
  /\ all_pairs (sessions walk1) = all_pairs (sessions walk2).
Proof.
  repeat split. apply perm_swap.
Qed.

(** ** Arrays *)

Lemma in_indices : forall nx ny nz i j k,
  In (i, j, k) (indices (nx, ny, nz)) <-> (i < nx /\ j < ny /\ k < nz)%nat.
Proof.
  intros nx ny nz i j k. unfold indices. rewrite in_flat_map. split.
  - intros (i' & Hi & H). apply in_flat_map in H as (j' & Hj & H).
    apply in_map_iff in H as (k' & [= <- <- <-] & Hk).
    apply in_seq in Hi, Hj, Hk. lia.
  - intros (Hi & Hj & Hk). exists i. split; [apply in_seq; lia|].
    apply in_flat_map. exists j. split; [apply in_seq; lia|].
    apply in_map_iff. exists k. split; [reflexivity|apply in_seq; lia].
Qed.

Lemma stretch_inside : forall sh p, In p (indices sh) -> stretch sh p = p.
Proof.
  intros [[nx ny] nz] [[i j] k] H. apply in_indices in H as (Hi & Hj & Hk).
  unfold stretch.
  destruct (Nat.eqb_spec nx 1), (Nat.eqb_spec ny 1), (Nat.eqb_spec nz 1);
    repeat f_equal; lia.
Qed.

Lemma broadcast_shape_same : forall sh, broadcast_shape sh sh = Some sh.
Proof.
  intros [[nx ny] nz]. unfold broadcast_shape, broadcast_dim.
  now rewrite !Nat.eqb_refl.
Qed.

Lemma filter_map_id : forall (A : Type) (f : A -> bool) l,
  List.length (filter (fun b => b) (map f l)) = List.length (filter f l).
Proof.
  intros A f. induction l as [|x l IH]; simpl; [reflexivity|].
  destruct (f x); simpl; now rewrite IH.
Qed.

Lemma np_sum_card : forall m, np_sum m = card m.
Proof.
  intros m. unfold np_sum, card, ravel. now rewrite filter_map_id.
Qed.

Lemma np_and_same_shape : forall m1 m2,
  shape m1 = shape m2 ->
  exists both, np_and m1 m2 = Ok both /\ np_sum both = card_inter m1 m2.
Proof.
  intros m1 m2 Hs. unfold np_and. rewrite <- Hs, broadcast_shape_same.
  eexists. split; [reflexivity|].
  unfold np_sum, card_inter, ravel. cbn [shape at_index].
  rewrite filter_map_id. f_equal. f_equal.
  apply filter_ext_in. intros p Hp. now rewrite (stretch_inside _ _ Hp).
Qed.

Lemma card_nonneg : forall m, (0 <= card m)%Z.
Proof.
  intros m. unfold card. lia.
Qed.

(** ** The Dice coefficient *)

Lemma dice_empty : forall m1 m2,
  card m1 = 0%Z -> card m2 = 0%Z ->
  compute_dice_coefficient m1 m2 = Ok NaN
  /\ consecutive_dice m1 m2 = Ok NaN.
Proof.
  intros m1 m2 E1 E2. unfold compute_dice_coefficient, consecutive_dice.
  rewrite !np_sum_card, E1, E2. split; reflexivity.
Qed.

Lemma dice_nonempty : forall m1 m2,
  shape m1 = shape m2 ->
  (card m1 + card m2)%Z <> 0%Z ->
  compute_dice_coefficient m1 m2
  = Ok (Fin (inject_Z (2 * card_inter m1 m2)
             / inject_Z (card m1 + card m2)))
  /\ consecutive_dice m1 m2
     = Ok (Fin (inject_Z (2 * card_inter m1 m2)
                / inject_Z (card m1 + card m2))).
Proof.
  intros m1 m2 Hs Hne. unfold compute_dice_coefficient, consecutive_dice.
  rewrite !np_sum_card.
  destruct (np_and_same_shape m1 m2 Hs) as (both & -> & Hb).
  destruct (Z.eqb_spec (card m1 + card m2) 0) as [E|E]; [contradiction|].
  cbn [negb bind]. rewrite Hb. split; reflexivity.
Qed.

(** C4.  On two masks of one grid, both the function
    [compute_dice_coefficient] and the expression of [compute_metrics]
    return [nan] when both masks are empty, and otherwise the number
    [2 |m1 /\ m2| / (|m1| + |m2|)]; [nan] is not a number, so not zero. *)
Theorem dice_is_overlap_ratio_or_nan :
  forall m1 m2 : ndarray bool,
    shape m1 = shape m2 ->
    (card m1 = 0%Z /\ card m2 = 0%Z ->
     compute_dice_coefficient m1 m2 = Ok NaN
     /\ consecutive_dice m1 m2 = Ok NaN)
    /\ (~ (card m1 = 0%Z /\ card m2 = 0%Z) ->
        exists q,
          compute_dice_coefficient m1 m2 = Ok (Fin q)
          /\ consecutive_dice m1 m2 = Ok (Fin q)
          /\ q == 2 * inject_Z (card_inter m1 m2)
                  / (inject_Z (card m1) + inject_Z (card m2)))
    /\ (forall q, NaN <> Fin q).
Proof.
  intros m1 m2 Hs.
  pose proof (card_nonneg m1). pose proof (card_nonneg m2).
  split; [|split].
  - intros [E1 E2]. now apply dice_empty.
  - intros Hne. eexists.
    destruct (dice_nonempty m1 m2 Hs) as [H1 H2]; [lia|].
    split; [exact H1|]. split; [exact H2|].
    rewrite inject_Z_mult, inject_Z_plus. reflexivity.
  - discriminate.
Qed.

(** A witness of C4: two masks of three voxels that share one voxel of
    their two each. *)
Lemma dice_of_half_overlap :
  let m1 := of_nested false [[[true; true; false]]] in
  let m2 := of_nested false [[[false; true; true]]] in
  shape m1 = shape m2
  /\ exists q,
       compute_dice_coefficient m1 m2 = Ok (Fin q) /\ q == 1 # 2.
Proof.
  intros m1 m2. split; [reflexivity|].
  destruct (dice_is_overlap_ratio_or_nan m1 m2 eq_refl) as (_ & H & _).
  destruct H as (q & H1 & _ & H3).
  - intros [E _]. discriminate E.
  - exists q. split; [exact H1|]. rewrite H3. reflexivity.
Defined.

(** ** Surfaces and distances of a mask against itself *)

Definition zero_dist (d : dist) : Prop := sq d == 0.

Lemma distance_self : forall g, zero_dist (distance g g).
Proof.
  intros [[x y] z]. unfold zero_dist, distance. cbn [sq]. ring.
Qed.

Lemma square_nonneg : forall a : Q, 0 <= a * a.
Proof.
  intros [n d]. unfold Qle. cbn. nia.
Qed.

Lemma sum_nonneg : forall a b : Q, 0 <= a -> 0 <= b -> 0 <= a + b.
Proof.
  intros a b Ha Hb. setoid_replace 0 with (0 + 0) by ring.
  now apply Qplus_le_compat.
Qed.

Lemma distance_nonneg : forall p q, 0 <= sq (distance p q).
Proof.
  intros [[px py] pz] [[qx qy] qz]. unfold distance. cbn [sq].
  repeat apply sum_nonneg; apply square_nonneg.
Qed.

Lemma dist_min_cases : forall a b,
  (dist_min a b = a /\ sq a <= sq b) \/ (dist_min a b = b /\ sq b <= sq a).
Proof.
  intros a b. unfold dist_min, dist_ltb.
  destruct (Qle_bool (sq a) (sq b)) eqn:E; cbn [negb].
  - left. split; [reflexivity|now apply Qle_bool_iff].
  - right. split; [reflexivity|].
    apply Qlt_le_weak, Qnot_le_lt. intros H.
    apply Qle_bool_iff in H. congruence.
Qed.

Lemma dist_max_cases : forall a b, dist_max a b = a \/ dist_max a b = b.
Proof.
  intros a b. unfold dist_max. destruct (dist_ltb a b); auto.
Qed.

(** The fold of [np.min] returns an element that is not above the start
    value nor above any element of the list. *)
Lemma fold_dist_min : forall l d,
  (fold_left dist_min l d = d \/ In (fold_left dist_min l d) l)
  /\ sq (fold_left dist_min l d) <= sq d
  /\ (forall x, In x l -> sq (fold_left dist_min l d) <= sq x).
Proof.
  induction l as [|y l IH]; intros d; cbn [fold_left].
  - repeat split; [now left|apply Qle_refl|intros x []].
  - destruct (IH (dist_min d y)) as (H1 & H2 & H3).
    destruct (dist_min_cases d y) as [[E Hle]|[E Hle]]; rewrite E in *.
    + repeat split.
      * destruct H1 as [H1|H1]; [now left|right; now right].
      * exact H2.
      * intros x [<-|Hx]; [now apply Qle_trans with (sq d)|now apply H3].
    + repeat split.
      * right. destruct H1 as [H1|H1]; [left; now rewrite H1|now right].
      * now apply Qle_trans with (sq y).
      * intros x [<-|Hx]; [exact H2|now apply H3].
Qed.

Lemma np_min_zero : forall l,
  Forall (fun d => 0 <= sq d) l ->
  (exists d, In d l /\ zero_dist d) ->
  zero_dist (np_min l).
Proof.
  intros [|d0 l] Hpos (d & Hd & Hz); [destruct Hd|].
  unfold np_min, zero_dist in *.
  destruct (fold_dist_min l d0) as (H1 & H2 & H3).
  apply Qle_antisym.
  - rewrite <- Hz. destruct Hd as [<-|Hd]; [exact H2|now apply H3].
  - rewrite Forall_forall in Hpos. apply Hpos.
    destruct H1 as [->|H1]; [now left|now right].
Qed.

(** A mask that has a voxel has a surface voxel: going down the last axis
    from the voxel, the walk leaves the mask or the array. *)
Lemma surface_exists : forall (m : ndarray bool) i j k,
  In (i, j, k) (indices (shape m)) ->
  at_index m (i, j, k) = true ->
  exists p, In p (np_where (np_ne (binary_erosion m) m)).
Proof.
  intros m i j k. destruct m as [[[nx ny] nz] f]. cbn [shape at_index].
  induction k as [|k IH]; intros Hin Hm.
  - exists (i, j, 0%nat). unfold np_where. apply filter_In.
    cbn [shape np_ne binary_erosion at_index]. split; [exact Hin|].
    rewrite Hm.
    replace (mask_at (mk_ndarray (nx, ny, nz) f)
               (Z.of_nat i) (Z.of_nat j) (Z.of_nat 0 - 1)) with false.
    + now rewrite !andb_false_r.
    + unfold mask_at, inside. cbn [shape].
      now rewrite !andb_false_r.
  - destruct (f (i, j, k)) eqn:E.
    + apply IH; [|reflexivity].
      apply in_indices in Hin. apply in_indices. lia.
    + exists (i, j, S k). unfold np_where. apply filter_In.
      cbn [shape np_ne binary_erosion at_index]. split; [exact Hin|].
      rewrite Hm.
      replace (mask_at (mk_ndarray (nx, ny, nz) f)
                 (Z.of_nat i) (Z.of_nat j) (Z.of_nat (S k) - 1)) with false.
      * now rewrite !andb_false_r.
      * unfold mask_at. cbn [at_index].
        replace (Z.to_nat (Z.of_nat (S k) - 1)) with k by lia.
        rewrite !Nat2Z.id, E. now rewrite andb_false_r.
Qed.

Lemma card_positive : forall m,
  (0 < card m)%Z <-> exists p, In p (indices (shape m)) /\ at_index m p = true.
Proof.
  intros m. unfold card. split.
  - intros H.
    destruct (filter (at_index m) (indices (shape m))) as [|p l] eqn:E;
      [cbn in H; lia|].
    exists p. apply filter_In. rewrite E. now left.
  - intros (p & Hp & Hm).
    assert (H : In p (filter (at_index m) (indices (shape m))))
      by now apply filter_In.
    destruct (filter (at_index m) (indices (shape m))); [destruct H|].
    cbn [List.length]. lia.
Qed.

Lemma sumQ_ones : forall n, sumQ (repeat 1 n) == inject_Z (Z.of_nat n).
Proof.
  induction n as [|n IH].
  - reflexivity.
  - cbn [repeat sumQ fold_right]. fold (sumQ (repeat 1 n)). rewrite IH.
    rewrite Nat2Z.inj_succ. unfold Z.succ. rewrite inject_Z_plus. ring.
Qed.

Lemma dist_le_float_zero : forall d, zero_dist d -> dist_le_float d 1 = true.
Proof.
  intros d H. unfold dist_le_float, zero_dist in *. rewrite H. reflexivity.
Qed.

Lemma overlap_all : forall distances areas,
  Forall zero_dist distances ->
  List.length areas = List.length distances ->
  overlap areas distances 1 = sumQ areas.
Proof.
  unfold overlap.
  induction distances as [|d distances IH]; intros [|a areas] Hz Hl;
    try discriminate; [reflexivity|].
  inversion Hz as [|? ? Hd Hz']; subst.
  cbn [combine filter snd]. rewrite (dist_le_float_zero d Hd).
  cbn [map fst sumQ fold_right]. f_equal. apply IH; [exact Hz'|].
  now injection Hl.
Qed.

(** What a mask with a voxel gives against itself: a distance 0 for each
    of its surface voxels, of which there is one at least. *)
Lemma surface_distances_self : forall m spacing,
  (0 < card m)%Z ->
  exists sd,
    compute_surface_distances m m spacing = Some sd
    /\ Forall zero_dist (distances_gt_to_pred sd)
    /\ Forall zero_dist (distances_pred_to_gt sd)
    /\ distances_gt_to_pred sd <> []
    /\ surfel_areas_gt sd = repeat 1 (List.length (distances_gt_to_pred sd))
    /\ surfel_areas_pred sd
       = repeat 1 (List.length (distances_pred_to_gt sd))
    /\ List.length (distances_pred_to_gt sd)
       = List.length (distances_gt_to_pred sd).
Proof.
  intros m spacing Hc.
  apply card_positive in Hc as ([[i j] k] & Hin & Hm).
  destruct (surface_exists m i j k Hin Hm) as [p0 Hp0].
  unfold compute_surface_distances.
  set (pts := np_where (np_ne (binary_erosion m) m)) in *.
  clearbody pts. destruct pts as [|p pts']; [destruct Hp0|].
  eexists. split; [reflexivity|]. cbn [distances_gt_to_pred
    distances_pred_to_gt surfel_areas_gt surfel_areas_pred].
  set (pts := map (scale spacing) (p :: pts')).
  assert (Hself : forall g, In g pts ->
            zero_dist (np_min (map (fun p => distance g p) pts))
            /\ zero_dist (np_min (map (fun p => distance p g) pts))).
  { intros g Hg. split; apply np_min_zero.
    - apply Forall_forall. intros d Hd.
      apply in_map_iff in Hd as (q & <- & _). apply distance_nonneg.
    - exists (distance g g). split; [|apply distance_self].
      apply in_map_iff. now exists g.
    - apply Forall_forall. intros d Hd.
      apply in_map_iff in Hd as (q & <- & _). apply distance_nonneg.
    - exists (distance g g). split; [|apply distance_self].
      apply in_map_iff. now exists g. }
  repeat split.
  - apply Forall_forall. intros d Hd.
    apply in_map_iff in Hd as (g & <- & Hg). now apply Hself.
  - apply Forall_forall. intros d Hd.
    apply in_map_iff in Hd as (g & <- & Hg). now apply Hself.
  - discriminate.
  - unfold pts. cbn [map List.length]. now rewrite !length_map.
Qed.

Lemma surface_dice_self : forall sd,
  Forall zero_dist (distances_gt_to_pred sd) ->
  Forall zero_dist (distances_pred_to_gt sd) ->
  distances_gt_to_pred sd <> [] ->
  surfel_areas_gt sd = repeat 1 (List.length (distances_gt_to_pred sd)) ->
  surfel_areas_pred sd = repeat 1 (List.length (distances_pred_to_gt sd)) ->
  compute_surface_dice (Some sd) 1 == 1.
Proof.
  intros sd Hg Hp Hne Ag Ap. unfold compute_surface_dice.
  rewrite (overlap_all _ _ Hg), (overlap_all _ _ Hp)
    by (rewrite ?Ag, ?Ap; apply repeat_length).
  apply Qmult_inv_r. rewrite Ag, Ap, !sumQ_ones, <- inject_Z_plus.
  destruct (distances_gt_to_pred sd) as [|d l]; [congruence|].
  cbn [List.length]. intros H. unfold Qeq, inject_Z in H.
  cbn [Qnum Qden] in H. lia.
Qed.

Lemma nth_Forall : forall (A : Type) (P : A -> Prop) l n d,
  Forall P l -> P d -> P (nth n l d).
Proof.
  intros A P l n d Hl Hd. destruct (nth_in_or_default n l d) as [H| ->].
  - rewrite Forall_forall in Hl. now apply Hl.
  - exact Hd.
Qed.

Lemma robust_hausdorff_self : forall sd percent,
  Forall zero_dist (distances_gt_to_pred sd) ->
  Forall zero_dist (distances_pred_to_gt sd) ->
  zero_dist (surfdist.compute_robust_hausdorff (Some sd) percent).
Proof.
  intros sd percent Hg Hp. unfold surfdist.compute_robust_hausdorff.
  assert (H : forall l, Forall zero_dist l ->
                        zero_dist (surfdist.percentile percent l)).
  { intros l Hl. unfold surfdist.percentile.
    apply nth_Forall; [now apply py_sorted_Forall|reflexivity]. }
  destruct (dist_max_cases
              (surfdist.percentile percent (distances_gt_to_pred sd))
              (surfdist.percentile percent (distances_pred_to_gt sd)))
    as [-> | ->]; now apply H.
Qed.

Lemma card_inter_self : forall m, card_inter m m = card m.
Proof.
  intros m. unfold card_inter, card. do 2 f_equal.
  apply filter_ext. intros p. apply andb_diag.
Qed.

Lemma dice_self : forall m,
  (0 < card m)%Z ->
  exists q,
    compute_dice_coefficient m m = Ok (Fin q)
    /\ consecutive_dice m m = Ok (Fin q)
    /\ q == 1.
Proof.
  intros m Hc.
  destruct (dice_nonempty m m eq_refl) as [H1 H2]; [lia|].
  eexists. split; [exact H1|]. split; [exact H2|].
  rewrite card_inter_self.
  replace (2 * card m)%Z with (card m + card m)%Z by lia.
  apply Qmult_inv_r. intros H.
  unfold Qeq, inject_Z in H. cbn [Qnum Qden] in H. lia.
Qed.

(** ** Labels *)

Lemma insert_unique_in : forall x y l,
  In y (insert_unique x l) <-> y = x \/ In y l.
Proof.
  intros x y. induction l as [|z l IH]; cbn [insert_unique].
  - cbn. intuition.
  - destruct (Z.ltb_spec x z); [cbn; intuition|].
    destruct (Z.eqb_spec x z) as [->|]; cbn; rewrite ?IH; intuition.
Qed.

Lemma np_unique_in : forall x l, In x (np_unique l) <-> In x l.
Proof.
  intros x. induction l as [|y l IH]; cbn [np_unique fold_right].
  - reflexivity.
  - fold (np_unique l). rewrite insert_unique_in, IH. cbn. intuition.
Qed.

Lemma label_present : forall (v : ndarray Z) lbl,
  In lbl (ravel v) -> (0 < card (np_eq v lbl))%Z.
Proof.
  intros v lbl H. apply card_positive. unfold ravel in H.
  apply in_map_iff in H as (p & E & Hp).
  exists p. cbn [np_eq shape at_index]. split; [exact Hp|].
  now apply Z.eqb_eq.
Qed.

Lemma mapM_Forall2 : forall (A B : Type) (f : A -> result B)
    (P : A -> B -> Prop) l,
  (forall x, In x l -> exists y, f x = Ok y /\ P x y) ->
  exists ys, mapM f l = Ok ys /\ Forall2 P l ys.
Proof.
  intros A B f P. induction l as [|x l IH]; intros H.
  - exists []. split; [reflexivity|constructor].
  - destruct (H x (or_introl eq_refl)) as (y & Ey & Py).
    destruct IH as (ys & Eys & Pys); [intros z Hz; apply H; now right|].
    exists (y :: ys). cbn [mapM]. rewrite Ey, Eys.
    split; [reflexivity|now constructor].
Qed.

Lemma Forall2_in_l : forall (A B : Type) (P : A -> B -> Prop) l ys x,
  Forall2 P l ys -> In x l -> exists y, In y ys /\ P x y.
Proof.
  intros A B P l ys x H. induction H as [|a b l ys Hab H IH]; intros Hx.
  - destruct Hx.
  - destruct Hx as [->|Hx]; [exists b; split; [now left|exact Hab]|].
    destruct (IH Hx) as (y & Hy & Py). exists y. split; [now right|exact Py].
Qed.

Lemma Forall2_in_r : forall (A B : Type) (P : A -> B -> Prop) l ys y,
  Forall2 P l ys -> In y ys -> exists x, In x l /\ P x y.
Proof.
  intros A B P l ys y H. induction H as [|a b l ys Hab H IH]; intros Hy.
  - destruct Hy.
  - destruct Hy as [->|Hy]; [exists a; split; [now left|exact Hab]|].
    destruct (IH Hy) as (x & Hx & Px). exists x. split; [now right|exact Px].
Qed.

(** ** A volume against itself *)

Lemma surface_metrics_self : forall m spacing,
  (0 < card m)%Z ->
  surfdist.compute_surface_dice_at_tolerance
    (surfdist.compute_surface_distances m m spacing) 1 == 1
  /\ zero_dist
       (surfdist.compute_robust_hausdorff
          (surfdist.compute_surface_distances m m spacing) 95).
Proof.
  intros m spacing Hc.
  unfold surfdist.compute_surface_dice_at_tolerance,
    surfdist.compute_surface_distances.
  destruct (surface_distances_self m spacing Hc)
    as (sd & -> & Hg & Hp & Hne & Ag & Ap & _).
  split.
  - now apply surface_dice_self.
  - now apply robust_hausdorff_self.
Qed.

Lemma session_pair_row_self : forall v spacing ses1 ses2 lbl,
  In lbl (ravel v) ->
  exists r,
    session_pair_row v v spacing ses1 ses2 lbl = Ok r
    /\ label r = lbl /\ perfect_agreement r.
Proof.
  intros v spacing ses1 ses2 lbl Hin. unfold session_pair_row.
  pose proof (label_present v lbl Hin) as Hc.
  destruct (dice_self _ Hc) as (q & -> & _ & Hq).
  destruct (surface_metrics_self _ spacing Hc) as [Hs Hh].
  cbn [bind]. eexists. split; [reflexivity|]. split; [reflexivity|].
  unfold perfect_agreement.
  cbn [dice surface_dice hd95 volume_diff volume1 volume2].
  repeat split; try assumption.
  - now exists q.
  - ring.
Qed.

Lemma consecutive_row_self : forall v spacing lbl,
  exists r,
    consecutive_row v v spacing lbl = Ok r
    /\ label r = lbl
    /\ (In lbl (ravel v) -> perfect_agreement r).
Proof.
  intros v spacing lbl. unfold consecutive_row.
  pose proof (card_nonneg (np_eq v lbl)) as Hn.
  destruct (Z.eq_dec (card (np_eq v lbl)) 0) as [E|E].
  - destruct (dice_empty (np_eq v lbl) (np_eq v lbl) E E) as [_ ->].
    cbn [bind].
    eexists. split; [reflexivity|]. split; [reflexivity|].
    intros Hin. apply label_present in Hin. lia.
  - assert (Hc : (0 < card (np_eq v lbl))%Z) by lia.
    destruct (dice_self _ Hc) as (q & _ & -> & Hq).
    destruct (surface_metrics_self _ spacing Hc) as [Hs Hh].
    cbn [bind]. eexists. split; [reflexivity|]. split; [reflexivity|].
    intros _. unfold perfect_agreement.
    cbn [dice surface_dice hd95 volume_diff volume1 volume2].
    repeat split; try assumption.
    + now exists q.
    + ring.
Qed.

Lemma shape_eqb_refl : forall sh, shape_eqb sh sh = true.
Proof.
  intros [[a b] c]. unfold shape_eqb. now rewrite !Nat.eqb_refl.
Qed.

(** C8.  Two sessions whose files hold one and the same image.  The
    all-pairs tool returns a row for each non-zero label of the volume and
    no other row; the consecutive tool returns a row for each requested
    label.  Every such row of a label that is present in the volume
    reports [dice = 1], [surface_dice = 1], [hd95 = 0], [volume_diff = 0]
    and [volume1 = volume2]. *)
Theorem self_comparison_is_perfect :
  forall (fs : disk) (img : image) (sessions : PyDict.dict path)
         (ses1 ses2 : string) (path1 path2 : path) (labels : list Z),
    PyDict.get sessions ses1 = Some path1 ->
    PyDict.get sessions ses2 = Some path2 ->
    fs path1 = Some img ->
    fs path2 = Some img ->
    (exists rows,
        process_session_pair fs sessions ses1 ses2 = Ok rows
        /\ (forall lbl,
               In lbl (ravel (get_fdata img)) -> lbl <> 0%Z ->
               exists r, In r rows /\ label r = lbl)
        /\ (forall r,
               In r rows ->
               In (label r) (ravel (get_fdata img)) /\ perfect_agreement r))
    /\ (exists rows,
           compute_metrics fs path1 path2 labels = Ok (Some rows)
           /\ (forall lbl, In lbl labels -> exists r, In r rows /\ label r = lbl)
           /\ (forall r,
                  In r rows ->
                  In (label r) (ravel (get_fdata img)) ->
                  perfect_agreement r)).
Proof.
  intros fs img sessions ses1 ses2 path1 path2 labels G1 G2 L1 L2.
  set (v := get_fdata img). split.
  - unfold process_session_pair, subscript, load.
    rewrite G1, G2. cbn [bind]. rewrite L1, L2. cbn [bind].
    fold v. unfold unique_of_concatenate.
    destruct (shape v) as [[nx ny] nz]. rewrite !Nat.eqb_refl.
    cbn [andb bind].
    set (ls := filter (fun l => negb (l =? 0)%Z)
                      (np_unique (ravel v ++ ravel v))).
    assert (Hls : forall lbl, In lbl ls <-> In lbl (ravel v) /\ lbl <> 0%Z).
    { intros lbl. unfold ls. rewrite filter_In, np_unique_in, in_app_iff.
      destruct (Z.eqb_spec lbl 0); cbn; intuition congruence. }
    destruct (mapM_Forall2 _ _
                (session_pair_row v v (get_zooms img) ses1 ses2)
                (fun lbl r => label r = lbl /\ perfect_agreement r) ls)
      as (rows & -> & HF).
    { intros lbl Hl. apply Hls in Hl as [Hl _].
      now apply session_pair_row_self. }
    exists rows. split; [reflexivity|]. split.
    + intros lbl Hin Hnz.
      destruct (Forall2_in_l _ _ _ _ _ lbl HF) as (r & Hr & Hlab & _).
      { now apply Hls. }
      now exists r.
    + intros r Hr.
      destruct (Forall2_in_r _ _ _ _ _ r HF Hr) as (lbl & Hl & Hlab & Hp).
      split; [|exact Hp]. rewrite Hlab. now apply Hls.
  - unfold compute_metrics, load. rewrite L1, L2. cbn [bind].
    fold v. rewrite shape_eqb_refl. cbn [negb].
    destruct (mapM_Forall2 _ _ (consecutive_row v v (get_zooms img))
                (fun lbl r =>
                   label r = lbl /\ (In lbl (ravel v) -> perfect_agreement r))
                labels)
      as (rows & -> & HF).
    { intros lbl _. apply consecutive_row_self. }
    exists rows. cbn [bind]. split; [reflexivity|]. split.
    + intros lbl Hin.
      destruct (Forall2_in_l _ _ _ _ _ lbl HF Hin) as (r & Hr & Hlab & _).
      now exists r.
    + intros r Hr Hin.
      destruct (Forall2_in_r _ _ _ _ _ r HF Hr) as (lbl & Hl & Hlab & Hp).
      apply Hp. now rewrite <- Hlab.
Qed.

(** A witness of C8, the scenario of the specification: the cube compared
    with itself, by the all-pairs tool and, for the labels 17 and 18, by
    the consecutive tool. *)
Lemma cube_against_itself :
  (exists rows,
      process_session_pair (disk_of cube_image cube_image cube_image)
        three_sessions "ses-1" "ses-2" = Ok rows
      /\ (forall lbl,
             In lbl (ravel cube_volume) -> lbl <> 0%Z ->
             exists r, In r rows /\ label r = lbl)
      /\ (forall r,
             In r rows ->
             In (label r) (ravel cube_volume) /\ perfect_agreement r))
  /\ (exists rows,
         compute_metrics (disk_of cube_image cube_image cube_image)
           (aparc_path "ses-1") (aparc_path "ses-2") [17; 18]%Z
         = Ok (Some rows)
         /\ (forall lbl,
                In lbl [17; 18]%Z -> exists r, In r rows /\ label r = lbl)
         /\ (forall r,
                In r rows ->
                In (label r) (ravel cube_volume) -> perfect_agreement r)).
Proof.
  exact (self_comparison_is_perfect
           (disk_of cube_image cube_image cube_image) cube_image
           three_sessions "ses-1" "ses-2"
           (aparc_path "ses-1") (aparc_path "ses-2") [17; 18]%Z
           eq_refl eq_refl eq_refl eq_refl).
Defined.

(** The numbers of the scenario: one row, of the label 17, with the
    volumes 27 and the metrics of complete agreement. *)
Lemma cube_scenario_values :
  match process_session_pair (disk_of cube_image cube_image cube_image)
          three_sessions "ses-1" "ses-2" with
  | Ok [r] =>
      (label r =? 17)%Z
      && Qeq_bool (volume1 r) 27 && Qeq_bool (volume2 r) 27
      && Qeq_bool (volume_diff r) 0
      && match dice r with Fin q => Qeq_bool q 1 | NaN => false end
      && Qeq_bool (surface_dice r) 1
      && Qeq_bool (sq (hd95 r)) 0
  | _ => false
  end = true.
Proof.
  vm_compute. reflexivity.
Qed.

(** ** The buffer of [process_subject] *)

Lemma flush_if_full_below : forall chunk_size st,
  below_chunk chunk_size (flush_if_full chunk_size st).
Proof.
  intros c st. unfold flush_if_full, below_chunk.
  destruct (Z.leb_spec c (Z.of_nat (List.length (buffer st))));
    cbn [buffer List.length]; lia.
Qed.

Lemma process_pairs_app : forall fs subj sessions chunk_size done rest st,
  process_pairs fs subj sessions chunk_size (done ++ rest) st
  = match process_pairs fs subj sessions chunk_size done st with
    | Done st' => process_pairs fs subj sessions chunk_size rest st'
    | Aborted e st' => Aborted e st'
    end.
Proof.
  intros fs subj sessions c. induction done as [|[s1 s2] done IH];
    intros rest st; cbn [app process_pairs]; [reflexivity|].
  destruct (process_session_pair fs sessions s1 s2); [apply IH|reflexivity].
Qed.

Lemma process_pairs_below : forall fs subj sessions chunk_size pairs st,
  below_chunk chunk_size st ->
  match process_pairs fs subj sessions chunk_size pairs st with
  | Done st' => below_chunk chunk_size st'
  | Aborted _ st' => below_chunk chunk_size st'
  end.
Proof.
  intros fs subj sessions c. induction pairs as [|[s1 s2] pairs IH];
    intros st Hst; cbn [process_pairs]; [exact Hst|].
  destruct (process_session_pair fs sessions s1 s2); [|exact Hst].
  apply IH, flush_if_full_below.
Qed.

(** C3 (as the code has it).  When the loop of [process_subject] has
    handled some of the pairs and comes to the next one, the buffer holds
    fewer rows than the chunk size (none when the chunk size is below 1).
    All rows of the pair are then added at once, and only after that is
    the length compared with the chunk size, so until the flush the buffer
    holds those rows on top of what it held; after the check it is again
    below the chunk size.  The buffer that the loop leaves behind, at its
    end or at an exception, is below the chunk size as well. *)
Theorem buffer_is_below_chunk_between_pairs :
  forall (fs : disk) (subj : string) (sessions : PyDict.dict path)
         (w : writer_state) (chunk_size : Z)
         (done rest : list (string * string)) (ses1 ses2 : string)
         (st : loop_state) (session_results : list MetricRow),
    all_pairs sessions = done ++ (ses1, ses2) :: rest ->
    process_pairs fs subj sessions chunk_size done
      {| buffer := []; out := w |} = Done st ->
    process_session_pair fs sessions ses1 ses2 = Ok session_results ->
    below_chunk chunk_size st
    /\ List.length (buffer (extend_buffer subj st session_results))
       = (List.length (buffer st) + List.length session_results)%nat
    /\ below_chunk chunk_size
         (flush_if_full chunk_size (extend_buffer subj st session_results))
    /\ process_pairs fs subj sessions chunk_size (all_pairs sessions)
         {| buffer := []; out := w |}
       = process_pairs fs subj sessions chunk_size rest
           (flush_if_full chunk_size (extend_buffer subj st session_results))
    /\ match process_pairs fs subj sessions chunk_size (all_pairs sessions)
               {| buffer := []; out := w |} with
       | Done st' => below_chunk chunk_size st'
       | Aborted _ st' => below_chunk chunk_size st'
       end.
Proof.
  intros fs subj sessions w c done rest s1 s2 st rs Hp Hd Hr.
  split; [|split; [|split; [|split]]];
    [| | | |apply process_pairs_below; unfold below_chunk; cbn; lia].
  - pose proof (process_pairs_below fs subj sessions c done
                  {| buffer := []; out := w |}) as H.
    rewrite Hd in H. apply H. unfold below_chunk. cbn. lia.
  - unfold extend_buffer. cbn [buffer]. now rewrite length_app, length_map.
  - apply flush_if_full_below.
  - rewrite Hp, process_pairs_app, Hd. cbn [process_pairs]. now rewrite Hr.
Qed.

(** A witness of C3: three sessions whose volumes have six labels, and
    the default chunk size 5, at the first pair. *)
Lemma six_labels_first_pair :
  all_pairs three_sessions
  = [] ++ ("ses-1"%string, "ses-2"%string)
       :: [("ses-1", "ses-3"); ("ses-2", "ses-3")]%string
  /\ below_chunk 5 {| buffer := []; out := open_writer None |}
  /\ List.length
       (buffer (extend_buffer "simon"
                  {| buffer := []; out := open_writer None |} six_rows))
     = (0 + 6)%nat
  /\ below_chunk 5
       (flush_if_full 5
          (extend_buffer "simon"
             {| buffer := []; out := open_writer None |} six_rows)).
Proof.
  split; [reflexivity|].
  destruct (buffer_is_below_chunk_between_pairs
              (disk_of six_labels_image six_labels_image six_labels_image)
              "simon" three_sessions (open_writer None) 5
              [] [("ses-1", "ses-3"); ("ses-2", "ses-3")]%string
              "ses-1" "ses-2"
              {| buffer := []; out := open_writer None |} six_rows
              eq_refl eq_refl eq_refl) as (H1 & H2 & H3 & _ & _).
  split; [exact H1|]. split; [exact H2|exact H3].
Defined.

(** C3, the claim as stated fails: with the chunk size 5, the six rows of
    one pair are all in the buffer before the length is looked at, and
    they are written as one chunk of six. *)
Lemma buffer_exceeds_chunk_size :
  let fs := disk_of six_labels_image six_labels_image six_labels_image in
  let st0 := {| buffer := []; out := open_writer None |} in
  let two_sessions :=
    [("ses-1", aparc_path "ses-1"); ("ses-2", aparc_path "ses-2")]%string in
  process_session_pair fs two_sessions "ses-1" "ses-2" = Ok six_rows
  /\ List.length (buffer (extend_buffer "simon" st0 six_rows)) = 6%nat
  /\ (Z.of_nat (List.length (buffer (extend_buffer "simon" st0 six_rows)))
      <=? 5)%Z = false
  /\ match process_subject fs "simon" two_sessions (open_writer None) 5 with
     | Done st =>
         destination (out st)
         = Some (Header columns_of_rows
                   :: map Data (map (set_subject "simon") six_rows))
     | Aborted _ _ => False
     end.
Proof.
  vm_compute. repeat split.
Qed.

(** ** Volumes of different shapes *)

Lemma shape_eqb_neq : forall s t, s <> t -> shape_eqb s t = false.
Proof.
  intros [[a b] c] [[x y] z] H. unfold shape_eqb.
  destruct (Nat.eqb_spec a x), (Nat.eqb_spec b y), (Nat.eqb_spec c z);
    try reflexivity.
  subst. congruence.
Qed.

Lemma compute_metrics_skips_mismatch :
  forall (fs : disk) path1 path2 img1 img2 labels,
    fs path1 = Some img1 -> fs path2 = Some img2 ->
    shape (get_fdata img1) <> shape (get_fdata img2) ->
    compute_metrics fs path1 path2 labels = Ok None.
Proof.
  intros fs path1 path2 img1 img2 labels H1 H2 Hs.
  unfold compute_metrics, load. rewrite H1, H2. cbn [bind].
  now rewrite (shape_eqb_neq _ _ Hs).
Qed.

Lemma concatenate_raises_on_mismatch :
  forall (fs : disk) sessions ses1 ses2 path1 path2 img1 img2,
    PyDict.get sessions ses1 = Some path1 ->
    PyDict.get sessions ses2 = Some path2 ->
    fs path1 = Some img1 -> fs path2 = Some img2 ->
    snd (fst (shape (get_fdata img1))) <> snd (fst (shape (get_fdata img2)))
    \/ snd (shape (get_fdata img1)) <> snd (shape (get_fdata img2)) ->
    process_session_pair fs sessions ses1 ses2 = Raise ValueError.
Proof.
  intros fs sessions ses1 ses2 path1 path2 img1 img2 G1 G2 L1 L2 Hs.
  unfold process_session_pair, subscript, load.
  rewrite G1, G2. cbn [bind]. rewrite L1, L2. cbn [bind].
  unfold unique_of_concatenate.
  destruct (shape (get_fdata img1)) as [[nx1 ny1] nz1].
  destruct (shape (get_fdata img2)) as [[nx2 ny2] nz2].
  cbn [fst snd] in Hs.
  destruct (Nat.eqb_spec ny1 ny2), (Nat.eqb_spec nz1 nz2);
    cbn [andb bind]; try reflexivity.
  destruct Hs; contradiction.
Qed.

(** C5, at the input on which the code fails.  The files of three
    sessions hold volumes of 1 x 1 x 2, 1 x 1 x 3 and 1 x 1 x 3 voxels.
    The consecutive tool returns no result for a pair of volumes of
    different shapes, whatever the volumes are; here it lists the first
    pair as skipped and goes on to the second, for which it records a row.
    The all-pairs tool has no such test: [process_session_pair] raises
    [ValueError] on the first pair, [process_subject] passes the exception
    on, and the run ends with no file written, the pair of the two equal
    shapes never reached. *)
Theorem all_pairs_tool_aborts_on_shape_mismatch :
  let fs := disk_of short_image long_image long_image in
  (forall (fs : disk) path1 path2 img1 img2 labels,
      fs path1 = Some img1 -> fs path2 = Some img2 ->
      shape (get_fdata img1) <> shape (get_fdata img2) ->
      compute_metrics fs path1 path2 labels = Ok None)
  /\ (exists st,
         consecutive_subjects fs [] [17%Z] [("simon"%string, three_sessions)]
           {| rows := []; skipped := [] |} = Ok st
         /\ skipped st = [("ses-1", "ses-2")]%string
         /\ map (fun r => (session1 r, session2 r, label r)) (rows st)
            = [(Some "ses-2", Some "ses-3", 17%Z)]%string)
  /\ process_session_pair fs three_sessions "ses-1" "ses-2"
     = Raise ValueError
  /\ process_subject fs "simon" three_sessions (open_writer None) 5
     = Aborted ValueError {| buffer := []; out := open_writer None |}
  /\ process_subjects fs [("simon"%string, three_sessions)] 5
       (open_writer None)
     = (Raise ValueError, open_writer None).
Proof.
  intros fs. split; [exact compute_metrics_skips_mismatch|].
  split; [|repeat split].
  eexists. split; [vm_compute; reflexivity|]. split; reflexivity.
Qed.

(** ** Instances *)

(** The resolver rules of C6 at the run directory of the specification. *)
Lemma pooled_run_directory :
  parse_subject_session "ses-017.long.simonBase_all_2025"
  = ("simon", "ses-017.long.simonBase_all_2025")%string
  /\ resolve_segmentation (aparc_path "ses-017.long.simonBase_all_2025")
     = ("long.simonBase_all_2025", "ses-017.long.simonBase_all_2025")%string.
Proof.
  destruct identity_resolver_conventions as (_ & H2 & _ & H4).
  split.
  - exact (H2 "ses-017.long.simonBase_all_2025"%string eq_refl).
  - exact (H4 (aparc_path "ses-017.long.simonBase_all_2025")
              eq_refl eq_refl).
Defined.

(** The key of C7 at a run directory with a numeric token and at one
    without. *)
Lemma keys_of_two_run_directories :
  session_sort_key "ses-017.long.simonBase_all_2025" = KeyNum 17
  /\ session_sort_key "sub-01_ses-siteATV" = KeyStr "sub-01_ses-siteATV".
Proof.
  destruct session_sort_key_buckets as (_ & H2 & H3 & _).
  split.
  - exact (H3 "017"%string ".long.simonBase_all_2025"%string
              (fun E => match E with end) eq_refl eq_refl).
  - apply H2. intros (pre & d & post & E & Hne & Hd).
    assert (H : search_ses "sub-01_ses-siteATV" <> None).
    { destruct (search_ses_complete "sub-01_ses-siteATV") as [d' Hd'].
      - now exists pre, d, post.
      - congruence. }
    now apply H.
Defined.

(** The selector of C9 on one set of sessions met in two orders. *)
Lemma same_pairs_in_two_orders :
  let run1 :=
    [("ses-2", aparc_path "ses-2"); ("ses-10", aparc_path "ses-10");
     ("ses-1", aparc_path "ses-1")]%string in
  let run2 :=
    [("ses-1", aparc_path "ses-1"); ("ses-2", aparc_path "ses-2");
     ("ses-10", aparc_path "ses-10")]%string in
  all_pairs run1 = all_pairs run2
  /\ consecutive_pairs run1 = consecutive_pairs run2
  /\ consecutive_pairs run1
     = [("ses-1", "ses-2"); ("ses-2", "ses-10")]%string.
Proof.
  intros run1 run2.
  assert (HP : Permutation (PyDict.keys run1) (PyDict.keys run2)).
  { apply Permutation_sym.
    exact (Permutation_cons_append ["ses-2"; "ses-10"]%string
             "ses-1"%string). }
  destruct pairs_independent_of_discovery_order as [H1 H2].
  split; [exact (H1 _ run1 run2 HP)|].
  split; [|reflexivity].
  apply (H2 _ run1 run2 HP).
  repeat constructor; cbn; intuition discriminate.
Defined.

(* ====================================================================== *)
(** * Part III.  Further properties of the two tools                      *)
(* ====================================================================== *)

(** ** Splitting and searching strings *)

Lemma contains_eq : forall sep s,
  PyStr.contains sep s
  = String.prefix sep s
    || match s with
       | EmptyString => false
       | String _ s' => PyStr.contains sep s'
       end.
Proof.
  intros sep [|c s]; reflexivity.
Qed.


(** [sep in s] holds exactly when [s] can be cut around a copy of [sep]. *)
Lemma contains_iff : forall sep s,
  PyStr.contains sep s = true
  <-> exists pre post, s = (pre ++ sep ++ post)%string.
Proof.
  intros sep s. split.
  - induction s as [|c s IH]; rewrite contains_eq; intros H;
      apply orb_prop in H as [H|H]; try discriminate.
    + exists EmptyString, (PyStr.drop (String.length sep) EmptyString).
      now apply prefix_drop.
    + exists EmptyString, (PyStr.drop (String.length sep) (String c s)).
      now apply prefix_drop.
    + destruct (IH H) as (pre & post & ->).
      now exists (String c pre), post.
  - intros (pre & post & ->). induction pre as [|c pre IH].
    + rewrite contains_eq. cbn [String.append]. now rewrite prefix_app.
    + cbn [String.append]. rewrite contains_eq, IH. apply orb_true_r.
Qed.



Lemma span_spec : forall p s,
  s = (fst (PyStr.span p s) ++ snd (PyStr.span p s))%string
  /\ all_chars p (fst (PyStr.span p s)) = true
  /\ match snd (PyStr.span p s) with
     | EmptyString => True
     | String c _ => p c = false
     end.
Proof.
  intros p. induction s as [|c s (IH1 & IH2 & IH3)]; [repeat split|].
  cbn [PyStr.span]. destruct (p c) eqn:E.
  - destruct (PyStr.span p s) as [a r]. cbn in *.
    rewrite E. repeat split; [now f_equal|exact IH2|exact IH3].
  - cbn. repeat split. exact E.
Qed.

Lemma span_app : forall p a r,
  all_chars p a = true ->
  match r with EmptyString => True | String c _ => p c = false end ->
  PyStr.span p (a ++ r) = (a, r).
Proof.
  intros p. induction a as [|c a IH]; intros r Ha Hr.
  - destruct r as [|c r]; [reflexivity|]. cbn in *. now rewrite Hr.
  - cbn in Ha. apply andb_prop in Ha as [Hc Ha].
    cbn [String.append PyStr.span]. now rewrite Hc, IH.
Qed.

Lemma string_length_app : forall a b,
  String.length (a ++ b) = (String.length a + String.length b)%nat.
Proof.
  induction a as [|c a IH]; intros b; [reflexivity|].
  cbn. now rewrite IH.
Qed.

Lemma endswith_app : forall a suffix, PyStr.endswith suffix (a ++ suffix) = true.
Proof.
  intros a suffix. unfold PyStr.endswith. rewrite string_length_app.
  replace (String.length a + String.length suffix - String.length suffix)%nat
    with (String.length a) by lia.
  rewrite drop_app, String.eqb_refl, andb_true_r.
  apply Nat.leb_le. lia.
Qed.

Lemma string_app_assoc : forall a b c : string,
  ((a ++ b) ++ c = a ++ b ++ c)%string.
Proof.
  induction a as [|x a IH]; intros b c; [reflexivity|].
  cbn. now rewrite IH.
Qed.

(** ** The resolver of the all-pairs tool *)




(** ** The longitudinal filter *)

Lemma parent_snoc : forall (q : path) x, q <> [] -> parent (q ++ [x]) = q.
Proof.
  intros [|a q] x H; [congruence|]. unfold parent.
  change ((a :: q) ++ [x]) with (a :: (q ++ [x])).
  destruct (q ++ [x]) as [|b l] eqn:E; [now destruct q|].
  rewrite <- E. change (a :: q ++ [x]) with ((a :: q) ++ [x]).
  apply removelast_last.
Qed.

Lemma is_long_path_run_dir : forall dir run_dir mri file,
  is_long_path (dir ++ [run_dir; mri; file])
  = PyStr.contains ".long." run_dir.
Proof.
  intros dir run_dir mri file. unfold is_long_path.
  rewrite length_app. cbn [List.length].
  destruct (Nat.ltb_spec (List.length dir + 3) 3) as [H|H]; [lia|].
  replace (List.length dir + 3 - 3)%nat with (List.length dir) by lia.
  now rewrite nth_middle.
Qed.

Lemma last_three : forall (A : Type) (p : list A),
  (3 <= List.length p)%nat -> exists dir a b c, p = dir ++ [a; b; c].
Proof.
  intros A p H.
  destruct (exists_last (l := p)) as (p1 & c & ->); [now destruct p|].
  rewrite length_app in H. cbn in H.
  destruct (exists_last (l := p1)) as (p2 & b & ->);
    [destruct p1; [cbn in H; lia|discriminate]|].
  rewrite length_app in H. cbn in H.
  destruct (exists_last (l := p2)) as (dir & a & ->);
    [destruct p2; [cbn in H; lia|discriminate]|].
  exists dir, a, b, c. now rewrite <- !app_assoc.
Qed.

(** A path that [is_long_path] accepts lies in a run directory, the one
    that the resolver reads, whose name holds [.long.]. *)
Lemma is_long_path_resolved : forall p,
  is_long_path p = true ->
  PyStr.contains ".long." (name (parent (parent p))) = true.
Proof.
  intros p H.
  assert (Hlen : (3 <= List.length p)%nat).
  { unfold is_long_path in H.
    destruct (Nat.ltb_spec (List.length p) 3); [discriminate|assumption]. }
  destruct (last_three _ p Hlen) as (dir & a & b & c & ->).
  rewrite is_long_path_run_dir in H.
  replace (dir ++ [a; b; c]) with ((dir ++ [a; b]) ++ [c])
    by now rewrite <- app_assoc.
  rewrite parent_snoc by now destruct dir.
  replace (dir ++ [a; b]) with ((dir ++ [a]) ++ [b])
    by now rewrite <- app_assoc.
  rewrite parent_snoc by now destruct dir.
  destruct dir as [|d dir].
  - cbn [app name]. destruct (String.eqb_spec a root) as [->|]; [|exact H].
    discriminate H.
  - destruct (String.eqb_spec a root) as [->|Hr]; [discriminate H|].
    change ((d :: dir) ++ [a]) with (join (d :: dir) a).
    rewrite name_join; [exact H|now apply String.eqb_neq].
Qed.

Lemma in_collect_dkt_files : forall walk long_only f,
  In f (collect_dkt_files walk long_only)
  <-> exists dir files,
        In (dir, files) walk
        /\ In FREESURFER_APARC_FILE files
        /\ f = join dir FREESURFER_APARC_FILE
        /\ (long_only = true -> is_long_path f = true).
Proof.
  intros walk lo f. unfold collect_dkt_files. rewrite in_flat_map. split.
  - intros ([dir files] & Hw & Hf). unfold collect_in_dir in Hf.
    apply in_flat_map in Hf as (file & Hfile & Hf).
    destruct (String.eqb_spec file FREESURFER_APARC_FILE) as [->|];
      [|destruct Hf].
    destruct lo; cbn [andb] in Hf.
    + destruct (is_long_path (join dir FREESURFER_APARC_FILE)) eqn:L;
        cbn in Hf; [|destruct Hf].
      destruct Hf as [<-|[]]. exists dir, files. now repeat split.
    + destruct Hf as [<-|[]]. exists dir, files.
      repeat split; try assumption. discriminate.
  - intros (dir & files & Hw & Hfile & -> & Hl).
    exists (dir, files). split; [exact Hw|]. unfold collect_in_dir.
    apply in_flat_map. exists FREESURFER_APARC_FILE. split; [exact Hfile|].
    rewrite String.eqb_refl. destruct lo; cbn [andb].
    + rewrite Hl by reflexivity. now left.
    + now left.
Qed.

Lemma index_files_entry : forall subjects files subj sess f,
  PyDict.get2 (index_files subjects files) subj sess = Some f ->
  In f files /\ indexed_as subjects subj sess f = true.
Proof.
  intros subjects files subj sess f H.
  rewrite index_files_last in H. unfold last_such in H.
  apply find_some in H as [Hin Hp]. split; [|exact Hp].
  now apply in_rev.
Qed.

Lemma indexed_as_true : forall subjects subj sess f,
  indexed_as subjects subj sess f = true ->
  parse_subject_session (name (parent (parent f))) = (subj, sess)
  /\ filtered_out subjects subj = false.
Proof.
  intros subjects subj sess f. unfold indexed_as.
  destruct (parse_subject_session (name (parent (parent f)))) as [s e].
  intros H. apply andb_prop in H as [H He].
  apply andb_prop in H as [Hf Hs].
  apply String.eqb_eq in He, Hs. subst.
  split; [reflexivity|]. now apply negb_true_iff.
Qed.

Lemma parse_session : forall run_dir s e,
  parse_subject_session run_dir = (s, e) -> e = run_dir.
Proof.
  intros run_dir s e. unfold parse_subject_session.
  destruct (PyStr.startswith "sub-" run_dir),
    (PyStr.startswith "ses-" run_dir); now intros [= _ <-].
Qed.

(** X2.  Every entry of the index that [calculate_session_metrics] builds
    is a file named [aparc.DKTatlas+aseg.mgz] that the walk met, filed
    under the name of its run directory as the session and under a
    subject that passes the filter; under [--long-only] the session name
    holds [.long.]. *)
Theorem index_entries_come_from_the_walk :
  forall walk long_only subjects subj sess f,
    PyDict.get2
      (index_files subjects (collect_dkt_files walk long_only)) subj sess
    = Some f ->
    (exists dir files,
        In (dir, files) walk /\ In FREESURFER_APARC_FILE files
        /\ f = join dir FREESURFER_APARC_FILE)
    /\ sess = name (parent (parent f))
    /\ filtered_out subjects subj = false
    /\ (long_only = true -> PyStr.contains ".long." sess = true).
Proof.
  intros walk lo subjects subj sess f H.
  apply index_files_entry in H as [Hin Hi].
  apply indexed_as_true in Hi as [Hp Hf].
  apply parse_session in Hp as Hs.
  apply in_collect_dkt_files in Hin as (dir & files & Hw & Hfile & E & Hl).
  split; [now exists dir, files|]. split; [exact Hs|]. split; [exact Hf|].
  intros ->. rewrite Hs. apply is_long_path_resolved. now apply Hl.
Qed.

(** A witness of X2: a tree with a cross-sectional and a longitudinal run
    of one session, indexed under [--long-only]. *)
Lemma long_only_index_entry :
  let walk :=
    [(["/"; "fs"; "ses-001"; "mri"], ["aparc.DKTatlas+aseg.mgz"]);
     (["/"; "fs"; "ses-001.long.base"; "mri"],
      ["orig.mgz"; "aparc.DKTatlas+aseg.mgz"])]%string in
  PyDict.keys (index_files None (collect_dkt_files walk true))
    = ["simon"%string]
  /\ PyStr.contains ".long." "ses-001.long.base" = true
  /\ "ses-001.long.base"%string
     = name (parent (parent (aparc_path "ses-001.long.base"))).
Proof.
  intros walk. split; [reflexivity|].
  destruct (index_entries_come_from_the_walk walk true None
              "simon" "ses-001.long.base" (aparc_path "ses-001.long.base")
              eq_refl) as (_ & H2 & _ & H4).
  split; [exact (H4 eq_refl)|exact H2].
Defined.

(** ** The resolver and the search of the consecutive tool *)

Lemma match_flat_complete : forall a b rest,
  a <> EmptyString -> b <> EmptyString ->
  all_chars not_underscore a = true -> all_chars not_underscore b = true ->
  match_flat ("sub-" ++ a ++ "_ses-" ++ b ++ "_aparcDKT+aseg.mgz" ++ rest)
  = Some (("sub-" ++ a)%string, ("ses-" ++ b)%string).
Proof.
  intros a b rest Ha Hb Ua Ub. unfold match_flat, PyStr.startswith.
  change 5%nat with (String.length "_ses-").
  change 4%nat with (String.length "sub-").
  rewrite prefix_app, drop_app.
  rewrite span_app by (assumption || reflexivity).
  destruct a as [|c a]; [congruence|].
  rewrite prefix_app, drop_app.
  rewrite span_app by (assumption || reflexivity).
  destruct b as [|c' b]; [congruence|].
  now rewrite prefix_app.
Qed.

Lemma match_flat_sound : forall fname s e,
  match_flat fname = Some (s, e) ->
  exists a b rest,
    fname = ("sub-" ++ a ++ "_ses-" ++ b ++ "_aparcDKT+aseg.mgz" ++ rest)%string
    /\ s = ("sub-" ++ a)%string /\ e = ("ses-" ++ b)%string
    /\ a <> EmptyString /\ b <> EmptyString
    /\ all_chars not_underscore a = true
    /\ all_chars not_underscore b = true.
Proof.
  intros fname s e. unfold match_flat, PyStr.startswith.
  destruct (String.prefix "sub-" fname) eqn:P1; [|discriminate].
  apply prefix_drop in P1. cbn [String.length] in P1.
  destruct (span_spec not_underscore (PyStr.drop 4 fname)) as (E1 & U1 & _).
  destruct (PyStr.span not_underscore (PyStr.drop 4 fname)) as [a r1].
  cbn [fst snd] in E1, U1.
  destruct a as [|c a]; [discriminate|].
  destruct (String.prefix "_ses-" r1) eqn:P2; [|discriminate].
  apply prefix_drop in P2. cbn [String.length] in P2.
  destruct (span_spec not_underscore (PyStr.drop 5 r1)) as (E2 & U2 & _).
  destruct (PyStr.span not_underscore (PyStr.drop 5 r1)) as [b r2].
  cbn [fst snd] in E2, U2.
  destruct b as [|c' b]; [discriminate|].
  destruct (String.prefix "_aparcDKT+aseg.mgz" r2) eqn:P3; [|discriminate].
  apply prefix_drop in P3.
  intros [= <- <-].
  exists (String c a), (String c' b),
    (PyStr.drop (String.length "_aparcDKT+aseg.mgz") r2).
  repeat split; try assumption; try discriminate.
  rewrite <- P3, <- E2, <- P2, <- E1. exact P1.
Qed.

(** X3.  The flat-name rule of [find_segmentations].  A file name is of
    the flat form exactly when it reads [sub-A_ses-B_aparcDKT+aseg.mgz],
    possibly with more text behind, for non-empty [A] and [B] without
    underscore; the identity of such a file is then ([sub-A], [ses-B]),
    whatever directory it lies in.  A name that ends with
    [_aparcDKT+aseg.mgz] counts as a segmentation whatever the list
    [--aparc-names] holds. *)
Theorem flat_names_carry_their_identity :
  (forall fname s e,
      match_flat fname = Some (s, e)
      <-> exists a b rest,
            fname = ("sub-" ++ a ++ "_ses-" ++ b
                     ++ "_aparcDKT+aseg.mgz" ++ rest)%string
            /\ s = ("sub-" ++ a)%string /\ e = ("ses-" ++ b)%string
            /\ a <> EmptyString /\ b <> EmptyString
            /\ all_chars not_underscore a = true
            /\ all_chars not_underscore b = true)
  /\ (forall dir fname s e,
         match_flat fname = Some (s, e) ->
         resolve_segmentation (join dir fname) = (s, e))
  /\ (forall aparc_names a,
         is_segmentation_name aparc_names (a ++ "_aparcDKT+aseg.mgz") = true).
Proof.
  split; [|split].
  - intros fname s e. split; [apply match_flat_sound|].
    intros (a & b & rest & -> & -> & -> & Ha & Hb & Ua & Ub).
    now apply match_flat_complete.
  - intros dir fname s e H. unfold resolve_segmentation.
    rewrite name_join; [now rewrite H|].
    apply match_flat_sound in H as (a & b & rest & -> & _). reflexivity.
  - intros names a. unfold is_segmentation_name.
    rewrite endswith_app. apply orb_true_r.
Qed.

Lemma mem_In : forall x l, PyStr.mem x l = true <-> In x l.
Proof.
  intros x l. unfold PyStr.mem. rewrite existsb_exists. split.
  - intros (y & Hy & E). apply String.eqb_eq in E. now subst.
  - intros H. exists x. split; [exact H|apply String.eqb_refl].
Qed.

Lemma filtered_out_false : forall subjects s,
  filtered_out subjects s = false
  <-> match subjects with
      | Some (x :: l) => In s (x :: l)
      | _ => True
      end.
Proof.
  intros [[|x l]|] s; cbn [filtered_out truthy andb]; try tauto.
  rewrite negb_false_iff. apply mem_In.
Qed.

(** X4.  [find_segmentations] returns a record for a file exactly when
    the walk met the file, its name is one of [--aparc-names] or ends
    with [_aparcDKT+aseg.mgz], and its subject passes the filter; the
    record holds the identity that the resolver gives the path.  When a
    filter of subjects is given, every record is of a subject of the
    filter. *)
Theorem find_segmentations_finds_exactly_the_matches :
  forall walk aparc_names subject_filter s e p,
    (In (s, e, p) (find_segmentations walk aparc_names subject_filter)
     <-> exists dir files f,
           In (dir, files) walk /\ In f files
           /\ is_segmentation_name aparc_names f = true
           /\ p = join dir f
           /\ resolve_segmentation p = (s, e)
           /\ filtered_out subject_filter s = false)
    /\ (In (s, e, p) (find_segmentations walk aparc_names subject_filter) ->
        match subject_filter with
        | Some (x :: l) => In s (x :: l)
        | _ => True
        end).
Proof.
  intros walk names filter s e p.
  assert (H : In (s, e, p) (find_segmentations walk names filter)
              <-> exists dir files f,
                    In (dir, files) walk /\ In f files
                    /\ is_segmentation_name names f = true
                    /\ p = join dir f
                    /\ resolve_segmentation p = (s, e)
                    /\ filtered_out filter s = false).
  { unfold find_segmentations. rewrite in_flat_map. split.
    - intros ([dir files] & Hw & Hf). unfold find_in_dir in Hf.
      apply in_flat_map in Hf as (f & Hfile & Hf).
      destruct (is_segmentation_name names f) eqn:N; [|destruct Hf].
      destruct (resolve_segmentation (join dir f)) as [s' e'] eqn:R.
      destruct (filtered_out filter s') eqn:F; [destruct Hf|].
      destruct Hf as [[= <- <- <-]|[]].
      exists dir, files, f. now repeat split.
    - intros (dir & files & f & Hw & Hfile & N & -> & R & F).
      exists (dir, files). split; [exact Hw|]. unfold find_in_dir.
      apply in_flat_map. exists f. split; [exact Hfile|].
      rewrite N, R, F. now left. }
  split; [exact H|].
  intros Hin. apply H in Hin as (_ & _ & _ & _ & _ & _ & _ & _ & F).
  now apply filtered_out_false.
Qed.

(** ** The shape of the index *)

Section DictFacts.

Variable V : Type.

Lemma keys_set : forall (d : PyDict.dict V) k v,
  PyDict.keys (PyDict.set d k v)
  = if PyStr.mem k (PyDict.keys d) then PyDict.keys d
    else PyDict.keys d ++ [k].
Proof.
  unfold PyDict.keys, PyStr.mem.
  induction d as [|[k0 v0] d IH]; intros k v; [reflexivity|].
  cbn [PyDict.set map fst existsb].
  destruct (String.eqb_spec k k0) as [->|Hk]; [reflexivity|].
  cbn [orb map fst]. rewrite IH.
  now destruct (existsb (String.eqb k) (map fst d)).
Qed.

Lemma set_keeps_NoDup : forall (d : PyDict.dict V) k v,
  NoDup (PyDict.keys d) -> NoDup (PyDict.keys (PyDict.set d k v)).
Proof.
  intros d k v H. rewrite keys_set.
  destruct (PyStr.mem k (PyDict.keys d)) eqn:M; [exact H|].
  apply NoDup_app; [exact H|repeat constructor; intros []|].
  intros a Ha [<-|[]]. apply mem_In in Ha. congruence.
Qed.

Lemma set_not_empty : forall (d : PyDict.dict V) k v, PyDict.set d k v <> [].
Proof.
  intros [|[k0 v0] d] k v; cbn; [discriminate|].
  destruct (String.eqb k k0); discriminate.
Qed.

Lemma set_keeps_Forall : forall (Q : V -> Prop) (d : PyDict.dict V) k v,
  Forall (fun e => Q (snd e)) d -> Q v ->
  Forall (fun e => Q (snd e)) (PyDict.set d k v).
Proof.
  intros Q d k v Hd Hv. induction Hd as [|[k0 v0] d H0 Hd IH]; cbn.
  - now repeat constructor.
  - destruct (String.eqb k k0); constructor; assumption.
Qed.

Lemma get_In : forall (d : PyDict.dict V) k v,
  PyDict.get d k = Some v -> In (k, v) d.
Proof.
  induction d as [|[k0 v0] d IH]; intros k v H; [discriminate|].
  cbn in H. destruct (String.eqb_spec k k0) as [->|].
  - injection H as ->. now left.
  - right. now apply IH.
Qed.

Lemma In_get : forall (d : PyDict.dict V) k v,
  NoDup (PyDict.keys d) -> In (k, v) d -> PyDict.get d k = Some v.
Proof.
  induction d as [|[k0 v0] d IH]; intros k v Hn Hin; [destruct Hin|].
  cbn in Hn. inversion Hn as [|? ? Hnin Hn']; subst. cbn.
  destruct Hin as [[= -> ->]|Hin]; [now rewrite String.eqb_refl|].
  destruct (String.eqb_spec k k0) as [->|]; [|now apply IH].
  exfalso. apply Hnin. unfold PyDict.keys.
  change k0 with (fst (k0, v)). now apply in_map.
Qed.

End DictFacts.

Lemma set2_keeps_well_formed :
  forall (V : Type) (d : PyDict.dict (PyDict.dict V)) k k2 v,
    well_formed_index d -> well_formed_index (PyDict.set2 d k k2 v).
Proof.
  intros V d k k2 v [Hn Hf]. unfold PyDict.set2, well_formed_index.
  destruct (PyDict.get d k) as [inner|] eqn:E.
  - split; [now apply set_keeps_NoDup|].
    apply (set_keeps_Forall _
             (fun i => i <> [] /\ NoDup (PyDict.keys i))); [exact Hf|].
    split; [apply set_not_empty|]. apply set_keeps_NoDup.
    apply get_In in E. rewrite Forall_forall in Hf.
    now destruct (Hf _ E).
  - split; [now apply set_keeps_NoDup|].
    apply (set_keeps_Forall _
             (fun i => i <> [] /\ NoDup (PyDict.keys i))); [exact Hf|].
    split; [discriminate|]. cbn. repeat constructor. intros [].
Qed.

Lemma index_files_well_formed : forall subjects files,
  well_formed_index (index_files subjects files).
Proof.
  intros subjects files. induction files as [|f files IH] using rev_ind.
  - split; constructor.
  - rewrite index_files_snoc. unfold index_step.
    destruct (parse_subject_session (name (parent (parent f)))) as [s e].
    destruct (filtered_out subjects s); [exact IH|].
    now apply set2_keeps_well_formed.
Qed.

Lemma group_by_subject_well_formed : forall segs,
  well_formed_index (group_by_subject segs).
Proof.
  intros segs. unfold group_by_subject.
  induction segs as [|[[s e] f] segs IH] using rev_ind.
  - split; constructor.
  - rewrite fold_left_app. cbn [fold_left].
    now apply set2_keeps_well_formed.
Qed.

Lemma well_formed_has_entry :
  forall (V : Type) (d : PyDict.dict (PyDict.dict V)) subj,
    well_formed_index d -> In subj (PyDict.keys d) ->
    exists sess v, PyDict.get2 d subj sess = Some v.
Proof.
  intros V d subj [Hn Hf] Hin. unfold PyDict.keys in Hin.
  apply in_map_iff in Hin as ([k inner] & <- & Hin). cbn [fst].
  rewrite Forall_forall in Hf. destruct (Hf _ Hin) as [Hne _].
  cbn [snd] in Hne. destruct inner as [|[sess v] inner]; [congruence|].
  exists sess, v. unfold PyDict.get2.
  rewrite (In_get _ d k _ Hn Hin). cbn. now rewrite String.eqb_refl.
Qed.

(** X5.  In both tools the index has each subject once, each subject has
    at least one session, and a subject has each session once; so the
    test [if not sessions] of the all-pairs tool never fires on the index.
    Every subject of the index of the all-pairs tool passes the filter
    [--subjects]. *)
Theorem index_is_well_formed :
  (forall subjects dkt_files,
      well_formed_index (index_files subjects dkt_files)
      /\ forall subj,
           In subj (PyDict.keys (index_files subjects dkt_files)) ->
           filtered_out subjects subj = false
           /\ exists sess f,
                PyDict.get2 (index_files subjects dkt_files) subj sess
                = Some f)
  /\ (forall segs, well_formed_index (group_by_subject segs)).
Proof.
  split; [|exact group_by_subject_well_formed].
  intros subjects files.
  pose proof (index_files_well_formed subjects files) as W.
  split; [exact W|]. intros subj Hin.
  destruct (well_formed_has_entry _ _ subj W Hin) as (sess & f & E).
  split; [|now exists sess, f].
  apply index_files_entry in E as [_ Hi].
  now apply indexed_as_true in Hi.
Qed.

(** ** The pairs of the two policies *)

Section Pairs.

Variable A : Type.

Lemma combinations2_length : forall l : list A,
  (2 * List.length (combinations2 l)
   = List.length l * (List.length l - 1))%nat.
Proof.
  induction l as [|x l IH]; [reflexivity|].
  cbn [combinations2 List.length]. rewrite length_app, length_map.
  destruct l as [|y l]; [reflexivity|].
  cbn [List.length] in *. nia.
Qed.

Lemma in_combinations2 : forall (l : list A) a b,
  In (a, b) (combinations2 l) -> In a l /\ In b l.
Proof.
  induction l as [|x l IH]; intros a b H; [destruct H|].
  cbn [combinations2] in H. apply in_app_or in H as [H|H].
  - apply in_map_iff in H as (y & [= <- <-] & Hy). split; [now left|now right].
  - destruct (IH _ _ H). split; now right.
Qed.

Lemma combinations2_sorted : forall (R : A -> A -> Prop) (l : list A) a b,
  StronglySorted R l -> In (a, b) (combinations2 l) -> R a b.
Proof.
  intros R l a b Hs. induction Hs as [|x l Hs IH Hx]; intros H; [destruct H|].
  cbn [combinations2] in H. apply in_app_or in H as [H|H]; [|now apply IH].
  apply in_map_iff in H as (y & [= <- <-] & Hy).
  rewrite Forall_forall in Hx. now apply Hx.
Qed.

Lemma combinations2_complete : forall (l : list A) a b,
  In a l -> In b l -> a <> b ->
  In (a, b) (combinations2 l) \/ In (b, a) (combinations2 l).
Proof.
  induction l as [|x l IH]; intros a b Ha Hb Hab; [destruct Ha|].
  cbn [combinations2].
  destruct Ha as [->|Ha], Hb as [->|Hb]; try congruence.
  - left. apply in_or_app. left. now apply in_map.
  - right. apply in_or_app. left. now apply in_map.
  - destruct (IH a b Ha Hb Hab); [left|right]; apply in_or_app; now right.
Qed.

Lemma NoDup_map_pair : forall (x : A) (l : list A),
  NoDup l -> NoDup (map (pair x) l).
Proof.
  intros x l H. induction H as [|y l Hy Hl IH]; cbn; constructor.
  - intros Hin. apply in_map_iff in Hin as (z & [= ->] & Hz). contradiction.
  - exact IH.
Qed.

Lemma combinations2_NoDup : forall l : list A,
  NoDup l -> NoDup (combinations2 l).
Proof.
  induction l as [|x l IH]; intros H; [constructor|].
  inversion H as [|? ? Hx Hl]; subst. cbn [combinations2].
  apply NoDup_app.
  - now apply NoDup_map_pair.
  - now apply IH.
  - intros [a b] Ha Hb. apply in_map_iff in Ha as (y & [= <- <-] & _).
    apply in_combinations2 in Hb as [Hb _]. contradiction.
Qed.

Lemma pairwise_cons : forall (x y : A) (l : list A),
  pairwise (x :: y :: l) = (x, y) :: pairwise (y :: l).
Proof.
  reflexivity.
Qed.

Lemma pairwise_length : forall l : list A,
  List.length (pairwise l) = (List.length l - 1)%nat.
Proof.
  intros [|x l]; [reflexivity|]. revert x.
  induction l as [|y l IH]; intros x; [reflexivity|].
  rewrite pairwise_cons. cbn [List.length]. rewrite IH. cbn. lia.
Qed.

Lemma pairwise_fst : forall l : list A, map fst (pairwise l) = removelast l.
Proof.
  intros [|x l]; [reflexivity|]. revert x.
  induction l as [|y l IH]; intros x; [reflexivity|].
  rewrite pairwise_cons. cbn [map fst]. rewrite IH. reflexivity.
Qed.

Lemma pairwise_snd : forall l : list A, map snd (pairwise l) = tl l.
Proof.
  intros [|x l]; [reflexivity|]. revert x.
  induction l as [|y l IH]; intros x; [reflexivity|].
  rewrite pairwise_cons. cbn [map snd tl]. rewrite IH. reflexivity.
Qed.

Lemma pairwise_sorted : forall (R : A -> A -> Prop) (l : list A) a b,
  StronglySorted R l -> In (a, b) (pairwise l) -> R a b.
Proof.
  intros R l a b Hs. induction Hs as [|x l Hs IH Hx]; intros H; [destruct H|].
  destruct l as [|y l]; [destruct H|].
  cbn [pairwise] in H. destruct H as [[= <- <-]|H]; [|now apply IH].
  now inversion Hx.
Qed.

End Pairs.

Lemma keys_length : forall (V : Type) (d : PyDict.dict V),
  List.length (PyDict.keys d) = List.length d.
Proof.
  intros V d. apply length_map.
Qed.

(** X6.  The all-pairs policy on a subject with [n] sessions evaluates
    [n (n - 1) / 2] pairs, no pair twice; the two sessions of a pair are
    sessions of the subject, the first before the second in the order of
    strings, so no session is compared with itself; and any two different
    sessions of the subject are compared, in one order or the other. *)
Theorem all_pairs_are_the_unordered_pairs :
  forall (V : Type) (sessions : PyDict.dict V),
    NoDup (PyDict.keys sessions) ->
    (2 * List.length (all_pairs sessions)
     = List.length sessions * (List.length sessions - 1))%nat
    /\ NoDup (all_pairs sessions)
    /\ (forall s1 s2,
           In (s1, s2) (all_pairs sessions) ->
           In s1 (PyDict.keys sessions) /\ In s2 (PyDict.keys sessions)
           /\ String.ltb s1 s2 = true)
    /\ (forall s1 s2,
           In s1 (PyDict.keys sessions) -> In s2 (PyDict.keys sessions) ->
           s1 <> s2 ->
           In (s1, s2) (all_pairs sessions)
           \/ In (s2, s1) (all_pairs sessions)).
Proof.
  intros V sessions Hn. unfold all_pairs.
  set (l := py_sorted String.ltb (PyDict.keys sessions)).
  assert (HP : Permutation (PyDict.keys sessions) l)
    by apply py_sorted_perm.
  assert (Hl : NoDup l) by now apply (Permutation_NoDup HP).
  assert (Hs : StronglySorted (not_gt String.ltb) l)
    by (apply py_sorted_sorted;
        [apply string_ltb_asym|apply string_not_gt_trans]).
  split; [|split; [|split]].
  - rewrite combinations2_length, <- keys_length.
    now rewrite (Permutation_length HP).
  - now apply combinations2_NoDup.
  - intros s1 s2 H.
    destruct (in_combinations2 _ _ _ _ H) as [H1 H2].
    split; [eapply Permutation_in; [apply Permutation_sym, HP|exact H1]|].
    split; [eapply Permutation_in; [apply Permutation_sym, HP|exact H2]|].
    pose proof (combinations2_sorted _ _ _ _ _ Hs H) as Hle.
    destruct (String.ltb s1 s2) eqn:E; [reflexivity|]. exfalso.
    assert (s1 = s2) by now apply string_not_gt_antisym.
    subst s2. clear - Hl H. induction l as [|x l IH]; [destruct H|].
    inversion Hl as [|? ? Hx Hl']; subst. cbn [combinations2] in H.
    apply in_app_or in H as [H|H].
    + apply in_map_iff in H as (y & [= <- <-] & Hy). contradiction.
    + now apply IH.
  - intros s1 s2 H1 H2 Hne. apply combinations2_complete; try assumption.
    + eapply Permutation_in; [exact HP|exact H1].
    + eapply Permutation_in; [exact HP|exact H2].
Qed.

(** A witness of X6: the three sessions. *)
Lemma three_sessions_three_pairs :
  NoDup (PyDict.keys three_sessions)
  /\ (2 * List.length (all_pairs three_sessions) = 3 * (3 - 1))%nat
  /\ NoDup (all_pairs three_sessions).
Proof.
  assert (H : NoDup (PyDict.keys three_sessions)).
  { repeat constructor; cbn; intuition discriminate. }
  split; [exact H|].
  destruct (all_pairs_are_the_unordered_pairs _ three_sessions H)
    as (H1 & H2 & _).
  split; [exact H1|exact H2].
Defined.

(** X7.  The consecutive policy on a subject with [n] sessions evaluates
    [n - 1] pairs (none for a single session), as the tool prints.  The
    pairs form a chain through the sessions in sorted order: the first
    sessions of the pairs are all sessions but the last, the second ones
    all but the first, and within a pair the sort key never decreases. *)
Theorem consecutive_pairs_form_a_chain :
  forall (V : Type) (sessions : PyDict.dict V),
    let ses_sorted := py_sorted session_ltb (PyDict.keys sessions) in
    Permutation (PyDict.keys sessions) ses_sorted
    /\ List.length (consecutive_pairs sessions)
       = (List.length sessions - 1)%nat
    /\ map fst (consecutive_pairs sessions) = removelast ses_sorted
    /\ map snd (consecutive_pairs sessions) = tl ses_sorted
    /\ (forall s1 s2,
           In (s1, s2) (consecutive_pairs sessions) ->
           key_leb (session_sort_key s1) (session_sort_key s2) = true).
Proof.
  intros V sessions l. unfold consecutive_pairs. fold l.
  assert (HP : Permutation (PyDict.keys sessions) l)
    by apply py_sorted_perm.
  split; [exact HP|]. split; [|split; [|split]].
  - rewrite pairwise_length, <- keys_length.
    now rewrite (Permutation_length HP).
  - apply pairwise_fst.
  - apply pairwise_snd.
  - intros s1 s2 H.
    pose proof (py_sorted_sorted _ session_ltb session_ltb_asym
                  session_not_gt_trans (PyDict.keys sessions)) as Hs.
    pose proof (pairwise_sorted _ _ _ _ _ Hs H) as Hle.
    unfold key_leb. unfold not_gt, session_ltb in Hle. now rewrite Hle.
Qed.

(** ** What a subject's rows become *)

Lemma writer_written : forall w rows_,
  written (writer w rows_) = written w ++ rows_.
Proof.
  intros w [|r rs]; unfold written; cbn [writer].
  - now rewrite app_nil_r.
  - cbn [destination to_csv_append lines_of].
    rewrite !data_rows_app, data_rows_data.
    destruct (destination w), (negb (header_written w)); reflexivity.
Qed.

Lemma flush_if_full_keeps_rows : forall chunk_size st,
  written (out (flush_if_full chunk_size st))
    ++ buffer (flush_if_full chunk_size st)
  = written (out st) ++ buffer st.
Proof.
  intros c st. unfold flush_if_full.
  destruct (c <=? Z.of_nat (List.length (buffer st)))%Z; [|reflexivity].
  cbn [out buffer]. now rewrite writer_written, app_nil_r.
Qed.

Lemma flush_rest_written : forall st,
  written (out (flush_rest st)) = written (out st) ++ buffer st.
Proof.
  intros st. unfold flush_rest.
  destruct (buffer st) as [|r rs] eqn:E.
  - now rewrite app_nil_r.
  - cbn [out]. now rewrite writer_written.
Qed.

Lemma process_pairs_rows : forall fs subj sessions chunk_size pairs st,
  match process_pairs fs subj sessions chunk_size pairs st with
  | Done st' =>
      exists rowss,
        mapM (pair_rows fs sessions) pairs = Ok rowss
        /\ written (out st') ++ buffer st'
           = (written (out st) ++ buffer st)
               ++ map (set_subject subj) (List.concat rowss)
  | Aborted e st' =>
      exists done p rest rowss,
        pairs = done ++ p :: rest
        /\ mapM (pair_rows fs sessions) done = Ok rowss
        /\ pair_rows fs sessions p = Raise e
        /\ written (out st') ++ buffer st'
           = (written (out st) ++ buffer st)
               ++ map (set_subject subj) (List.concat rowss)
  end.
Proof.
  intros fs subj sessions c. induction pairs as [|[s1 s2] pairs IH]; intros st.
  - cbn. exists []. split; [reflexivity|]. cbn. now rewrite app_nil_r.
  - cbn [process_pairs mapM].
    change (pair_rows fs sessions (s1, s2))
      with (process_session_pair fs sessions s1 s2).
    destruct (process_session_pair fs sessions s1 s2) as [rs|e] eqn:E.
    + specialize (IH (flush_if_full c (extend_buffer subj st rs))).
      rewrite flush_if_full_keeps_rows in IH.
      cbn [extend_buffer out buffer] in IH.
      destruct (process_pairs fs subj sessions c pairs
                  (flush_if_full c (extend_buffer subj st rs))) as [st'|e st'].
      * destruct IH as (rowss & -> & H). exists (rs :: rowss).
        split; [reflexivity|]. rewrite H. cbn [List.concat bind].
        now rewrite map_app, <- !app_assoc.
      * destruct IH as (done & p & rest & rowss & -> & Hd & Hp & H).
        exists ((s1, s2) :: done), p, rest, (rs :: rowss).
        split; [reflexivity|]. split; [|split; [exact Hp|]].
        -- cbn [mapM]. change (pair_rows fs sessions (s1, s2))
             with (process_session_pair fs sessions s1 s2).
           now rewrite E, Hd.
        -- rewrite H. cbn [List.concat].
           now rewrite map_app, <- !app_assoc.
    + exists [], (s1, s2), pairs, []. repeat split; [exact E|].
      cbn. now rewrite app_nil_r.
Qed.

(** X8.  [process_subject] loses no row and keeps the order.  When it
    returns, the file holds, behind what the writer had written before,
    the rows of all pairs of the subject in the order of the pairs, each
    with the subject filled in, however the chunk size cut them.  When a
    pair raises, the rows of the pairs before it are in the file except
    for those still in the buffer, which are the only ones lost. *)
Theorem process_subject_writes_rows_in_order :
  forall (fs : disk) (subj : string) (sessions : PyDict.dict path)
         (w : writer_state) (chunk_size : Z),
    match process_subject fs subj sessions w chunk_size with
    | Done st =>
        exists rowss,
          mapM (pair_rows fs sessions) (all_pairs sessions) = Ok rowss
          /\ written (out st)
             = written w ++ map (set_subject subj) (List.concat rowss)
    | Aborted e st =>
        exists done p rest rowss,
          all_pairs sessions = done ++ p :: rest
          /\ mapM (pair_rows fs sessions) done = Ok rowss
          /\ pair_rows fs sessions p = Raise e
          /\ written (out st) ++ buffer st
             = written w ++ map (set_subject subj) (List.concat rowss)
    end.
Proof.
  intros fs subj sessions w c. unfold process_subject.
  pose proof (process_pairs_rows fs subj sessions c (all_pairs sessions)
                {| buffer := []; out := w |}) as H.
  destruct (process_pairs fs subj sessions c (all_pairs sessions)
              {| buffer := []; out := w |}) as [st|e st].
  - destruct H as (rowss & Hm & H). exists rowss. split; [exact Hm|].
    rewrite flush_rest_written, H. cbn [out buffer]. now rewrite app_nil_r.
  - cbn [out buffer] in H. now rewrite app_nil_r in H.
Qed.

(** ** The file of a whole run *)

Lemma open_writer_file_of_run : forall file, file_of_run file (open_writer file).
Proof.
  intros [old|]; split; try reflexivity; exists []; cbn.
  - now rewrite app_nil_r.
  - reflexivity.
Qed.

Lemma writer_file_of_run : forall file w rows_,
  file_of_run file w -> file_of_run file (writer w rows_).
Proof.
  intros file w [|r rows_] [Hf (rs & Hd)]; [now split; [|exists rs]|].
  split; [reflexivity|]. exists (rs ++ r :: rows_).
  unfold flag_matches_file in Hf. cbn [writer destination].
  rewrite Hf, Hd. unfold to_csv_append, run_file.
  destruct file as [old|].
  - cbn. now rewrite map_app, <- app_assoc.
  - destruct rs as [|r0 rs]; cbn; [reflexivity|].
    now rewrite map_app.
Qed.

Lemma process_pairs_file_of_run :
  forall file fs subj sessions chunk_size pairs st,
    file_of_run file (out st) ->
    match process_pairs fs subj sessions chunk_size pairs st with
    | Done st' => file_of_run file (out st')
    | Aborted _ st' => file_of_run file (out st')
    end.
Proof.
  intros file fs subj sessions c. induction pairs as [|[s1 s2] pairs IH];
    intros st H; cbn [process_pairs]; [exact H|].
  destruct (process_session_pair fs sessions s1 s2); [|exact H].
  apply IH. unfold flush_if_full, extend_buffer. cbn [buffer out].
  destruct (c <=? _)%Z; cbn [out]; [now apply writer_file_of_run|exact H].
Qed.

Lemma process_subjects_file_of_run :
  forall file fs subject_files chunk_size w,
    file_of_run file w ->
    file_of_run file (snd (process_subjects fs subject_files chunk_size w))
    /\ forall w',
         fst (process_subjects fs subject_files chunk_size w) = Ok w' ->
         w' = snd (process_subjects fs subject_files chunk_size w).
Proof.
  intros file fs subject_files c.
  induction subject_files as [|[subj sessions] rest IH]; intros w H.
  - cbn. split; [exact H|]. now intros w' [= <-].
  - cbn [process_subjects]. destruct sessions as [|s sessions]; [now apply IH|].
    unfold process_subject.
    pose proof (process_pairs_file_of_run file fs subj (s :: sessions) c
                  (all_pairs (s :: sessions)) {| buffer := []; out := w |} H)
      as Hp.
    destruct (process_pairs fs subj (s :: sessions) c
                (all_pairs (s :: sessions)) {| buffer := []; out := w |})
      as [st|e st].
    + apply IH. unfold flush_rest. destruct (buffer st); [exact Hp|].
      cbn [out]. now apply writer_file_of_run.
    + cbn. split; [exact Hp|]. discriminate.
Qed.

(** X9.  Whatever the tree, the arguments and the images are, and whether
    the run of [calculate_session_metrics] finishes or is ended by an
    exception, the output file it leaves is the file it found followed by
    data rows only, or, when it found none, either still no file or one
    header line followed by data rows; the flag of the writer says whether
    the file exists.  A run that finishes returns the writer it leaves. *)
Theorem run_leaves_one_header_and_appends_only :
  forall walk long_only subjects chunk_size fs file,
    let run :=
      calculate_session_metrics walk long_only subjects chunk_size fs file in
    (exists rs, destination (snd run) = run_file file rs)
    /\ flag_matches_file (snd run)
    /\ (forall w, fst run = Ok w -> w = snd run).
Proof.
  intros walk lo subjects c fs file run. unfold run, calculate_session_metrics.
  destruct (process_subjects_file_of_run file fs
              (index_files subjects (collect_dkt_files walk lo)) c
              (open_writer file) (open_writer_file_of_run file))
    as [[Hf Hr] Hw].
  split; [exact Hr|]. split; [exact Hf|exact Hw].
Qed.

(** ** The rows of a pair of volumes *)

Lemma card_zero_iff : forall (v : ndarray Z) lbl,
  card (np_eq v lbl) = 0%Z <-> ~ In lbl (ravel v).
Proof.
  intros v lbl. split.
  - intros E Hin. apply label_present in Hin. lia.
  - intros Hn. pose proof (card_nonneg (np_eq v lbl)) as Hc.
    destruct (Z.eq_dec (card (np_eq v lbl)) 0) as [E|E]; [exact E|].
    exfalso. apply Hn.
    assert (Hp : (0 < card (np_eq v lbl))%Z) by lia.
    apply card_positive in Hp as (p & Hp & Hm).
    cbn [np_eq shape at_index] in Hp, Hm. apply Z.eqb_eq in Hm.
    unfold ravel. apply in_map_iff. now exists p.
Qed.

Lemma mapM_labels : forall (A B : Type) (f : A -> result B) (g : B -> A) l ys,
  (forall x y, f x = Ok y -> g y = x) ->
  mapM f l = Ok ys -> map g ys = l.
Proof.
  intros A B f g. induction l as [|x l IH]; intros ys Hf H.
  - now injection H as <-.
  - cbn [mapM] in H. destruct (f x) as [y|] eqn:E; [|discriminate].
    cbn [bind] in H. destruct (mapM f l) as [ys'|] eqn:E'; [|discriminate].
    injection H as <-. cbn [map]. f_equal; [now apply Hf|now apply IH].
Qed.

Lemma mapM_in : forall (A B : Type) (f : A -> result B) l ys y,
  mapM f l = Ok ys -> In y ys -> exists x, In x l /\ f x = Ok y.
Proof.
  intros A B f. induction l as [|x l IH]; intros ys y H Hy.
  - injection H as <-. destruct Hy.
  - cbn [mapM] in H. destruct (f x) as [y0|] eqn:E; [|discriminate].
    cbn [bind] in H. destruct (mapM f l) as [ys'|] eqn:E'; [|discriminate].
    injection H as <-. destruct Hy as [<-|Hy].
    + exists x. split; [now left|exact E].
    + destruct (IH _ _ eq_refl Hy) as (x' & Hx' & Hf).
      exists x'. split; [now right|exact Hf].
Qed.

Lemma mapM_total : forall (A B : Type) (f : A -> result B) l,
  (forall x, In x l -> exists y, f x = Ok y) ->
  exists ys, mapM f l = Ok ys.
Proof.
  intros A B f l H.
  destruct (mapM_Forall2 _ _ f (fun _ _ => True) l) as (ys & E & _).
  - intros x Hx. destruct (H x Hx) as [y Hy]. now exists y.
  - now exists ys.
Qed.

Lemma consecutive_row_same_shape : forall d1 d2 spacing lbl,
  shape d1 = shape d2 ->
  exists r,
    consecutive_row d1 d2 spacing lbl = Ok r
    /\ label r = lbl /\ consecutive_row_holds d1 d2 spacing r.
Proof.
  intros d1 d2 spacing lbl Hs. unfold consecutive_row, consecutive_row_holds.
  pose proof (card_nonneg (np_eq d1 lbl)) as H1.
  pose proof (card_nonneg (np_eq d2 lbl)) as H2.
  destruct (Z.eq_dec (card (np_eq d1 lbl) + card (np_eq d2 lbl)) 0) as [E|E].
  - destruct (dice_empty (np_eq d1 lbl) (np_eq d2 lbl)) as [_ ->]; try lia.
    cbn [bind]. eexists. split; [reflexivity|]. split; [reflexivity|].
    cbn [label volume1 volume2 volume_diff dice]. rewrite !np_sum_card.
    repeat split; intros; apply card_zero_iff; lia.
  - destruct (dice_nonempty (np_eq d1 lbl) (np_eq d2 lbl)) as [_ ->];
      [exact Hs|exact E|].
    cbn [bind]. eexists. split; [reflexivity|]. split; [reflexivity|].
    cbn [label volume1 volume2 volume_diff dice]. rewrite !np_sum_card.
    repeat split; try discriminate.
    intros [N1 N2]. apply card_zero_iff in N1, N2. lia.
Qed.

(** X10.  [compute_metrics] on two files.  A missing file raises
    [FileNotFoundError].  Volumes of different shapes give no result and
    no exception.  Volumes of one shape give one row for each requested
    label, in the order of the request, labels not in the volumes
    included; a row holds the two volumes of its label as voxel count
    times voxel volume and their difference, and its [dice] is [nan]
    exactly when the label is in neither volume. *)
Theorem compute_metrics_gives_a_row_per_label :
  forall (fs : disk) (path1 path2 : path) (labels : list Z),
    ((fs path1 = None \/ fs path2 = None) ->
     compute_metrics fs path1 path2 labels = Raise FileNotFoundError)
    /\ (forall img1 img2,
           fs path1 = Some img1 -> fs path2 = Some img2 ->
           (shape (get_fdata img1) <> shape (get_fdata img2) ->
            compute_metrics fs path1 path2 labels = Ok None)
           /\ (shape (get_fdata img1) = shape (get_fdata img2) ->
               exists rows_,
                 compute_metrics fs path1 path2 labels = Ok (Some rows_)
                 /\ map label rows_ = labels
                 /\ forall r,
                      In r rows_ ->
                      consecutive_row_holds (get_fdata img1)
                        (get_fdata img2) (get_zooms img1) r)).
Proof.
  intros fs path1 path2 labels. split.
  - unfold compute_metrics, load. intros [H|H].
    + now rewrite H.
    + rewrite H. now destruct (fs path1).
  - intros img1 img2 L1 L2.
    split; [now apply compute_metrics_skips_mismatch|].
    intros Hs. unfold compute_metrics, load. rewrite L1, L2. cbn [bind].
    rewrite Hs, shape_eqb_refl. cbn [negb].
    destruct (mapM_Forall2 _ _
                (consecutive_row (get_fdata img1) (get_fdata img2)
                   (get_zooms img1))
                (fun lbl r =>
                   label r = lbl
                   /\ consecutive_row_holds (get_fdata img1)
                        (get_fdata img2) (get_zooms img1) r) labels)
      as (rs & -> & HF).
    { intros lbl _. now apply consecutive_row_same_shape. }
    exists rs. cbn [bind]. split; [reflexivity|]. split.
    + clear - HF. induction HF as [|lbl r l rs [E _] _ IH]; [reflexivity|].
      cbn [map]. now rewrite E, IH.
    + intros r Hr.
      destruct (Forall2_in_r _ _ _ _ _ r HF Hr) as (lbl & _ & _ & H).
      exact H.
Qed.

(** A witness of X10: the cube against itself for the labels 17 and 18. *)
Lemma cube_rows_for_two_labels :
  exists rows_,
    compute_metrics (disk_of cube_image cube_image cube_image)
      (aparc_path "ses-1") (aparc_path "ses-2") [17; 18]%Z
    = Ok (Some rows_)
    /\ map label rows_ = [17; 18]%Z.
Proof.
  destruct (compute_metrics_gives_a_row_per_label
              (disk_of cube_image cube_image cube_image)
              (aparc_path "ses-1") (aparc_path "ses-2") [17; 18]%Z)
    as [_ H].
  destruct (H cube_image cube_image eq_refl eq_refl) as [_ H'].
  destruct (H' eq_refl) as (rs & E & Hl & _).
  exists rs. split; [exact E|exact Hl].
Defined.

Lemma insert_unique_sorted : forall x l,
  StronglySorted Z.lt l -> StronglySorted Z.lt (insert_unique x l).
Proof.
  intros x l H. induction H as [|y l H IH Hy]; cbn [insert_unique].
  - repeat constructor.
  - destruct (Z.ltb_spec x y) as [Hxy|Hxy].
    + constructor; [now constructor|]. constructor; [exact Hxy|].
      eapply Forall_impl; [|exact Hy]. intros z Hz. lia.
    + destruct (Z.eqb_spec x y) as [->|Hne]; [now constructor|].
      constructor; [exact IH|]. apply Forall_forall. intros z Hz.
      apply insert_unique_in in Hz as [->|Hz]; [lia|].
      rewrite Forall_forall in Hy. now apply Hy.
Qed.

Lemma np_unique_sorted : forall l, StronglySorted Z.lt (np_unique l).
Proof.
  induction l as [|x l IH]; [constructor|].
  cbn [np_unique fold_right]. now apply insert_unique_sorted.
Qed.

Lemma filter_sorted : forall (A : Type) (R : A -> A -> Prop) (f : A -> bool) l,
  StronglySorted R l -> StronglySorted R (filter f l).
Proof.
  intros A R f l H. induction H as [|x l H IH Hx]; cbn; [constructor|].
  destruct (f x); [|exact IH]. constructor; [exact IH|].
  apply Forall_forall. intros y Hy. apply filter_In in Hy as [Hy _].
  rewrite Forall_forall in Hx. now apply Hx.
Qed.

Lemma session_pair_row_label : forall d1 d2 spacing ses1 ses2 lbl r,
  session_pair_row d1 d2 spacing ses1 ses2 lbl = Ok r ->
  label r = lbl /\ session1 r = Some ses1 /\ session2 r = Some ses2
  /\ subject r = None.
Proof.
  intros d1 d2 spacing ses1 ses2 lbl r. unfold session_pair_row.
  destruct (compute_dice_coefficient (np_eq d1 lbl) (np_eq d2 lbl));
    [|discriminate].
  cbn [bind]. intros [= <-]. repeat split.
Qed.

Lemma session_pair_row_same_shape : forall d1 d2 spacing ses1 ses2 lbl,
  shape d1 = shape d2 ->
  exists r, session_pair_row d1 d2 spacing ses1 ses2 lbl = Ok r.
Proof.
  intros d1 d2 spacing ses1 ses2 lbl Hs. unfold session_pair_row.
  pose proof (card_nonneg (np_eq d1 lbl)) as H1.
  pose proof (card_nonneg (np_eq d2 lbl)) as H2.
  destruct (Z.eq_dec (card (np_eq d1 lbl) + card (np_eq d2 lbl)) 0) as [E|E].
  - destruct (dice_empty (np_eq d1 lbl) (np_eq d2 lbl)) as [-> _]; try lia.
    cbn [bind]. eauto.
  - destruct (dice_nonempty (np_eq d1 lbl) (np_eq d2 lbl)) as [-> _];
      [exact Hs|exact E|].
    cbn [bind]. eauto.
Qed.

(** X11.  [process_session_pair] on two sessions whose files load.  When
    it returns rows, their labels are the different non-zero values of
    the two volumes, each once and in increasing order, and every row
    names the two sessions and has no subject yet.  It does return rows
    when the two volumes have one shape. *)
Theorem process_session_pair_reports_the_labels_present :
  forall (fs : disk) (sessions : PyDict.dict path) (ses1 ses2 : string)
         (path1 path2 : path) (img1 img2 : image),
    PyDict.get sessions ses1 = Some path1 ->
    PyDict.get sessions ses2 = Some path2 ->
    fs path1 = Some img1 ->
    fs path2 = Some img2 ->
    (forall rows_,
        process_session_pair fs sessions ses1 ses2 = Ok rows_ ->
        StronglySorted Z.lt (map label rows_)
        /\ (forall lbl,
               In lbl (map label rows_)
               <-> lbl <> 0%Z
                   /\ (In lbl (ravel (get_fdata img1))
                       \/ In lbl (ravel (get_fdata img2))))
        /\ (forall r,
               In r rows_ ->
               session1 r = Some ses1 /\ session2 r = Some ses2
               /\ subject r = None))
    /\ (shape (get_fdata img1) = shape (get_fdata img2) ->
        exists rows_, process_session_pair fs sessions ses1 ses2 = Ok rows_).
Proof.
  intros fs sessions ses1 ses2 path1 path2 img1 img2 G1 G2 L1 L2.
  unfold process_session_pair, subscript, load.
  rewrite G1, G2. cbn [bind]. rewrite L1, L2. cbn [bind].
  set (d1 := get_fdata img1). set (d2 := get_fdata img2).
  unfold unique_of_concatenate.
  destruct (shape d1) as [[nx1 ny1] nz1] eqn:S1.
  destruct (shape d2) as [[nx2 ny2] nz2] eqn:S2.
  set (ls := filter (fun l => negb (l =? 0)%Z)
                    (np_unique (ravel d1 ++ ravel d2))).
  split.
  - intros rs H.
    destruct ((ny1 =? ny2)%nat && (nz1 =? nz2)%nat); [|discriminate].
    cbn [bind] in H. fold ls in H.
    assert (Hl : map label rs = ls).
    { apply (mapM_labels _ _ _ label _ _) in H; [exact H|].
      intros x y Hxy. now apply session_pair_row_label in Hxy. }
    split; [|split].
    + rewrite Hl. apply filter_sorted, np_unique_sorted.
    + intros lbl. rewrite Hl. unfold ls.
      rewrite filter_In, np_unique_in, in_app_iff.
      destruct (Z.eqb_spec lbl 0); cbn; intuition congruence.
    + intros r Hr. destruct (mapM_in _ _ _ _ _ r H Hr) as (lbl & _ & E).
      now apply session_pair_row_label in E.
  - intros [= -> -> ->]. rewrite !Nat.eqb_refl. cbn [andb bind]. fold ls.
    apply mapM_total. intros lbl _. apply session_pair_row_same_shape.
    now rewrite S1, S2.
Qed.

(** A witness of X11: two sessions of the volume with six labels. *)
Lemma six_labels_in_order :
  process_session_pair
    (disk_of six_labels_image six_labels_image six_labels_image)
    three_sessions "ses-1" "ses-2" = Ok six_rows
  /\ StronglySorted Z.lt (map label six_rows).
Proof.
  split; [reflexivity|].
  destruct (process_session_pair_reports_the_labels_present
              (disk_of six_labels_image six_labels_image six_labels_image)
              three_sessions "ses-1" "ses-2"
              (aparc_path "ses-1") (aparc_path "ses-2")
              six_labels_image six_labels_image
              eq_refl eq_refl eq_refl eq_refl) as [H _].
  destruct (H six_rows eq_refl) as [Hs _]. exact Hs.
Defined.

(** ** More on the Dice coefficient *)

Lemma filter_length_le : forall (A : Type) (f g : A -> bool) l,
  (forall x, In x l -> f x = true -> g x = true) ->
  (List.length (filter f l) <= List.length (filter g l))%nat.
Proof.
  intros A f g. induction l as [|x l IH]; intros H; [reflexivity|].
  assert (IH' : (List.length (filter f l) <= List.length (filter g l))%nat)
    by (apply IH; intros y Hy; apply H; now right).
  cbn [filter]. destruct (f x) eqn:F.
  - rewrite (H x (or_introl eq_refl) F). cbn. lia.
  - destruct (g x); cbn; lia.
Qed.

Lemma filter_length_eq : forall (A : Type) (f g : A -> bool) l,
  (forall x, f x = true -> g x = true) ->
  List.length (filter f l) = List.length (filter g l) ->
  forall x, In x l -> g x = true -> f x = true.
Proof.
  intros A f g. induction l as [|x l IH]; intros Hfg E y Hy Hg; [destruct Hy|].
  pose proof (filter_length_le _ f g l (fun z _ => Hfg z)) as Hle.
  cbn [filter] in E. destruct (f x) eqn:F.
  - rewrite (Hfg x F) in E. cbn in E.
    destruct Hy as [<-|Hy]; [exact F|]. apply IH; try assumption. lia.
  - destruct (g x) eqn:G; cbn in E; [lia|].
    destruct Hy as [<-|Hy]; [congruence|]. now apply IH.
Qed.

Lemma filter_none : forall (A : Type) (f : A -> bool) l,
  (forall x, In x l -> f x = false) -> filter f l = [].
Proof.
  intros A f. induction l as [|x l IH]; intros H; [reflexivity|].
  cbn [filter]. rewrite (H x (or_introl eq_refl)).
  apply IH. intros y Hy. apply H. now right.
Qed.

Lemma card_inter_comm : forall m1 m2,
  shape m1 = shape m2 -> card_inter m1 m2 = card_inter m2 m1.
Proof.
  intros m1 m2 Hs. unfold card_inter. rewrite Hs. do 2 f_equal.
  apply filter_ext. intros p. apply andb_comm.
Qed.

Lemma card_inter_le_l : forall m1 m2, (card_inter m1 m2 <= card m1)%Z.
Proof.
  intros m1 m2. unfold card_inter, card. apply inj_le, filter_length_le.
  intros p _ H. now apply andb_prop in H.
Qed.

Lemma card_inter_le_r : forall m1 m2,
  shape m1 = shape m2 -> (card_inter m1 m2 <= card m2)%Z.
Proof.
  intros m1 m2 Hs. rewrite card_inter_comm by exact Hs.
  apply card_inter_le_l.
Qed.

Lemma card_inter_nonneg : forall m1 m2, (0 <= card_inter m1 m2)%Z.
Proof.
  intros m1 m2. unfold card_inter. lia.
Qed.

Lemma inject_Z_nonzero : forall b : Z, (0 < b)%Z -> ~ inject_Z b == 0.
Proof.
  intros b Hb E. unfold Qeq in E. cbn in E. lia.
Qed.

Lemma ratio_eq : forall a b c : Z,
  (0 < b)%Z -> (inject_Z a / inject_Z b == inject_Z c <-> a = (c * b)%Z).
Proof.
  intros a b c Hb. pose proof (inject_Z_nonzero b Hb) as Hn. split.
  - intros H. assert (E : inject_Z a == inject_Z c * inject_Z b).
    { rewrite <- H. field. exact Hn. }
    rewrite <- inject_Z_mult in E. unfold Qeq in E. cbn in E. lia.
  - intros ->. rewrite inject_Z_mult. field. exact Hn.
Qed.

Lemma ratio_bounds : forall a b : Z,
  (0 <= a <= b)%Z -> (0 < b)%Z ->
  0 <= inject_Z a / inject_Z b /\ inject_Z a / inject_Z b <= 1.
Proof.
  intros a b Ha Hb.
  assert (Hq : 0 < inject_Z b)
    by (change 0 with (inject_Z 0); rewrite <- Zlt_Qlt; exact Hb).
  split.
  - apply Qle_shift_div_l; [exact Hq|]. rewrite Qmult_0_l.
    change 0 with (inject_Z 0). rewrite <- Zle_Qle. lia.
  - apply Qle_shift_div_r; [exact Hq|]. rewrite Qmult_1_l.
    rewrite <- Zle_Qle. lia.
Qed.

(** X12.  On two masks of one grid the Dice coefficient does not depend
    on the order of the masks, in [compute_dice_coefficient] and in the
    expression of [compute_metrics] alike, and when it is a number it
    lies between 0 and 1. *)
Theorem dice_is_symmetric_and_bounded :
  forall m1 m2 : ndarray bool,
    shape m1 = shape m2 ->
    compute_dice_coefficient m1 m2 = compute_dice_coefficient m2 m1
    /\ consecutive_dice m1 m2 = consecutive_dice m2 m1
    /\ consecutive_dice m1 m2 = compute_dice_coefficient m1 m2
    /\ (forall q,
           compute_dice_coefficient m1 m2 = Ok (Fin q) -> 0 <= q /\ q <= 1).
Proof.
  intros m1 m2 Hs.
  pose proof (card_nonneg m1) as H1. pose proof (card_nonneg m2) as H2.
  destruct (Z.eq_dec (card m1 + card m2) 0) as [E|E].
  - destruct (dice_empty m1 m2) as [-> ->]; try lia.
    destruct (dice_empty m2 m1) as [-> ->]; try lia.
    repeat split; discriminate.
  - destruct (dice_nonempty m1 m2 Hs E) as [-> ->].
    destruct (dice_nonempty m2 m1) as [-> ->]; [now symmetry|lia|].
    rewrite (card_inter_comm m2 m1), (Z.add_comm (card m2)) by now symmetry.
    split; [reflexivity|]. split; [reflexivity|]. split; [reflexivity|].
    intros q [= <-].
    apply (ratio_bounds (2 * card_inter m1 m2) (card m1 + card m2)); [|lia].
    pose proof (card_inter_nonneg m1 m2).
    pose proof (card_inter_le_l m1 m2).
    pose proof (card_inter_le_r m1 m2 Hs). lia.
Qed.

(** A witness of X12: the two masks that share one voxel. *)
Lemma swapped_masks_have_the_same_dice :
  let m1 := of_nested false [[[true; true; false]]] in
  let m2 := of_nested false [[[false; true; true]]] in
  compute_dice_coefficient m1 m2 = compute_dice_coefficient m2 m1.
Proof.
  intros m1 m2.
  destruct (dice_is_symmetric_and_bounded m1 m2 eq_refl) as [H _].
  exact H.
Defined.

(** X13.  On two masks of one grid that are not both empty the Dice
    coefficient is 0 exactly when the masks share no voxel, and 1 exactly
    when they are the same mask. *)
Theorem dice_zero_and_one :
  forall m1 m2 : ndarray bool,
    shape m1 = shape m2 ->
    (card m1 + card m2)%Z <> 0%Z ->
    exists q,
      compute_dice_coefficient m1 m2 = Ok (Fin q)
      /\ (q == 0
          <-> forall p, In p (indices (shape m1)) ->
                        at_index m1 p && at_index m2 p = false)
      /\ (q == 1
          <-> forall p, In p (indices (shape m1)) ->
                        at_index m1 p = at_index m2 p).
Proof.
  intros m1 m2 Hs E.
  pose proof (card_nonneg m1) as H1. pose proof (card_nonneg m2) as H2.
  pose proof (card_inter_nonneg m1 m2) as Hi.
  pose proof (card_inter_le_l m1 m2) as Hl.
  pose proof (card_inter_le_r m1 m2 Hs) as Hr.
  destruct (dice_nonempty m1 m2 Hs E) as [-> _].
  eexists. split; [reflexivity|]. split.
  - change 0 with (inject_Z 0). rewrite ratio_eq by lia.
    unfold card_inter. split.
    + intros H p Hp.
      destruct (at_index m1 p && at_index m2 p) eqn:B; [|reflexivity].
      assert (Hin : In p (filter (fun p => at_index m1 p && at_index m2 p)
                                 (indices (shape m1))))
        by now apply filter_In.
      destruct (filter _ (indices (shape m1))); [destruct Hin|].
      cbn [List.length] in H. lia.
    + intros H.
      replace (filter (fun p => at_index m1 p && at_index m2 p)
                      (indices (shape m1))) with (@nil (nat * nat * nat));
        [reflexivity|].
      symmetry. apply filter_none. intros p Hp. now apply H.
  - change 1 with (inject_Z 1). rewrite ratio_eq by lia. split.
    + intros H p Hp.
      assert (E1 : card_inter m1 m2 = card m1) by lia.
      assert (E2 : card_inter m1 m2 = card m2) by lia.
      unfold card_inter, card in E1, E2. apply Nat2Z.inj in E1, E2.
      rewrite <- Hs in E2.
      pose proof (filter_length_eq _ _ (at_index m1) _
                    (fun x Hx => proj1 (andb_prop _ _ Hx)) E1 p Hp) as A1.
      pose proof (filter_length_eq _ _ (at_index m2) _
                    (fun x Hx => proj2 (andb_prop _ _ Hx)) E2 p Hp) as A2.
      cbv beta in A1, A2.
      destruct (at_index m1 p) eqn:B1, (at_index m2 p) eqn:B2;
        try reflexivity.
      * specialize (A1 eq_refl). cbn in A1. discriminate.
      * specialize (A2 eq_refl). cbn in A2. discriminate.
    + intros H.
      assert (E1 : card_inter m1 m2 = card m1).
      { unfold card_inter, card. do 2 f_equal.
        apply filter_ext_in. intros p Hp. rewrite <- (H p Hp).
        apply andb_diag. }
      assert (E2 : card m2 = card m1).
      { unfold card. rewrite <- Hs. do 2 f_equal.
        apply filter_ext_in. intros p Hp. now rewrite (H p Hp). }
      lia.
Qed.

(** A witness of X13: the two masks that share one voxel of their two. *)
Lemma half_overlap_gives_a_number :
  let m1 := of_nested false [[[true; true; false]]] in
  let m2 := of_nested false [[[false; true; true]]] in
  exists q, compute_dice_coefficient m1 m2 = Ok (Fin q).
Proof.
  intros m1 m2.
  destruct (dice_zero_and_one m1 m2 eq_refl) as (q & H & _).
  - discriminate.
  - now exists q.
Defined.

(** ** The surface functions of the repository *)

Lemma surface_in_mask : forall (m : ndarray bool) p,
  In p (np_where (np_ne (binary_erosion m) m)) ->
  In p (indices (shape m)) /\ at_index m p = true.
Proof.
  intros m [[i j] k] H. unfold np_where in H. apply filter_In in H as [Hin H].
  cbn [shape np_ne binary_erosion at_index] in Hin, H.
  split; [exact Hin|].
  destruct (at_index m (i, j, k)) eqn:B; [reflexivity|]. exfalso.
  unfold mask_at at 1 in H. rewrite !Nat2Z.id, B in H.
  rewrite andb_false_r in H. cbn in H. discriminate.
Qed.

Lemma surface_empty_iff : forall m : ndarray bool,
  np_where (np_ne (binary_erosion m) m) = [] <-> card m = 0%Z.
Proof.
  intros m. pose proof (card_nonneg m) as Hc. split.
  - intros E. destruct (Z.eq_dec (card m) 0) as [|Hn]; [assumption|].
    assert (Hp : (0 < card m)%Z) by lia.
    apply card_positive in Hp as ([[i j] k] & Hin & Hm).
    destruct (surface_exists m i j k Hin Hm) as [p Hp].
    rewrite E in Hp. destruct Hp.
  - intros E.
    destruct (np_where (np_ne (binary_erosion m) m)) as [|p l] eqn:S;
      [reflexivity|].
    assert (Hp : In p (np_where (np_ne (binary_erosion m) m)))
      by (rewrite S; now left).
    apply surface_in_mask in Hp as [Hin Hm].
    assert ((0 < card m)%Z) by (apply card_positive; now exists p).
    lia.
Qed.

Lemma np_min_in : forall d l, In (np_min (d :: l)) (d :: l).
Proof.
  intros d l. unfold np_min.
  destruct (fold_dist_min l d) as ([->|H] & _); [now left|now right].
Qed.

Lemma np_min_nonneg : forall (A : Type) (f : A -> dist) (l : list A),
  (forall x, 0 <= sq (f x)) -> 0 <= sq (np_min (map f l)).
Proof.
  intros A f [|x l] H; [apply Qle_refl|].
  cbn [map]. pose proof (np_min_in (f x) (map f l)) as Hin.
  destruct Hin as [<-|Hin]; [apply H|].
  apply in_map_iff in Hin as (y & <- & _). apply H.
Qed.

Lemma compute_surface_distances_cases :
  forall (mask_gt mask_pred : ndarray bool) (spacing : Q * Q * Q),
    (compute_surface_distances mask_gt mask_pred spacing = None
     <-> card mask_gt = 0%Z \/ card mask_pred = 0%Z)
    /\ (forall sd,
           compute_surface_distances mask_gt mask_pred spacing = Some sd ->
           List.length (distances_gt_to_pred sd)
           = List.length (np_where (np_ne (binary_erosion mask_gt) mask_gt))
           /\ List.length (distances_pred_to_gt sd)
              = List.length
                  (np_where (np_ne (binary_erosion mask_pred) mask_pred))
           /\ surfel_areas_gt sd
              = repeat 1 (List.length (distances_gt_to_pred sd))
           /\ surfel_areas_pred sd
              = repeat 1 (List.length (distances_pred_to_gt sd))
           /\ Forall (fun d => 0 <= sq d) (distances_gt_to_pred sd)
           /\ Forall (fun d => 0 <= sq d) (distances_pred_to_gt sd)).
Proof.
  intros mg mp spacing.
  rewrite <- (surface_empty_iff mg), <- (surface_empty_iff mp).
  unfold compute_surface_distances.
  set (g := np_where (np_ne (binary_erosion mg) mg)).
  set (p := np_where (np_ne (binary_erosion mp) mp)).
  clearbody g p. destruct g as [|g0 g], p as [|p0 p].
  - split; [tauto|discriminate].
  - split; [tauto|discriminate].
  - split; [tauto|discriminate].
  - split.
    + split; [discriminate|intros [H|H]; discriminate].
    + intros sd H.
      set (G := map (scale spacing) (g0 :: g)).
      set (P := map (scale spacing) (p0 :: p)).
      set (gp := map (fun x => np_min (map (fun y => distance x y) P)) G).
      set (pg := map (fun y => np_min (map (fun x => distance x y) G)) P).
      assert (Hsd : sd = {| distances_gt_to_pred := gp;
                            distances_pred_to_gt := pg;
                            surfel_areas_gt := repeat 1 (List.length gp);
                            surfel_areas_pred := repeat 1 (List.length pg) |})
        by now injection H.
      rewrite Hsd.
      cbn [distances_gt_to_pred distances_pred_to_gt surfel_areas_gt
             surfel_areas_pred].
      unfold gp, pg, G, P. rewrite !length_map.
      split; [reflexivity|]. split; [reflexivity|].
      split; [reflexivity|]. split; [reflexivity|]. split.
      * apply Forall_forall. intros d Hd.
        apply in_map_iff in Hd as (x & <- & _).
        apply np_min_nonneg. intros y. apply distance_nonneg.
      * apply Forall_forall. intros d Hd.
        apply in_map_iff in Hd as (x & <- & _).
        apply (np_min_nonneg _ (fun y => distance y x)).
        intros y. apply distance_nonneg.
Qed.

(** X14.  The repository's [compute_surface_distances] gives no result
    exactly when one of the two masks is empty; the shapes of the masks
    need not agree.  Otherwise it gives one distance for each surface
    voxel of each mask, none of them negative, and the area 1 for each. *)
Theorem surface_distances_exist_unless_a_mask_is_empty :
  forall (mask_gt mask_pred : ndarray bool) (spacing : Q * Q * Q),
    (compute_surface_distances mask_gt mask_pred spacing = None
     <-> card mask_gt = 0%Z \/ card mask_pred = 0%Z)
    /\ (forall sd,
           compute_surface_distances mask_gt mask_pred spacing = Some sd ->
           List.length (distances_gt_to_pred sd)
           = List.length (np_where (np_ne (binary_erosion mask_gt) mask_gt))
           /\ List.length (distances_pred_to_gt sd)
              = List.length
                  (np_where (np_ne (binary_erosion mask_pred) mask_pred))
           /\ surfel_areas_gt sd
              = repeat 1 (List.length (distances_gt_to_pred sd))
           /\ surfel_areas_pred sd
              = repeat 1 (List.length (distances_pred_to_gt sd))
           /\ Forall (fun d => 0 <= sq d) (distances_gt_to_pred sd)
           /\ Forall (fun d => 0 <= sq d) (distances_pred_to_gt sd)).
Proof.
  exact compute_surface_distances_cases.
Qed.

Lemma sumQ_nonneg : forall l, Forall (fun a => 0 <= a) l -> 0 <= sumQ l.
Proof.
  intros l H. induction H as [|a l Ha H IH]; [apply Qle_refl|].
  cbn [sumQ fold_right]. now apply sum_nonneg.
Qed.

Lemma overlap_bounds : forall areas distances tolerance_mm,
  Forall (fun a => 0 <= a) areas ->
  0 <= overlap areas distances tolerance_mm
  /\ overlap areas distances tolerance_mm <= sumQ areas.
Proof.
  unfold overlap. induction areas as [|a areas IH]; intros ds tol H.
  - cbn. split; apply Qle_refl.
  - inversion H as [|? ? Ha H']; subst.
    destruct ds as [|d ds].
    + cbn [combine filter map sumQ fold_right]. split; [apply Qle_refl|].
      apply sum_nonneg; [exact Ha|now apply sumQ_nonneg].
    + destruct (IH ds tol H') as [L U]. cbn [combine filter snd].
      destruct (dist_le_float d tol); cbn [map fst sumQ fold_right].
      * split; [now apply sum_nonneg|].
        apply Qplus_le_compat; [apply Qle_refl|exact U].
      * split; [exact L|].
        setoid_replace (sumQ (map fst
                                (filter (fun ad => dist_le_float (snd ad) tol)
                                        (combine areas ds))))
          with (0 + sumQ (map fst
                            (filter (fun ad => dist_le_float (snd ad) tol)
                                    (combine areas ds)))) by ring.
        now apply Qplus_le_compat.
Qed.

Lemma ones_nonneg : forall n, Forall (fun a => 0 <= a) (repeat 1 n).
Proof.
  intros n. apply Forall_forall. intros a Ha.
  apply repeat_spec in Ha. subst. discriminate.
Qed.

(** X15.  The repository's [compute_surface_dice] of the distances that
    [compute_surface_distances] returns lies between 0 and 1 for every
    tolerance, and is 0 when a mask is empty. *)
Theorem surface_dice_is_a_fraction :
  forall (mask_gt mask_pred : ndarray bool) (spacing : Q * Q * Q)
         (tolerance_mm : Q),
    let v :=
      compute_surface_dice
        (compute_surface_distances mask_gt mask_pred spacing) tolerance_mm in
    0 <= v /\ v <= 1
    /\ (card mask_gt = 0%Z \/ card mask_pred = 0%Z -> v = 0).
Proof.
  intros mg mp spacing tol v. subst v.
  destruct (compute_surface_distances_cases mg mp spacing)
    as [Hnone Hsome].
  destruct (compute_surface_distances mg mp spacing) as [sd|] eqn:E.
  - destruct (Hsome sd eq_refl) as (Lg & Lp & Ag & Ap & _).
    assert (Hpos : 0 < sumQ (surfel_areas_gt sd) + sumQ (surfel_areas_pred sd)).
    { rewrite Ag, Ap, !sumQ_ones, <- inject_Z_plus.
      change 0 with (inject_Z 0). rewrite <- Zlt_Qlt.
      assert (List.length (distances_gt_to_pred sd) <> 0%nat).
      { rewrite Lg. intros Z0. apply length_zero_iff_nil in Z0.
        apply surface_empty_iff in Z0.
        assert (N : Some sd = None) by (apply Hnone; now left).
        discriminate N. }
      lia. }
    destruct (overlap_bounds (surfel_areas_gt sd) (distances_gt_to_pred sd) tol)
      as [L1 U1]; [rewrite Ag; apply ones_nonneg|].
    destruct (overlap_bounds (surfel_areas_pred sd) (distances_pred_to_gt sd)
                tol) as [L2 U2]; [rewrite Ap; apply ones_nonneg|].
    cbn [compute_surface_dice]. split; [|split].
    + apply Qle_shift_div_l; [exact Hpos|]. rewrite Qmult_0_l.
      now apply sum_nonneg.
    + apply Qle_shift_div_r; [exact Hpos|]. rewrite Qmult_1_l.
      now apply Qplus_le_compat.
    + intros H. apply Hnone in H. discriminate H.
  - cbn. repeat split; discriminate.
Qed.

(** ** The run of the consecutive tool *)

Lemma consecutive_row_label : forall d1 d2 spacing lbl r,
  consecutive_row d1 d2 spacing lbl = Ok r -> label r = lbl.
Proof.
  intros d1 d2 spacing lbl r. unfold consecutive_row.
  destruct (consecutive_dice (np_eq d1 lbl) (np_eq d2 lbl)); [|discriminate].
  cbn [bind]. now intros [= <-].
Qed.

Lemma compute_metrics_some : forall fs path1 path2 labels rs,
  compute_metrics fs path1 path2 labels = Ok (Some rs) ->
  map label rs = labels.
Proof.
  intros fs path1 path2 labels rs. unfold compute_metrics, load.
  destruct (fs path1) as [img1|]; [|discriminate].
  destruct (fs path2) as [img2|]; [|discriminate]. cbn [bind].
  destruct (negb (shape_eqb (shape (get_fdata img1)) (shape (get_fdata img2))));
    [discriminate|].
  destruct (mapM (consecutive_row (get_fdata img1) (get_fdata img2)
                    (get_zooms img1)) labels) as [rs'|] eqn:E;
    [|discriminate].
  cbn [bind]. intros [= <-].
  apply (mapM_labels _ _ _ label _ _ (consecutive_row_label _ _ _) E).
Qed.

Lemma compute_metrics_none : forall fs path1 path2 labels,
  compute_metrics fs path1 path2 labels = Ok None ->
  exists img1 img2,
    fs path1 = Some img1 /\ fs path2 = Some img2
    /\ shape (get_fdata img1) <> shape (get_fdata img2).
Proof.
  intros fs path1 path2 labels. unfold compute_metrics, load.
  destruct (fs path1) as [img1|]; [|discriminate].
  destruct (fs path2) as [img2|]; [|discriminate]. cbn [bind].
  destruct (shape_eqb (shape (get_fdata img1)) (shape (get_fdata img2)))
    eqn:S; cbn [negb].
  - destruct (mapM _ labels); discriminate.
  - intros _. exists img1, img2. repeat split. intros E.
    rewrite E, shape_eqb_refl in S. discriminate.
Qed.

(** What the inner loop of [main] adds for the pairs of one subject. *)
Lemma consecutive_loop_adds :
  forall fs lut labels subj sessions pairs st st',
    consecutive_loop fs lut labels subj sessions pairs st = Ok st' ->
    exists new_rows new_skipped,
      rows st' = rows st ++ new_rows
      /\ skipped st' = skipped st ++ new_skipped
      /\ (List.length new_rows
          + List.length labels * List.length new_skipped
          = List.length labels * List.length pairs)%nat
      /\ (forall p, In p new_skipped -> In p pairs /\ shapes_differ fs sessions p)
      /\ (forall r,
             In r new_rows ->
             exists s1 s2,
               In (s1, s2) pairs /\ subject r = Some subj
               /\ session1 r = Some s1 /\ session2 r = Some s2
               /\ In (label r) labels).
Proof.
  intros fs lut labels subj sessions.
  induction pairs as [|[s1 s2] pairs IH]; intros st st' H.
  - injection H as <-. exists [], [].
    rewrite !app_nil_r. split; [reflexivity|]. split; [reflexivity|].
    split; [cbn [List.length]; lia|]. split; intros ? [].
  - cbn [consecutive_loop] in H. unfold subscript in H.
    destruct (PyDict.get sessions s1) as [p1|] eqn:G1; [|discriminate].
    destruct (PyDict.get sessions s2) as [p2|] eqn:G2; [|discriminate].
    cbn [bind] in H.
    destruct (compute_metrics fs p1 p2 labels) as [[rs|]|] eqn:C;
      [| |discriminate]; cbn [bind] in H;
      apply IH in H as (nr & ns & Hr & Hs & Hc & Hsk & Hrow);
      cbn [rows skipped] in Hr, Hs.
    + apply compute_metrics_some in C.
      exists (map (annotate lut subj s1 s2) rs ++ nr), ns.
      split; [now rewrite Hr, app_assoc|]. split; [exact Hs|].
      split; [|split].
      * rewrite length_app, length_map, <- (length_map label rs), C.
        cbn [List.length]. lia.
      * intros p Hp. destruct (Hsk p Hp). split; [now right|assumption].
      * intros r Hin. apply in_app_or in Hin as [Hin|Hin].
        -- apply in_map_iff in Hin as (r0 & <- & Hr0).
           exists s1, s2. cbn. repeat split; [now left|].
           rewrite <- C. now apply in_map.
        -- destruct (Hrow r Hin) as (a & b & Hab & R).
           exists a, b. split; [now right|exact R].
    + apply compute_metrics_none in C as (img1 & img2 & L1 & L2 & Hne).
      exists nr, ((s1, s2) :: ns).
      split; [exact Hr|]. split; [now rewrite Hs, <- app_assoc|].
      split; [|split].
      * cbn [List.length]. lia.
      * intros p [<-|Hp].
        -- split; [now left|]. now exists p1, p2, img1, img2.
        -- destruct (Hsk p Hp). split; [now right|assumption].
      * intros r Hin. destruct (Hrow r Hin) as (a & b & Hab & R).
        exists a, b. split; [now right|exact R].
Qed.

Lemma consecutive_subjects_rows :
  forall fs lut labels by_subj st st',
    consecutive_subjects fs lut labels by_subj st = Ok st' ->
    exists new_rows,
      rows st' = rows st ++ new_rows
      /\ forall r, In r new_rows -> row_of_run by_subj labels r.
Proof.
  intros fs lut labels. induction by_subj as [|[subj sessions] rest IH];
    intros st st' H.
  - injection H as <-. exists []. rewrite app_nil_r. split; [reflexivity|].
    intros ? [].
  - cbn [consecutive_subjects] in H.
    destruct (consecutive_loop fs lut labels subj sessions
                (consecutive_pairs sessions) st) as [st1|] eqn:L;
      [|discriminate].
    cbn [bind] in H.
    apply consecutive_loop_adds in L as (nr & _ & Hr & _ & _ & _ & Hrow).
    apply IH in H as (nr' & Hr' & Hrow').
    exists (nr ++ nr'). split; [now rewrite Hr', Hr, app_assoc|].
    intros r Hin. apply in_app_or in Hin as [Hin|Hin].
    + destruct (Hrow r Hin) as (s1 & s2 & Hp & R).
      exists subj, sessions, s1, s2. split; [now left|]. now split.
    + destruct (Hrow' r Hin) as (subj' & sessions' & s1 & s2 & Hin' & R).
      exists subj', sessions', s1, s2. split; [now right|exact R].
Qed.

(** X16.  How [main] of the consecutive tool ends.  Without a directory it
    exits with [Specify --freesurfer-dir or set FREESURFER_DIR]; when the
    search finds no file it exits with [No segmentation files found].  A
    table that it saves is not empty, and each of its rows names a
    subject of the index, one of that subject's consecutive pairs of
    sessions and one of the requested labels; so with no label requested
    no table is saved. *)
Theorem consecutive_tool_saves_rows_of_indexed_pairs :
  forall freesurfer_dir walk aparc_names subjects labels lut fs,
    (freesurfer_dir = EmptyString ->
     main freesurfer_dir walk aparc_names subjects labels lut fs
     = Raise (SystemExit "Specify --freesurfer-dir or set FREESURFER_DIR"))
    /\ (freesurfer_dir <> EmptyString ->
        find_segmentations walk aparc_names subjects = [] ->
        main freesurfer_dir walk aparc_names subjects labels lut fs
        = Raise (SystemExit "No segmentation files found"))
    /\ (forall rs,
           main freesurfer_dir walk aparc_names subjects labels lut fs
           = Ok rs ->
           rs <> []
           /\ forall r,
                In r rs ->
                row_of_run
                  (group_by_subject
                     (find_segmentations walk aparc_names subjects))
                  labels r)
    /\ (labels = [] ->
        forall rs,
          main freesurfer_dir walk aparc_names subjects labels lut fs
          <> Ok rs).
Proof.
  intros dir walk names subjects labels lut fs.
  assert (H3 : forall rs,
             main dir walk names subjects labels lut fs = Ok rs ->
             rs <> []
             /\ forall r,
                  In r rs ->
                  row_of_run
                    (group_by_subject (find_segmentations walk names subjects))
                    labels r).
  { intros rs. unfold main.
    destruct (String.eqb dir EmptyString); [discriminate|].
    destruct (find_segmentations walk names subjects) as [|seg segs] eqn:F;
      [discriminate|].
    destruct (consecutive_subjects fs lut labels
                (group_by_subject (seg :: segs))
                {| rows := []; skipped := [] |}) as [st|] eqn:C;
      [|discriminate].
    cbn [bind]. destruct (rows st) as [|r0 rs0] eqn:R; [discriminate|].
    intros [= <-]. split; [discriminate|].
    apply consecutive_subjects_rows in C as (nr & Hr & Hrow).
    cbn [rows app] in Hr. rewrite R in Hr. subst nr. exact Hrow. }
  split; [|split; [|split]].
  - intros ->. reflexivity.
  - intros Hd Hf. unfold main. apply String.eqb_neq in Hd.
    now rewrite Hd, Hf.
  - exact H3.
  - intros -> rs H. apply H3 in H as [Hne Hrow].
    destruct rs as [|r rs]; [congruence|].
    destruct (Hrow r (or_introl eq_refl))
      as (_ & _ & _ & _ & _ & _ & _ & _ & _ & []).
Qed.

(** X17.  The inner loop of [main] accounts for every consecutive pair
    of a subject: a pair either is listed as skipped, and then its two
    volumes have different shapes, or adds one row for each requested
    label.  So the rows of a subject with [n] sessions and the skipped
    pairs times the number of labels add up to [n - 1] times the number
    of labels. *)
Theorem consecutive_loop_accounts_for_every_pair :
  forall fs lut labels subj (sessions : PyDict.dict path) st,
    consecutive_loop fs lut labels subj sessions
      (consecutive_pairs sessions) {| rows := []; skipped := [] |} = Ok st ->
    (List.length (rows st) + List.length labels * List.length (skipped st)
     = List.length labels * (List.length sessions - 1))%nat
    /\ (forall p,
           In p (skipped st) ->
           In p (consecutive_pairs sessions) /\ shapes_differ fs sessions p).
Proof.
  intros fs lut labels subj sessions st H.
  apply consecutive_loop_adds in H as (nr & ns & Hr & Hs & Hc & Hsk & _).
  cbn [rows skipped app] in Hr, Hs. subst nr ns.
  split; [|exact Hsk].
  rewrite Hc. unfold consecutive_pairs.
  rewrite pairwise_length, <- (keys_length _ sessions).
  now rewrite <- (Permutation_length (py_sorted_perm _ session_ltb _)).
Qed.

(** A witness of X17: the sessions of shapes 1 x 1 x 2, 1 x 1 x 3 and
    1 x 1 x 3, and the label 17. *)
Lemma one_pair_skipped_one_computed :
  exists st,
    consecutive_loop (disk_of short_image long_image long_image) []
      [17%Z] "simon" three_sessions (consecutive_pairs three_sessions)
      {| rows := []; skipped := [] |} = Ok st
    /\ (List.length (rows st) + 1 * List.length (skipped st) = 1 * (3 - 1))%nat.
Proof.
  eexists. split; [vm_compute; reflexivity|].
  refine (proj1 (consecutive_loop_accounts_for_every_pair
                   (disk_of short_image long_image long_image) []
                   [17%Z] "simon" three_sessions _ _)).
  vm_compute. reflexivity.
Defined.

(** ** The finished file of the all-pairs tool *)

Lemma mapM_app_raise : forall (A B : Type) (f : A -> result B) l p rest ys e,
  mapM f l = Ok ys -> f p = Raise e -> mapM f (l ++ p :: rest) = Raise e.
Proof.
  intros A B f. induction l as [|x l IH]; intros p rest ys e Hl Hp.
  - cbn. now rewrite Hp.
  - cbn [app mapM] in *. destruct (f x) as [y|]; [|discriminate].
    cbn [bind] in *. destruct (mapM f l) as [ys'|] eqn:E; [|discriminate].
    now rewrite (IH p rest ys' e eq_refl Hp).
Qed.

Lemma process_subject_outcome : forall fs subj sessions w chunk_size,
  match process_subject fs subj sessions w chunk_size with
  | Done st =>
      exists rs,
        subject_rows fs (subj, sessions) = Ok rs
        /\ written (out st) = written w ++ rs
  | Aborted e _ => subject_rows fs (subj, sessions) = Raise e
  end.
Proof.
  intros fs subj sessions w c. unfold process_subject, subject_rows.
  cbn [fst snd].
  pose proof (process_pairs_rows fs subj sessions c (all_pairs sessions)
                {| buffer := []; out := w |}) as H.
  destruct (process_pairs fs subj sessions c (all_pairs sessions)
              {| buffer := []; out := w |}) as [st|e st].
  - destruct H as (rowss & -> & H). cbn [bind]. eexists.
    split; [reflexivity|].
    rewrite flush_rest_written, H. cbn [out buffer]. now rewrite app_nil_r.
  - destruct H as (done & p & rest & rowss & -> & Hd & Hp & _).
    now rewrite (mapM_app_raise _ _ _ _ _ _ _ _ Hd Hp).
Qed.

Lemma process_subjects_outcome : forall fs subject_files chunk_size w,
  match fst (process_subjects fs subject_files chunk_size w) with
  | Ok w' =>
      exists rss,
        mapM (subject_rows fs) subject_files = Ok rss
        /\ written w' = written w ++ List.concat rss
  | Raise e => mapM (subject_rows fs) subject_files = Raise e
  end.
Proof.
  intros fs subject_files c.
  induction subject_files as [|[subj sessions] rest IH]; intros w.
  - cbn. exists []. split; [reflexivity|]. cbn. now rewrite app_nil_r.
  - cbn [process_subjects mapM]. destruct sessions as [|s sessions].
    + specialize (IH w).
      destruct (fst (process_subjects fs rest c w)) as [w'|e].
      * destruct IH as (rss & -> & H). exists ([] :: rss).
        split; [reflexivity|exact H].
      * now rewrite IH.
    + pose proof (process_subject_outcome fs subj (s :: sessions) w c) as H.
      destruct (process_subject fs subj (s :: sessions) w c) as [st|e st].
      * destruct H as (rs & -> & Hw). specialize (IH (out st)).
        destruct (fst (process_subjects fs rest c (out st))) as [w'|e].
        -- destruct IH as (rss & -> & H'). exists (rs :: rss).
           split; [reflexivity|]. cbn [List.concat].
           now rewrite H', Hw, <- app_assoc.
        -- cbn [bind]. now rewrite IH.
      * cbn [fst]. now rewrite H.
Qed.

Lemma written_run_file : forall file rs,
  data_rows (lines_of (run_file file rs)) = data_rows (lines_of file) ++ rs.
Proof.
  intros [old|] rs; cbn [run_file].
  - cbn [lines_of]. now rewrite data_rows_app, data_rows_data.
  - destruct rs as [|r rs]; [reflexivity|].
    cbn [lines_of]. change (Header columns_of_rows :: map Data (r :: rs))
      with ([Header columns_of_rows] ++ map Data (r :: rs)).
    now rewrite data_rows_app, data_rows_data.
Qed.

Lemma finished_run_file : forall walk long_only subjects chunk_size fs file w,
  fst (calculate_session_metrics walk long_only subjects chunk_size fs file)
  = Ok w ->
  exists rss,
    mapM (subject_rows fs)
      (index_files subjects (collect_dkt_files walk long_only)) = Ok rss
    /\ destination w = run_file file (List.concat rss).
Proof.
  intros walk lo subjects c fs file w H.
  unfold calculate_session_metrics in H.
  set (idx := index_files subjects (collect_dkt_files walk lo)) in *.
  destruct (process_subjects_file_of_run file fs idx c (open_writer file)
              (open_writer_file_of_run file)) as [[_ (rs & Hd)] Hw].
  pose proof (process_subjects_outcome fs idx c (open_writer file)) as Ho.
  rewrite H in Ho. destruct Ho as (rss & Hm & Hrows).
  rewrite <- (Hw w H) in Hd.
  exists rss. split; [exact Hm|]. rewrite Hd. f_equal.
  unfold written in Hrows. rewrite Hd, written_run_file in Hrows.
  assert (E : lines_of (destination (open_writer file)) = lines_of file)
    by now destruct file.
  rewrite E in Hrows. now apply app_inv_head in Hrows.
Qed.

(** X18.  The file of a finished run of [calculate_session_metrics] is
    the file that the run found followed, behind a header if the run
    created it, by the rows of all pairs of all subjects in the order of
    the index.  The chunk size plays no part in it: with another chunk
    size the run finishes with the same file, and a run that an exception
    ends is ended by the same exception. *)
Theorem finished_file_does_not_depend_on_chunk_size :
  forall walk long_only subjects (fs : disk) file (chunk1 chunk2 : Z),
    let run :=
      fun c => calculate_session_metrics walk long_only subjects c fs file in
    (forall w1,
        fst (run chunk1) = Ok w1 ->
        exists rss,
          mapM (subject_rows fs)
            (index_files subjects (collect_dkt_files walk long_only))
          = Ok rss
          /\ destination w1 = run_file file (List.concat rss))
    /\ (forall w1,
           fst (run chunk1) = Ok w1 ->
           exists w2,
             fst (run chunk2) = Ok w2 /\ destination w2 = destination w1)
    /\ (forall e, fst (run chunk1) = Raise e -> fst (run chunk2) = Raise e).
Proof.
  intros walk lo subjects fs file c1 c2 run. unfold run.
  set (idx := index_files subjects (collect_dkt_files walk lo)).
  pose proof (process_subjects_outcome fs idx c1 (open_writer file)) as O1.
  pose proof (process_subjects_outcome fs idx c2 (open_writer file)) as O2.
  fold idx in O1, O2.
  split; [|split].
  - intros w1 H. now apply finished_run_file with (chunk_size := c1).
  - intros w1 H.
    destruct (finished_run_file _ _ _ _ _ _ _ H) as (rss & Hm & Hd).
    fold idx in Hm.
    destruct (fst (calculate_session_metrics walk lo subjects c2 fs file))
      as [w2|e] eqn:E2.
    + exists w2. split; [reflexivity|].
      destruct (finished_run_file _ _ _ _ _ _ _ E2) as (rss' & Hm' & Hd').
      fold idx in Hm'. rewrite Hd, Hd'. congruence.
    + unfold calculate_session_metrics in E2. fold idx in E2.
      rewrite E2 in O2. congruence.
  - intros e H. unfold calculate_session_metrics in *. fold idx in H |- *.
    rewrite H in O1.
    destruct (fst (process_subjects fs idx c2 (open_writer file)))
      as [w2|e2]; [|congruence].
    destruct O2 as (rss & Hm & _). congruence.
Qed.
